(** * Credential checkers: a shallow embedding of the retry, proxy and
      classification logic

    The Python sources are translated function by function.  Everything the
    program asks of the outside world (the proxy directory, the HTTP session,
    the random generator, the clock) is answered by an oracle [Env] that sees
    the whole history of earlier interactions; every interaction is logged as
    an [Event].  Python exceptions are values of type [exn], and a computation
    returns either a raised exception or a value, together with the state it
    leaves behind (mutations made before a raise are kept, as in Python).
    Text is modelled by [string], one character per code point below 256;
    durations and random numbers are rationals, and an operation on floats
    rounds its exact result to the nearest float. *)

From Stdlib Require Import String Ascii List ZArith QArith Qround Lia Lqa Bool.
From Stdlib Require Import DecimalString.
From stdpp Require Import base option list strings gmap.
Import ListNotations.

Local Open Scope string_scope.
Local Open Scope list_scope.

(** ** Python values and exceptions *)

Module Py.

(** The exception classes the sources distinguish in their [except] clauses.
    [requests.exceptions.JSONDecodeError] derives from both
    [RequestException] and [json.JSONDecodeError]. *)
Inductive exn : Type :=
| ConnectionError
| Timeout
| RequestsJSONDecodeError
| JSONDecodeError
| FreeProxyException
| KeyError (key : string)
| AttributeError
| WebDriverException
| TimeoutException
| RuntimeError (msg : string).

Definition is_RequestException (e : exn) : bool :=
  match e with
  | ConnectionError | Timeout | RequestsJSONDecodeError => true
  | _ => false
  end.

Definition is_JSONDecodeError (e : exn) : bool :=
  match e with
  | RequestsJSONDecodeError | JSONDecodeError => true
  | _ => false
  end.

(** Values produced by [json.loads] (floats are left out). A dict is kept as
    the list of its items. *)
#[warnings="-register-all"]
Inductive pyval : Type :=
| PyNone
| PyBool (b : bool)
| PyInt (z : Z)
| PyStr (s : string)
| PyList (l : list pyval)
| PyDict (items : list (string * pyval)).

(** Truth value testing, as done by [if token:]. *)
Definition truthy (v : pyval) : bool :=
  match v with
  | PyNone => false
  | PyBool b => b
  | PyInt z => negb (z =? 0)%Z
  | PyStr s => negb (String.eqb s EmptyString)
  | PyList l => match l with [] => false | _ => true end
  | PyDict d => match d with [] => false | _ => true end
  end.

Fixpoint assoc (k : string) (items : list (string * pyval)) : option pyval :=
  match items with
  | [] => None
  | (k', v) :: rest => if String.eqb k k' then Some v else assoc k rest
  end.

(** [d.get(k)]: the value, or [None] when the key is missing. *)
Definition dict_get (items : list (string * pyval)) (k : string) : pyval :=
  match assoc k items with
  | Some v => v
  | None => PyNone
  end.

(** Truth value of an optional string ([None] and [''] are false). *)
Definition truthy_str (p : option string) : bool :=
  match p with
  | None => false
  | Some s => negb (String.eqb s EmptyString)
  end.

(** The one-character string holding a double quote. *)
Definition dq : string := String "034" EmptyString.

(** [s.partition(sep)] when [sep] occurs: the text before and after its first
    occurrence. *)
Fixpoint partition (sep s : string) : option (string * string) :=
  if String.prefix sep s
  then Some (EmptyString, String.substring (String.length sep)
                   (String.length s - String.length sep) s)
  else match s with
       | EmptyString => None
       | String c s' =>
           match partition sep s' with
           | Some (a, b) => Some (String c a, b)
           | None => None
           end
       end.

(** [sep in s] *)
Definition contains (sep s : string) : bool :=
  match partition sep s with Some _ => true | None => false end.

(** [s.split(sep)[0]] *)
Definition split_0 (sep s : string) : string :=
  match partition sep s with Some (a, _) => a | None => s end.

(** [s.split(sep)[1]], defined when [sep] occurs in [s]. *)
Definition split_1 (sep s : string) : option string :=
  match partition sep s with
  | Some (_, rest) => Some (split_0 sep rest)
  | None => None
  end.

(** [c.lower()] for a character below code point 256: the ASCII capitals
    and the Latin-1 capitals (192 to 222 except the multiplication sign). *)
Definition lower_char (c : ascii) : ascii :=
  let n := nat_of_ascii c in
  if ((65 <=? n) && (n <=? 90))%nat then ascii_of_nat (n + 32)
  else if ((192 <=? n) && (n <=? 222) && negb (n =? 215))%nat
       then ascii_of_nat (n + 32)
       else c.

(** [s.lower()] *)
Fixpoint lower (s : string) : string :=
  match s with
  | EmptyString => EmptyString
  | String c s' => String (lower_char c) (lower s')
  end.

(** Floats.  A Python float is an IEEE 754 binary64 number: the finite ones
    are the rationals [m * 2^e] with [|m| < 2^53] and [-1074 <= e <= 971].  An
    operation on floats returns the float nearest to its exact result, the one
    with the even significand in a tie; [binary64 x] is that float for the
    exact result [x].  Results beyond the largest finite float, which Python
    turns into [inf], are not modelled. *)

(** The integer part of the binary logarithm of [|x|], for [x] other
    than 0. *)
Definition ilog2 (x : Q) : Z :=
  let n := Z.abs (Qnum x) in
  let d := Zpos (Qden x) in
  let e := (Z.log2 n - Z.log2 d)%Z in
  if (0 <=? e)%Z
  then (if (d * 2 ^ e <=? n)%Z then e else e - 1)%Z
  else (if (d <=? n * 2 ^ (- e))%Z then e else e - 1)%Z.

(** The nearest integer, the even one in a tie. *)
Definition round_half_even (x : Q) : Z :=
  let f := Qfloor x in
  match (x - inject_Z f ?= 1 # 2)%Q with
  | Lt => f
  | Gt => (f + 1)%Z
  | Eq => if Z.even f then f else (f + 1)%Z
  end.

(** [x] rounded to a multiple of its unit in the last place [2^e]: 52 binary
    places below the leading bit, and never below [2^-1074]. *)
Definition binary64 (x : Q) : Q :=
  let e := Z.max (ilog2 x - 52) (-1074) in
  if (0 <=? e)%Z
  then inject_Z (round_half_even (x / inject_Z (2 ^ e)) * 2 ^ e)
  else Qred (Qmake (round_half_even (x * inject_Z (2 ^ (- e))))
                   (Z.to_pos (2 ^ (- e)))).

#[global] Arguments binary64 : simpl never.

End Py.
Export Py.

(** ** Computations that may raise *)

Module Exc.

(** State in, raised exception or value out, state out. *)
Definition M (S A : Type) : Type := S -> (exn + A) * S.

Definition ret {S A} (a : A) : M S A := fun s => (inr a, s).

Definition raise {S A} (e : exn) : M S A := fun s => (inl e, s).

Definition bind {S A B} (c : M S A) (k : A -> M S B) : M S B :=
  fun s => match c s with
           | (inr a, s') => k a s'
           | (inl e, s') => (inl e, s')
           end.

(** [try: body except <classes matched by handler>: ...]; an exception the
    handler does not match, or one raised by the handler, propagates. *)
Definition try_except {S A} (body : M S A) (handler : exn -> option (M S A))
  : M S A :=
  fun s => match body s with
           | (inr a, s') => (inr a, s')
           | (inl e, s') =>
               match handler e with
               | Some h => h s'
               | None => (inl e, s')
               end
           end.

(** [try: body finally: cleanup]; the cleanup runs on every exit, and an
    exception it raises replaces the outcome of the body. *)
Definition try_finally {S A} (body : M S A) (cleanup : M S unit) : M S A :=
  fun s => match body s with
           | (r, s') =>
               match cleanup s' with
               | (inr _, s'') => (r, s'')
               | (inl e, s'') => (inl e, s'')
               end
           end.

Definition get_state {S} : M S S := fun s => (inr s, s).
Definition modify {S} (f : S -> S) : M S unit := fun s => (inr tt, f s).

(** What one pass through a loop body tells the loop. *)
Inductive ctl (A : Type) : Type :=
| Return (v : A)
| Continue.
#[global] Arguments Return {A} v.
#[global] Arguments Continue {A}.

(** [post c Q]: whenever [c] returns a value, the value satisfies [Q]. *)
Definition post {S A} (c : M S A) (Q : A -> Prop) : Prop :=
  forall s x s', c s = (x, s') ->
                 match x with inr a => Q a | inl _ => True end.

Module Import Notations.
Notation "x <- c ;; k" := (bind c (fun x => k))
  (at level 100, c at next level, right associativity).
Notation "c ;;; k" := (bind c (fun _ => k))
  (at level 100, right associativity).
End Notations.

End Exc.
Export Exc.
Export Exc.Notations.

(** ** The outside world *)

Inductive Method : Type := GET | POST.

(** The JSON payload of the login request. *)
Record Payload : Type := mkPayload {
  p_email : string;
  p_password : string;
  p_csrf : string
}.

(** A request as the session sends it: [via] is [session.proxies] at the time
    of the call ([None] for the empty dict). *)
Record Request : Type := mkRequest {
  meth : Method;
  url : string;
  via : option string;
  payload : option Payload
}.

(** A response: the status code, the body text, and what [response.json()]
    gives ([None] when the body does not decode). *)
Record Response : Type := mkResponse {
  status_code : Z;
  text : string;
  json_body : option pyval
}.

Inductive Event : Type :=
| EvFreeProxy (answer : exn + option string)
| EvRequest (req : Request) (answer : exn + Response)
| EvRandom (r : Q)
| EvSleep (secs : Q).

(** The oracle. Each answer may depend on the whole history (newest event
    first) and on the request. *)
Record Env : Type := mkEnv {
  free_proxy : list Event -> exn + option string;
  send : list Event -> Request -> exn + Response;
  random : list Event -> Q
}.

Definition signin_url : string := "https://www.kroger.com/signin".
Definition login_url : string := "https://www.kroger.com/auth/api/login".
Definition home_url : string := "https://www.kroger.com".

(** ** Regular expressions, as [re.search] runs them

    A backtracking matcher for the fragment the patterns use: literals,
    repetition of a character class (greedy or lazy) and one capture group.
    Alternatives are tried in Python's priority order, start positions from
    the left.  Characters are 8-bit code points. *)

Module Re.

Inductive cls : Type :=
| Any                      (* [.] with re.DOTALL *)
| Space                    (* [\s] *)
| Except (c : ascii).      (* [[^c]] *)

(** Unicode white space below code point 256. *)
Definition is_space (c : ascii) : bool :=
  let n := nat_of_ascii c in
  (((9 <=? n) && (n <=? 13)) || ((28 <=? n) && (n <=? 32))
   || (n =? 133) || (n =? 160))%nat.

Definition in_cls (k : cls) (c : ascii) : bool :=
  match k with
  | Any => true
  | Space => is_space c
  | Except x => negb (Ascii.eqb c x)
  end.

Inductive regex : Type :=
| Lit (s : string)
| Rep (k : cls) (min : nat) (greedy : bool)
| Group (r : regex)
| Seq (r1 r2 : regex).

Fixpoint cat (rs : list regex) : regex :=
  match rs with
  | [] => Lit EmptyString
  | [r] => r
  | r :: rs' => Seq r (cat rs')
  end.

(** The input after the literal, when the input starts with it. *)
Fixpoint strip (lit inp : string) : option string :=
  match lit with
  | EmptyString => Some inp
  | String a lit' =>
      match inp with
      | String b inp' => if Ascii.eqb a b then strip lit' inp' else None
      | EmptyString => None
      end
  end.

Section Matcher.

Context {R : Type}.

(** Repetition of a class, at least [min] times; [acc] is the text consumed
    so far.  Greedy repetition tries to take one more character before it
    tries to stop; lazy repetition the other way round. *)
Fixpoint rep (k : cls) (greedy : bool) (min : nat) (inp acc : string)
    (cont : string -> string -> option R) : option R :=
  match inp with
  | EmptyString => if (min =? 0)%nat then cont acc inp else None
  | String c rest =>
      if (min =? 0)%nat then
        if greedy then
          match (if in_cls k c
                 then rep k greedy (pred min) rest (acc +:+ String c EmptyString) cont
                 else None) with
          | Some r => Some r
          | None => cont acc inp
          end
        else
          match cont acc inp with
          | Some r => Some r
          | None =>
              if in_cls k c
              then rep k greedy (pred min) rest (acc +:+ String c EmptyString) cont
              else None
          end
      else
        if in_cls k c
        then rep k greedy (pred min) rest (acc +:+ String c EmptyString) cont
        else None
  end.

(** [run r inp cont]: match [r] at the start of [inp]; [cont] receives the
    text consumed, the rest of the input and the capture made inside [r]. *)
Fixpoint run (r : regex) (inp : string)
    (cont : string -> string -> option string -> option R) : option R :=
  match r with
  | Lit l =>
      match strip l inp with
      | Some rest => cont l rest None
      | None => None
      end
  | Rep k min greedy =>
      rep k greedy min inp EmptyString (fun used rest => cont used rest None)
  | Group r' =>
      run r' inp (fun used rest _ => cont used rest (Some used))
  | Seq a b =>
      run a inp (fun used1 rest1 cap1 =>
        run b rest1 (fun used2 rest2 cap2 =>
          cont (used1 +:+ used2) rest2
               (match cap2 with Some c => Some c | None => cap1 end)))
  end.

End Matcher.

(** [re.match(r, inp)]: the capture of the first successful way to match. *)
Definition match_here (r : regex) (inp : string) : option (option string) :=
  run r inp (fun _ _ cap => Some cap).

(** [re.search(r, inp)]: the leftmost position where [r] matches. *)
Fixpoint search (r : regex) (inp : string) : option (option string) :=
  match match_here r inp with
  | Some cap => Some cap
  | None =>
      match inp with
      | EmptyString => None
      | String _ rest => search r rest
      end
  end.

(** Whether every way through [r] passes its capture group. *)
Fixpoint sets_group (r : regex) : bool :=
  match r with
  | Group _ => true
  | Seq a b => sets_group a || sets_group b
  | _ => false
  end.

End Re.

(** ** kroger_checker_strict_proxy.py *)

Module KrogerStrict.

(** One entry of [valid_creds] / [invalid_creds]. *)
Record Result : Type := mkResult {
  r_email : string;
  r_password : string;
  r_valid : bool;
  r_proxy : option string
}.

(** The checker object together with the log of its interactions. *)
Record State : Type := mkState {
  use_proxy : bool;
  proxy : option string;
  session_proxies : option string;
  valid_creds : list Result;
  invalid_creds : list Result;
  events : list Event
}.

Definition log (e : Event) (s : State) : State :=
  mkState (use_proxy s) (proxy s) (session_proxies s)
          (valid_creds s) (invalid_creds s) (e :: events s).

Definition with_proxy (p : option string) (s : State) : State :=
  mkState (use_proxy s) p (session_proxies s)
          (valid_creds s) (invalid_creds s) (events s).

Definition with_session_proxies (p : option string) (s : State) : State :=
  mkState (use_proxy s) (proxy s) p
          (valid_creds s) (invalid_creds s) (events s).

Definition append_valid (r : Result) (s : State) : State :=
  mkState (use_proxy s) (proxy s) (session_proxies s)
          (valid_creds s ++ [r]) (invalid_creds s) (events s).

Definition append_invalid (r : Result) (s : State) : State :=
  mkState (use_proxy s) (proxy s) (session_proxies s)
          (valid_creds s) (invalid_creds s ++ [r]) (events s).

Definition M : Type -> Type := Exc.M State.

Section WithEnv.

Variable env : Env.

(** *** Primitive interactions *)

(** [FreeProxy(rand=True, timeout=5).get()] *)
Definition FreeProxy_get : M (option string) :=
  fun s => let a := free_proxy env (events s) in
           (a, log (EvFreeProxy a) s).

Definition session_request (m : Method) (u : string) (body : option Payload)
  : M Response :=
  fun s => let req := mkRequest m u (session_proxies s) body in
           let a := send env (events s) req in
           (a, log (EvRequest req a) s).

(** [self.session.get(u, ...)] *)
Definition session_get (u : string) : M Response := session_request GET u None.

(** [self.session.post(u, json=body, ...)] *)
Definition session_post (u : string) (body : Payload) : M Response :=
  session_request POST u (Some body).

(** [time.sleep(secs)] *)
Definition sleep (secs : Q) : M unit :=
  fun s => (inr tt, log (EvSleep secs) s).

(** [random.random()] *)
Definition random_random : M Q :=
  fun s => let r := random env (events s) in (inr r, log (EvRandom r) s).

(** [random.uniform(a, b)], which is [a + (b - a) * self.random()].  With
    ints [a] and [b], as in the call of [check_bulk], the difference is exact
    and the product and the sum are operations on floats. *)
Definition uniform (a b : Z) (r : Q) : Q :=
  binary64 (inject_Z a + binary64 (inject_Z (b - a) * r)).

Definition random_uniform (a b : Z) : M Q :=
  r <- random_random ;; ret (uniform a b r).

(** [response.json()] *)
Definition response_json (r : Response) : M pyval :=
  match json_body r with
  | Some v => ret v
  | None => raise RequestsJSONDecodeError
  end.

(** [v.get(k)]: only dicts have the method. *)
Definition py_get (v : pyval) (k : string) : M pyval :=
  match v with
  | PyDict d => ret (dict_get d k)
  | _ => raise AttributeError
  end.

(** *** _rotate_proxy *)

(** The body of [for attempt in range(max_retries)]; [Continue] stands for
    both the explicit [continue] and reaching the end of the body. *)
Definition _rotate_proxy_body (attempt : nat) : M (ctl bool) :=
  try_except
    (p <- FreeProxy_get ;;
     modify (with_proxy p) ;;;
     if truthy_str p then
       modify (with_session_proxies p) ;;;
       try_except
         (test_response <- session_get home_url ;;
          if (status_code test_response =? 200)%Z
          then ret (Return true)
          else ret Continue)
         (fun _ => Some (ret Continue))
     else ret Continue)
    (fun _ => Some (sleep 1 ;;; ret Continue)).

Fixpoint _rotate_proxy_loop (attempts : list nat) : M (option bool) :=
  match attempts with
  | [] => ret None
  | attempt :: rest =>
      r <- _rotate_proxy_body attempt ;;
      match r with
      | Return b => ret (Some b)
      | Continue => _rotate_proxy_loop rest
      end
  end.

Definition rotate_max_retries (strict : bool) : nat := if strict then 5 else 3.

Definition _rotate_proxy (strict : bool) : M bool :=
  r <- _rotate_proxy_loop (seq 0 (rotate_max_retries strict)) ;;
  match r with
  | Some b => ret b
  | None =>
      if strict then ret false
      else
        modify (with_proxy None) ;;;
        modify (with_session_proxies None) ;;;
        ret true
  end.

(** *** _extract_csrf *)

(** The marker: [_csrf], a double quote, a colon, a double quote. *)
Definition csrf_marker : string := "_csrf" +:+ dq +:+ ":" +:+ dq.

Definition _extract_csrf (html : string) : string :=
  if contains csrf_marker html then
    match split_1 csrf_marker html with
    | Some part => split_0 dq part
    | None => "dummy_csrf_token"
    end
  else "dummy_csrf_token".

(** *** _get_auth_token *)

Definition max_retries : nat := 2.

Definition _get_auth_token_body (email password : string) (attempt : nat)
  : M (ctl pyval) :=
  try_except
    (login_page <- session_get signin_url ;;
     let csrf_token := _extract_csrf (text login_page) in
     response <- session_post login_url (mkPayload email password csrf_token) ;;
     if (status_code response =? 200)%Z then
       try_except
         (data <- response_json response ;;
          token <- py_get data "token" ;;
          ret (Return token))
         (fun e => if is_JSONDecodeError e
                   then Some (ret (Return PyNone)) else None)
     else if ((status_code response =? 403) || (status_code response =? 429))%Z
     then
       s <- get_state ;;
       ok <- _rotate_proxy (use_proxy s) ;;
       if negb ok then ret (Return PyNone) else ret Continue
     else ret (Return PyNone))
    (fun e =>
       if is_RequestException e then
         Some (if (attempt <? max_retries - 1)%nat then
                 s <- get_state ;;
                 ok <- _rotate_proxy (use_proxy s) ;;
                 if negb ok then ret (Return PyNone)
                 else sleep 2 ;;; ret Continue
               else ret (Return PyNone))
       else Some (ret (Return PyNone))).

(** The [for] loop; falling off its end returns [None]. *)
Fixpoint _get_auth_token_loop (email password : string) (attempts : list nat)
  : M pyval :=
  match attempts with
  | [] => ret PyNone
  | attempt :: rest =>
      r <- _get_auth_token_body email password attempt ;;
      match r with
      | Return v => ret v
      | Continue => _get_auth_token_loop email password rest
      end
  end.

Definition _get_auth_token (email password : string) : M pyval :=
  _get_auth_token_loop email password (seq 0 max_retries).

(** *** check_credentials, check_single, check_bulk *)

Definition check_credentials (email password : string) : M bool :=
  token <- _get_auth_token email password ;;
  if truthy token then ret true else ret false.

Definition check_single (email password : string) : M Result :=
  is_valid <- check_credentials email password ;;
  s <- get_state ;;
  let result := mkResult email password is_valid (proxy s) in
  (if is_valid then modify (append_valid result)
   else modify (append_invalid result)) ;;;
  ret result.

(** [cred[k]] *)
Definition subscript (cred : gmap string string) (k : string) : M string :=
  match cred !! k with
  | Some v => ret v
  | None => raise (KeyError k)
  end.

(** The loop of [check_bulk]; the literal [0.7] is the float nearest to
    7/10. *)
Fixpoint check_bulk_loop (credentials : list (gmap string string))
    (results : list Result) : M (list Result) :=
  match credentials with
  | [] => ret results
  | cred :: rest =>
      email <- subscript cred "email" ;;
      password <- subscript cred "password" ;;
      result <- check_single email password ;;
      let results := results ++ [result] in
      s <- get_state ;;
      (if use_proxy s then
         r <- random_random ;;
         if negb (Qle_bool r (binary64 (7 # 10))) then
           _rotate_proxy true ;;; ret tt
         else ret tt
       else ret tt) ;;;
      d <- random_uniform 1 3 ;;
      sleep d ;;;
      check_bulk_loop rest results
  end.

Definition check_bulk (credentials : list (gmap string string))
  : M (list Result) :=
  check_bulk_loop credentials [].

(** [KrogerChecker(use_proxy)]: the state [__init__] leaves; [history] is
    what happened in the world before the object was made. *)
Definition blank (use : bool) (history : list Event) : State :=
  mkState use None None [] [] history.

Definition __init__ (use : bool) (history : list Event) : State :=
  if use then snd (_rotate_proxy true (blank use history))
  else blank use history.

End WithEnv.

End KrogerStrict.

(** ** kroger_checker_final.py *)

Module KrogerFinal.

Import Re.

Definition quote : ascii := "034".

(** The patterns, in the comments with [Q] for the double quote.
    [<meta\s+name=Qcsrf-tokenQ\s+content=Q([^Q]+)Q] *)
Definition meta_tag : regex :=
  cat [Lit "<meta"; Rep Space 1 true;
       Lit ("name=" +:+ dq +:+ "csrf-token" +:+ dq); Rep Space 1 true;
       Lit ("content=" +:+ dq); Group (Rep (Except quote) 1 true); Lit dq].

(** [window\.__PRELOADED_STATE__\s*=\s*\{.*?QcsrfTokenQ:Q([^Q]+)Q] *)
Definition script_state : regex :=
  cat [Lit "window.__PRELOADED_STATE__"; Rep Space 0 true; Lit "=";
       Rep Space 0 true; Lit "{"; Rep Any 0 false;
       Lit (dq +:+ "csrfToken" +:+ dq +:+ ":" +:+ dq);
       Group (Rep (Except quote) 1 true); Lit dq].

(** [<input[^>]+name=Q_csrfQ[^>]+value=Q([^Q]+)Q] *)
Definition hidden_field : regex :=
  cat [Lit "<input"; Rep (Except ">") 1 true;
       Lit ("name=" +:+ dq +:+ "_csrf" +:+ dq); Rep (Except ">") 1 true;
       Lit ("value=" +:+ dq); Group (Rep (Except quote) 1 true); Lit dq].

(** [\QcsrfToken\Q\s*:\s*\Q([^Q]+)\Q] *)
Definition json_key_value : regex :=
  cat [Lit (dq +:+ "csrfToken" +:+ dq); Rep Space 0 true; Lit ":";
       Rep Space 0 true; Lit dq; Group (Rep (Except quote) 1 true); Lit dq].

Definition patterns : list regex :=
  [meta_tag; script_state; hidden_field; json_key_value].

(** The [for pattern in patterns] loop.  [len(None)] on a match without the
    group would raise inside the [try] and give [None]. *)
Fixpoint _extract_csrf_loop (ps : list regex) (html : string) : option string :=
  match ps with
  | [] => None
  | pattern :: rest =>
      match search pattern html with
      | Some (Some token) =>
          if (10 <? String.length token)%nat then Some token
          else _extract_csrf_loop rest html
      | Some None => None
      | None => _extract_csrf_loop rest html
      end
  end.

Definition _extract_csrf (html : string) : option string :=
  _extract_csrf_loop patterns html.

(** The checker object and its primitive interactions are those of the
    strict-proxy file. *)
Section WithEnv.

Variable env : Env.

Definition _rotate_proxy_body (attempt : nat) : KrogerStrict.M (ctl bool) :=
  try_except
    (p <- KrogerStrict.FreeProxy_get env ;;
     modify (KrogerStrict.with_proxy p) ;;;
     if truthy_str p then
       modify (KrogerStrict.with_session_proxies p) ;;;
       try_except
         (test_response <- KrogerStrict.session_get env home_url ;;
          if (status_code test_response =? 200)%Z
          then ret (Return true)
          else ret Continue)
         (fun _ => Some (ret Continue))
     else ret Continue)
    (fun _ => Some (KrogerStrict.sleep 1 ;;; ret Continue)).

Fixpoint _rotate_proxy_loop (attempts : list nat) : KrogerStrict.M (option bool) :=
  match attempts with
  | [] => ret None
  | attempt :: rest =>
      r <- _rotate_proxy_body attempt ;;
      match r with
      | Return b => ret (Some b)
      | Continue => _rotate_proxy_loop rest
      end
  end.

Definition _rotate_proxy (strict : bool) : KrogerStrict.M bool :=
  let max_retries := if strict then 5 else 3 in
  r <- _rotate_proxy_loop (seq 0 max_retries) ;;
  match r with
  | Some b => ret b
  | None =>
      if strict then ret false
      else
        modify (KrogerStrict.with_proxy None) ;;;
        modify (KrogerStrict.with_session_proxies None) ;;;
        ret true
  end.

(** *** _get_auth_token *)

(** [s.lstrip()], [s.rstrip()] and [s.strip()]: white space is what
    [str.isspace] accepts, the class [\s] of the patterns. *)
Fixpoint py_lstrip (s : string) : string :=
  match s with
  | EmptyString => EmptyString
  | String c s' => if is_space c then py_lstrip s' else s
  end.

Fixpoint py_rstrip (s : string) : string :=
  match s with
  | EmptyString => EmptyString
  | String c s' =>
      match py_rstrip s' with
      | EmptyString => if is_space c then EmptyString else String c EmptyString
      | r => String c r
      end
  end.

Definition py_strip (s : string) : string := py_rstrip (py_lstrip s).

(** [isinstance(data, dict)] *)
Definition isinstance_dict (data : pyval) : bool :=
  match data with PyDict _ => true | _ => false end.

(** The exceptions [except ValueError] catches: the JSON decode errors. *)
Definition is_ValueError (e : exn) : bool :=
  match e with
  | RequestsJSONDecodeError | JSONDecodeError => true
  | _ => false
  end.

Definition max_retries : nat := 2.

(** The body of [for attempt in range(max_retries)].  The [if]/[elif] on the
    status code gives [None] where the source falls through to the
    [return None] that follows it. *)
Definition _get_auth_token_body (email password : string) (attempt : nat)
  : KrogerStrict.M (ctl pyval) :=
  try_except
    (login_page <- KrogerStrict.session_get env signin_url ;;
     let csrf_token := _extract_csrf (text login_page) in
     match (if truthy_str csrf_token then csrf_token else None) with
     | None => ret (Return PyNone)
     | Some csrf_token =>
         response <- KrogerStrict.session_post env login_url
                       (mkPayload email password csrf_token) ;;
         r <- (if (status_code response =? 200)%Z then
                 if truthy_str (Some (py_strip (text response))) then
                   try_except
                     (data <- KrogerStrict.response_json response ;;
                      if isinstance_dict data then
                        token <- KrogerStrict.py_get data "token" ;;
                        ret (Some (Return token))
                      else ret None)
                     (fun e => if is_ValueError e then Some (ret None)
                               else None)
                 else ret None
               else if ((status_code response =? 403)
                        || (status_code response =? 429))%Z
               then
                 s <- get_state ;;
                 ok <- _rotate_proxy (KrogerStrict.use_proxy s) ;;
                 if negb ok then ret (Some (Return PyNone))
                 else ret (Some Continue)
               else ret None) ;;
         match r with
         | Some c => ret c
         | None => ret (Return PyNone)
         end
     end)
    (fun e =>
       if is_RequestException e then
         Some (if (attempt <? max_retries - 1)%nat then
                 s <- get_state ;;
                 ok <- _rotate_proxy (KrogerStrict.use_proxy s) ;;
                 if negb ok then ret (Return PyNone)
                 else KrogerStrict.sleep 2 ;;; ret Continue
               else ret (Return PyNone))
       else Some (ret (Return PyNone))).

(** The [for] loop; falling off its end returns [None]. *)
Fixpoint _get_auth_token_loop (email password : string) (attempts : list nat)
  : KrogerStrict.M pyval :=
  match attempts with
  | [] => ret PyNone
  | attempt :: rest =>
      r <- _get_auth_token_body email password attempt ;;
      match r with
      | Return v => ret v
      | Continue => _get_auth_token_loop email password rest
      end
  end.

Definition _get_auth_token (email password : string) : KrogerStrict.M pyval :=
  _get_auth_token_loop email password (seq 0 max_retries).

(** *** check_credentials *)

Definition check_credentials (email password : string) : KrogerStrict.M bool :=
  token <- _get_auth_token email password ;;
  if truthy token then ret true else ret false.

End WithEnv.

End KrogerFinal.

(** ** kroger_checker_browser.py *)

Module KrogerBrowser.

(** What the checker asks of the browser after it has started. *)
Inductive Step : Type :=
| LoadSignin
| FillEmail (email : string)
| FillPassword (password : string)
| ClickSignin
| WaitAccount.

Inductive BEvent : Type :=
| BvStart (answer : exn + unit)
| BvScript (answer : exn + unit)
| BvStep (st : Step) (answer : exn + unit)
| BvSleep (secs : Q)
| BvQuit (answer : exn + unit).

(** The browser as an oracle over the history: starting Chrome, running the
    start-up script, each step of the page, and [quit]. *)
Record Browser : Type := mkBrowser {
  start : list BEvent -> exn + unit;
  script : list BEvent -> exn + unit;
  drive : list BEvent -> Step -> exn + unit;
  quit : list BEvent -> exn + unit
}.

Record Result : Type := mkResult {
  r_email : string;
  r_password : string;
  r_valid : bool
}.

(** [driver] tells whether [self.driver] holds a driver object. *)
Record State : Type := mkState {
  driver : bool;
  valid_creds : list Result;
  invalid_creds : list Result;
  events : list BEvent
}.

Definition log (e : BEvent) (s : State) : State :=
  mkState (driver s) (valid_creds s) (invalid_creds s) (e :: events s).

Definition with_driver (s : State) : State :=
  mkState true (valid_creds s) (invalid_creds s) (events s).

Definition append_valid (r : Result) (s : State) : State :=
  mkState (driver s) (valid_creds s ++ [r]) (invalid_creds s) (events s).

Definition append_invalid (r : Result) (s : State) : State :=
  mkState (driver s) (valid_creds s) (invalid_creds s ++ [r]) (events s).

Definition M : Type -> Type := Exc.M State.

(** [KrogerChecker()] *)
Definition __init__ (history : list BEvent) : State :=
  mkState false [] [] history.

Section WithBrowser.

Variable browser : Browser.

Definition chrome : M unit :=
  fun s => let a := start browser (events s) in (a, log (BvStart a) s).

Definition execute_script : M unit :=
  fun s => let a := script browser (events s) in (a, log (BvScript a) s).

Definition step (st : Step) : M unit :=
  fun s => let a := drive browser (events s) st in (a, log (BvStep st a) s).

Definition driver_quit : M unit :=
  fun s => let a := quit browser (events s) in (a, log (BvQuit a) s).

Definition sleep (secs : Q) : M unit :=
  fun s => (inr tt, log (BvSleep secs) s).

Definition init_browser : M unit :=
  chrome ;;;
  modify with_driver ;;;
  execute_script.

Definition check_credentials (email password : string) : M bool :=
  try_finally
    (try_except
       (init_browser ;;;
        step LoadSignin ;;;
        sleep 2 ;;;
        step (FillEmail email) ;;;
        step (FillPassword password) ;;;
        step ClickSignin ;;;
        try_except
          (step WaitAccount ;;; ret true)
          (fun _ => Some (ret false)))
       (fun _ => Some (ret false)))
    (s <- get_state ;;
     if driver s then driver_quit else ret tt).

Definition check_single (email password : string) : M Result :=
  is_valid <- check_credentials email password ;;
  let result := mkResult email password is_valid in
  (if is_valid then modify (append_valid result)
   else modify (append_invalid result)) ;;;
  ret result.

End WithBrowser.

End KrogerBrowser.

(** ** email_checker_final.py: counting the hits *)

Module EmailChecker.

Inductive ImapEvent : Type :=
| ImSearch (query : string) (answer : exn + (string * list string))
| ImFetchDate (uid : string) (answer : exn + (string * string)).

(** The mailbox as an oracle: [imap.uid('search', None, query)] gives a
    status and the uids of [data[0].split()]; [imap.uid('fetch', uid, ...)]
    gives a status and the decoded, stripped date header.  An answer that
    cannot be unpacked counts as the exception it would raise. [year_of] is
    the year [parsedate_to_datetime] reads, if it reads one. *)
Record Imap : Type := mkImap {
  uid_search : list ImapEvent -> string -> exn + (string * list string);
  uid_fetch_date : list ImapEvent -> string -> exn + (string * string);
  year_of : string -> option Z
}.

(** The flags read from [config.json]. *)
Record Config : Type := mkConfig {
  check_roblox : pyval;
  check_steam : pyval;
  check_discord : pyval;
  check_reddit : pyval;
  check_epicgames : pyval;
  check_riot : pyval;
  check_rockstar : pyval
}.

Definition M : Type -> Type := Exc.M (list ImapEvent).

(** The search key [(FROM Q<address>Q)], [Q] being the double quote. *)
Definition from_query (address : string) : string :=
  "(FROM " +:+ dq +:+ address +:+ dq +:+ ")".

Definition reserved_name : string := "example_check".

(** The test of the loop: [check_name.lower() == reserved_name]. *)
Definition is_reserved (check_name : string) : bool :=
  String.eqb (lower check_name) reserved_name.

(** The configured checks without the reserved ones. *)
Definition without_reserved (items : list (string * pyval))
  : list (string * pyval) :=
  List.filter (fun item => negb (is_reserved (fst item))) items.

(** No count is kept under a reserved name. *)
Definition no_reserved_count (counts : gmap string nat) : Prop :=
  forall name, is_reserved name = true -> counts !! name = None.

Section WithImap.

Variable imap : Imap.

(** Python's [str()], which the f-string applies to the configured address. *)
Variable str_of : pyval -> string.

Definition fetch_emails (query : string) : M (list string) :=
  fun h =>
    let a := uid_search imap h query in
    (inr match a with
         | inr (result, data) => if String.eqb result "OK" then data else []
         | inl _ => []
         end,
     ImSearch query a :: h).

Definition parsedate (date_str : string) : option Z := year_of imap date_str.

(** The year of the message, or [None]. *)
Definition fetch_email_date (uid : string) : M (option Z) :=
  fun h =>
    let a := uid_fetch_date imap h uid in
    (inr match a with
         | inr (result, date_str) =>
             if String.eqb result "OK" then parsedate date_str else None
         | inl _ => None
         end,
     ImFetchDate uid a :: h).

(** [check_info.get(k, default)] *)
Definition py_get_default (v : pyval) (k : string) (default : pyval) : M pyval :=
  match v with
  | PyDict d => ret (match assoc k d with Some x => x | None => default end)
  | _ => raise AttributeError
  end.

(** [check_info[k]] on a dict. *)
Definition py_subscript (v : pyval) (k : string) : M pyval :=
  match v with
  | PyDict d =>
      match assoc k d with
      | Some x => ret x
      | None => raise (KeyError k)
      end
  | _ => raise (RuntimeError "TypeError")
  end.

(** The year of the first message of a list, when its date can be read. *)
Definition year_of_first (uids : list string) (year : option Z) : M (option Z) :=
  match uids with
  | uid :: _ =>
      email_date <- fetch_email_date uid ;;
      match email_date with
      | Some y => ret (Some y)
      | None => ret year
      end
  | [] => ret year
  end.

(** The built-in checks, from [counts = {}] to the loop over the custom
    checks: the counts, the Discord year and the Reddit year. *)
Definition default_checks (cfg : Config)
  : M (gmap string nat * option Z * option Z) :=
  let counts : gmap string nat := ∅ in
  counts <- (if truthy (check_roblox cfg) then
               accounts_data <- fetch_emails (from_query "accounts@roblox.com") ;;
               noreply_data <- fetch_emails (from_query "no-reply@roblox.com") ;;
               ret (<["Roblox" := List.length accounts_data
                                  + List.length noreply_data]> counts)
             else ret counts) ;;
  counts <- (if truthy (check_steam cfg) then
               steam_data <- fetch_emails (from_query "noreply@steampowered.com") ;;
               ret (<["Steam" := List.length steam_data]> counts)
             else ret counts) ;;
  cd <- (if truthy (check_discord cfg) then
           discord_uids <- fetch_emails (from_query "noreply@discord.com") ;;
           year <- year_of_first discord_uids None ;;
           ret (<["Discord" := List.length discord_uids]> counts, year)
         else ret (counts, None)) ;;
  let counts := fst cd in
  let discord_year := snd cd in
  cr <- (if truthy (check_reddit cfg) then
           main_uids <- fetch_emails (from_query "noreply@reddit.com") ;;
           mail_uids <- fetch_emails (from_query "noreply@redditmail.com") ;;
           let counts := <["Reddit" := List.length main_uids
                                       + List.length mail_uids]> counts in
           year <- match mail_uids with
                   | _ :: _ => year_of_first mail_uids None
                   | [] => year_of_first main_uids None
                   end ;;
           ret (counts, year)
         else ret (counts, None)) ;;
  let counts := fst cr in
  let reddit_year := snd cr in
  counts <- (if truthy (check_epicgames cfg) then
               epic_data <- fetch_emails (from_query "help@accts.epicgames.com") ;;
               ret (<["Epic Games" := List.length epic_data]> counts)
             else ret counts) ;;
  counts <- (if truthy (check_riot cfg) then
               riot_data <- fetch_emails
                              (from_query "noreply@mail.accounts.riotgames.com") ;;
               ret (<["Riot" := List.length riot_data]> counts)
             else ret counts) ;;
  counts <- (if truthy (check_rockstar cfg) then
               rockstar_data <- fetch_emails (from_query "noreply@rockstargames.com") ;;
               ret (<["Rockstar" := List.length rockstar_data]> counts)
             else ret counts) ;;
  ret (counts, discord_year, reddit_year).

(** [for check_name, check_info in custom_checks.items()] *)
Fixpoint custom_checks_loop (items : list (string * pyval))
    (counts : gmap string nat) : M (gmap string nat) :=
  match items with
  | [] => ret counts
  | (check_name, check_info) :: rest =>
      if is_reserved check_name
      then custom_checks_loop rest counts
      else
        enabled <- py_get_default check_info "enabled" (PyBool false) ;;
        if truthy enabled then
          address <- py_subscript check_info "email" ;;
          custom_data <- fetch_emails (from_query (str_of address)) ;;
          custom_checks_loop rest (<[check_name := List.length custom_data]> counts)
        else custom_checks_loop rest counts
  end.

(** The counting part of [inboxmail], after the inbox has been selected. *)
Definition count_hits (cfg : Config) (custom_checks : list (string * pyval))
  : M (gmap string nat * option Z * option Z) :=
  r <- default_checks cfg ;;
  counts <- custom_checks_loop custom_checks (fst (fst r)) ;;
  ret (counts, snd (fst r), snd r).

End WithImap.

End EmailChecker.

(** * Observations on the event log *)

Module Obs.

(** One pass of the proxy loop asks the directory for a proxy once. *)
Definition is_acquisition (e : Event) : bool :=
  match e with EvFreeProxy _ => true | _ => false end.

Definition acquisitions (evs : list Event) : nat :=
  List.length (List.filter is_acquisition evs).

(** The health check of a fetched proxy answered 200. *)
Definition health_check_ok (e : Event) : bool :=
  match e with
  | EvRequest r (inr resp) =>
      String.eqb (url r) home_url && (status_code resp =? 200)%Z
  | _ => false
  end.

(** One pass of the login loop starts by fetching the sign-in page. *)
Definition is_attempt (e : Event) : bool :=
  match e with
  | EvRequest r _ => String.eqb (url r) signin_url
  | _ => false
  end.

Definition attempts (evs : list Event) : nat :=
  List.length (List.filter is_attempt evs).

(** Requests of the login flow, as opposed to proxy upkeep and pacing. *)
Definition is_login_traffic (e : Event) : bool :=
  match e with
  | EvRequest r _ =>
      String.eqb (url r) signin_url || String.eqb (url r) login_url
  | _ => false
  end.

(** A body that decodes to a dict whose [token] is truthy. *)
Definition has_token (resp : Response) : bool :=
  match json_body resp with
  | Some (PyDict d) => truthy (dict_get d "token")
  | _ => false
  end.

(** The recognised success signal: the login request answered 200 with a
    truthy token. *)
Definition is_success (e : Event) : bool :=
  match e with
  | EvRequest r (inr resp) =>
      String.eqb (url r) login_url && (status_code resp =? 200)%Z
      && has_token resp
  | _ => false
  end.

(** A clean rejection: the login request answered 200 with a dict that has no
    truthy token. *)
Definition is_rejected (e : Event) : bool :=
  match e with
  | EvRequest r (inr resp) =>
      String.eqb (url r) login_url && (status_code resp =? 200)%Z
      && match json_body resp with
         | Some (PyDict d) => negb (truthy (dict_get d "token"))
         | _ => false
         end
  | _ => false
  end.

(** The login request answered 200, whatever the body. *)
Definition is_login_200 (e : Event) : bool :=
  match e with
  | EvRequest r (inr resp) =>
      String.eqb (url r) login_url && (status_code resp =? 200)%Z
  | _ => false
  end.

(** The login request answered 403 or 429. *)
Definition is_rate_limited (e : Event) : bool :=
  match e with
  | EvRequest r (inr resp) =>
      String.eqb (url r) login_url
      && ((status_code resp =? 403) || (status_code resp =? 429))%Z
  | _ => false
  end.

(** A request of the login flow that raised a [RequestException]. *)
Definition is_transient (e : Event) : bool :=
  match e with
  | EvRequest r (inl x) =>
      (String.eqb (url r) signin_url || String.eqb (url r) login_url)
      && is_RequestException x
  | _ => false
  end.

(** The requests one pass of the login loop sends from state [s]. *)
Definition signin_request (s : KrogerStrict.State) : Request :=
  mkRequest GET signin_url (KrogerStrict.session_proxies s) None.

Definition login_request (s : KrogerStrict.State) (email password : string)
    (page : Response) : Request :=
  mkRequest POST login_url (KrogerStrict.session_proxies s)
    (Some (mkPayload email password (KrogerStrict._extract_csrf (text page)))).

(** The state once the sign-in page, then the login request, was answered. *)
Definition after_signin (s : KrogerStrict.State) (a : exn + Response)
  : KrogerStrict.State :=
  KrogerStrict.log (EvRequest (signin_request s) a) s.

Definition after_login (email password : string) (s : KrogerStrict.State)
    (page : Response) (a : exn + Response) : KrogerStrict.State :=
  KrogerStrict.log (EvRequest (login_request s email password page) a)
      (after_signin s (inr page)).

(** The token a 200 answer carries, [None] when there is none to read. *)
Definition token_of (resp : Response) : pyval :=
  match json_body resp with
  | Some (PyDict d) => dict_get d "token"
  | _ => PyNone
  end.

(** The events logged between two states of one run. *)
Definition fresh (s s' : KrogerStrict.State) : list Event :=
  firstn (List.length (KrogerStrict.events s')
          - List.length (KrogerStrict.events s))
         (KrogerStrict.events s').

(** The pause right before the next interaction: the sleeps at the head of
    the log (newest first). *)
Fixpoint cooldown (evs : list Event) : list Q :=
  match evs with
  | EvSleep q :: rest => q :: cooldown rest
  | _ => []
  end.

(** Every request of the login flow ends in a [RequestException]: the
    sign-in page may load, the login request never gets an answer. *)
Definition transient_only (env : Env) : Prop :=
  forall h r,
    (url r = signin_url ->
     (exists page, send env h r = inr page) \/
     (exists e, send env h r = inl e /\ is_RequestException e = true)) /\
    (url r = login_url ->
     exists e, send env h r = inl e /\ is_RequestException e = true).

(** The token extractor as the specification words it: try the patterns in
    order, keep what each one captures, return the first captured value
    longer than 10 characters. *)
Definition plausible (token : string) : bool :=
  (10 <? String.length token)%nat.

Definition captured (html : string) (pattern : Re.regex) : option string :=
  match Re.search pattern html with
  | Some (Some token) => Some token
  | _ => None
  end.

Definition first_plausible (html : string) : option string :=
  List.find plausible (omap (captured html) KrogerFinal.patterns).

(** [lit in s] *)
Fixpoint occurs (lit s : string) : bool :=
  match Re.strip lit s with
  | Some _ => true
  | None =>
      match s with
      | EmptyString => false
      | String _ s' => occurs lit s'
      end
  end.

(** The tag [<meta name=Qcsrf-tokenQ content=Qabcdef0123456789Q>], [Q] being
    the double quote. *)
Definition meta_example : string :=
  "<meta name=" +:+ dq +:+ "csrf-token" +:+ dq +:+ " content=" +:+ dq
  +:+ "abcdef0123456789" +:+ dq +:+ ">".

(** What a call leaves alone besides the proxy assignment. *)
Definition frame (s s' : KrogerStrict.State) : Prop :=
  KrogerStrict.use_proxy s' = KrogerStrict.use_proxy s /\
  KrogerStrict.valid_creds s' = KrogerStrict.valid_creds s /\
  KrogerStrict.invalid_creds s' = KrogerStrict.invalid_creds s.

(** Events of proxy upkeep and pacing only: nothing of the login flow. *)
Definition upkeep (evs : list Event) : Prop :=
  Forall (fun e => is_login_traffic e = false) evs.

(** The length of the pause: the sum of [cooldown]. *)
Definition pause (evs : list Event) : Q :=
  fold_right Qplus 0%Q (cooldown evs).

End Obs.
Export Obs.

(** * Stub environments *)

Module Stub.

Definition ok_page : Response := mkResponse 200 "<html></html>" None.

Definition token_body (tok : pyval) : Response :=
  mkResponse 200 "{...}" (Some (PyDict [("token", tok)])).

(** No proxy can be had and the network is down. *)
Definition down : Env :=
  mkEnv (fun _ => inl FreeProxyException)
        (fun _ _ => inl ConnectionError)
        (fun _ => 0%Q).

(** The login endpoint always answers 429 and no proxy can be had. *)
Definition limited_no_proxy : Env :=
  mkEnv (fun _ => inl FreeProxyException)
        (fun _ r => if String.eqb (url r) login_url
                    then inr (mkResponse 429 "Too Many Requests" None)
                    else inr ok_page)
        (fun _ => 0%Q).

(** The login endpoint always answers 429; proxies are found and healthy. *)
Definition limited : Env :=
  mkEnv (fun _ => inr (Some "http://10.0.0.1:8080"))
        (fun _ r => if String.eqb (url r) login_url
                    then inr (mkResponse 429 "Too Many Requests" None)
                    else inr ok_page)
        (fun _ => 0%Q).

(** The login endpoint cannot be reached; proxies are found and healthy. *)
Definition flaky : Env :=
  mkEnv (fun _ => inr (Some "http://10.0.0.1:8080"))
        (fun _ r => if String.eqb (url r) login_url
                    then inl ConnectionError
                    else inr ok_page)
        (fun _ => 0%Q).

(** The server accepts [a@x.com] and cleanly rejects everybody else. *)
Definition accepts_a : Env :=
  mkEnv (fun _ => inr (Some "http://10.0.0.1:8080"))
        (fun _ r =>
           match payload r with
           | Some p => if String.eqb (p_email p) "a@x.com"
                       then inr (token_body (PyStr "tok-1"))
                       else inr (token_body PyNone)
           | None => inr ok_page
           end)
        (fun _ => 0%Q).

(** The sign-in page carries a token; the login endpoint answers 200 with a
    body of blanks. *)
Definition blank_200 : Env :=
  mkEnv (fun _ => inr None)
        (fun _ r => if String.eqb (url r) login_url
                    then inr (mkResponse 200 "   "
                                (Some (PyDict [("token", PyStr "tok-1")])))
                    else inr (mkResponse 200 meta_example None))
        (fun _ => 0%Q).

(** A browser in which every step works and the account page shows up. *)
Definition chrome_ok : KrogerBrowser.Browser :=
  KrogerBrowser.mkBrowser (fun _ => inr tt) (fun _ => inr tt)
    (fun _ _ => inr tt) (fun _ => inr tt).

(** A mailbox in which every search finds two messages. *)
Definition two_hits : EmailChecker.Imap :=
  EmailChecker.mkImap (fun _ _ => inr ("OK", ["101"; "102"]))
    (fun _ _ => inr ("OK", "Thu, 04 Mar 2021 10:00:00 +0000"))
    (fun _ => Some 2021%Z).

(** [str()] on the values the stubs use. *)
Definition str_of (v : pyval) : string :=
  match v with PyStr s => s | _ => "None" end.

Definition no_defaults : EmailChecker.Config :=
  EmailChecker.mkConfig (PyBool false) (PyBool false) (PyBool false)
    (PyBool false) (PyBool false) (PyBool false) (PyBool false).

(** A reserved entry that is switched on, next to an ordinary one. *)
Definition custom_checks : list (string * pyval) :=
  [("Example_Check",
    PyDict [("email", PyStr "noreply@example.com"); ("enabled", PyBool true)]);
   ("netflix",
    PyDict [("email", PyStr "info@netflix.com"); ("enabled", PyBool true)])].

(** An input dict with both keys. *)
Definition cred (email password : string) : gmap string string :=
  <["email" := email]> (<["password" := password]> ∅).

Definition two_pairs : list (gmap string string) :=
  [cred "a@x.com" "p1"; cred "b@x.com" "p2"].

End Stub.

(** * The life of a checker object *)

Module Lifecycle.

(** A dict of the input list is a credential pair when it has both keys. *)
Definition is_pair (cred : gmap string string) : Prop :=
  is_Some (cred !! "email") /\ is_Some (cred !! "password").

(** The result reports the pair it was made for. *)
Definition reports (cred : gmap string string) (r : KrogerStrict.Result) : Prop :=
  cred !! "email" = Some (KrogerStrict.r_email r) /\
  cred !! "password" = Some (KrogerStrict.r_password r).

(** The stretches of the log the pairs of a batch added, first pair first,
    put together; the log has the newest event first. *)
Definition batch_log (runs : list (list Event)) : list Event :=
  concat (rev runs).

(** A login request carries the given pair; other events carry nothing. *)
Definition carries (email password : string) (e : Event) : Prop :=
  match e with
  | EvRequest r _ =>
      url r = login_url ->
      exists token, payload r = Some (mkPayload email password token)
  | _ => True
  end.

(** The flag of a result is read off the stretch of the log its pair added:
    it is true exactly when the stretch holds the success signal.  The
    stretch has at most [max_retries] attempts, its login requests carry the
    pair of the result, and it ends with the sleep that follows every
    pair. *)
Definition judged (r : KrogerStrict.Result) (run : list Event) : Prop :=
  KrogerStrict.r_valid r = existsb is_success run /\
  attempts run <= KrogerStrict.max_retries /\
  Forall (carries (KrogerStrict.r_email r) (KrogerStrict.r_password r)) run /\
  exists secs r' rest, run = EvSleep secs :: EvRandom r' :: rest.

(** [reachable env processed s]: the checker can be in state [s] after it was
    constructed and its methods were called any number of times, in any
    order; [processed] lists the results of the pairs checked so far.  A
    [check_bulk] that stops on a dict without the two keys leaves the state
    of the batch over the pairs before that dict, so [reach_bulk] covers it
    as well. *)
Inductive reachable (env : Env) : list KrogerStrict.Result -> KrogerStrict.State -> Prop :=
| reach_init use history :
    reachable env [] (KrogerStrict.__init__ env use history)
| reach_single processed s email password r s' :
    reachable env processed s ->
    KrogerStrict.check_single env email password s = (inr r, s') ->
    reachable env (processed ++ [r]) s'
| reach_bulk processed s credentials results s' :
    reachable env processed s ->
    KrogerStrict.check_bulk env credentials s = (inr results, s') ->
    reachable env (processed ++ results) s'
| reach_rotate processed s strict outcome s' :
    reachable env processed s ->
    KrogerStrict._rotate_proxy env strict s = (outcome, s') ->
    reachable env processed s'.

(** The same for the browser checker, whose only checking method is
    [check_single]. *)
Inductive browser_reachable (b : KrogerBrowser.Browser)
  : list KrogerBrowser.Result -> KrogerBrowser.State -> Prop :=
| breach_init history :
    browser_reachable b [] (KrogerBrowser.__init__ history)
| breach_single processed s email password r s' :
    browser_reachable b processed s ->
    KrogerBrowser.check_single b email password s = (inr r, s') ->
    browser_reachable b (processed ++ [r]) s'
| breach_failed processed s email password e s' :
    browser_reachable b processed s ->
    KrogerBrowser.check_single b email password s = (inl e, s') ->
    browser_reachable b processed s'.

(** The two collections split the processed results by their flag. *)
Definition split_by_flag {R : Type} (flag : R -> bool)
    (processed valid invalid : list R) : Prop :=
  valid = List.filter flag processed /\
  invalid = List.filter (fun r => negb (flag r)) processed.

(** What the two collections are to the processed results: they split them
    by flag, so their lengths add up, no result is in both, and every
    processed result is in the one its flag names. *)
Definition partitioned {R : Type} (flag : R -> bool)
    (processed valid invalid : list R) : Prop :=
  split_by_flag flag processed valid invalid /\
  List.length valid + List.length invalid = List.length processed /\
  (forall r, In r valid -> In r invalid -> False) /\
  (forall r, In r processed ->
             (In r valid /\ flag r = true) \/ (In r invalid /\ flag r = false)).

(** A computation of the browser checker that leaves both collections as
    they are, however it ends. *)
Definition keeps {A : Type} (c : KrogerBrowser.M A) : Prop :=
  forall s x s',
    c s = (x, s') ->
    KrogerBrowser.valid_creds s' = KrogerBrowser.valid_creds s /\
    KrogerBrowser.invalid_creds s' = KrogerBrowser.invalid_creds s.

End Lifecycle.
Export Lifecycle.

(** * The shape of the traffic *)

Module Traffic.

(** What one call of [_rotate_proxy] may log, newest event first: a run of
    passes, each of which is a directory call that raised followed by a pause
    of one second, or a directory call that gave nothing usable, or a
    directory call followed by the health check sent through the proxy it
    gave. *)
Inductive rotation_trace : list Event -> Prop :=
| rt_nil : rotation_trace []
| rt_directory_raised e rest :
    rotation_trace rest ->
    rotation_trace (EvSleep 1 :: EvFreeProxy (inl e) :: rest)
| rt_nothing_usable p rest :
    truthy_str p = false ->
    rotation_trace rest ->
    rotation_trace (EvFreeProxy (inr p) :: rest)
| rt_health_check p a rest :
    truthy_str p = true ->
    rotation_trace rest ->
    rotation_trace
      (EvRequest (mkRequest GET home_url p None) a :: EvFreeProxy (inr p) :: rest).

Definition is_health_check (e : Event) : bool :=
  match e with
  | EvRequest r _ => String.eqb (url r) home_url
  | _ => false
  end.

Definition health_checks (evs : list Event) : nat :=
  List.length (List.filter is_health_check evs).

Definition is_sleep (e : Event) : bool :=
  match e with EvSleep _ => true | _ => false end.

Definition sleeps (evs : list Event) : nat :=
  List.length (List.filter is_sleep evs).

Definition is_random (e : Event) : bool :=
  match e with EvRandom _ => true | _ => false end.

Definition draws (evs : list Event) : nat :=
  List.length (List.filter is_random evs).

(** The stretch of the log of one pair of a batch ends with the pacing: a
    draw [r], then a sleep of [uniform(1, 3)] worked out from [r].  Before
    it the pair drew once when proxies are on, to decide on a rotation, and
    not at all when they are off. *)
Definition paced (use : bool) (run : list Event) : Prop :=
  exists r rest,
    run = EvSleep (KrogerStrict.uniform 1 3 r) :: EvRandom r :: rest /\
    draws rest = (if use then 1 else 0).

(** The value the directory returned last, [default] when it returned
    none. *)
Fixpoint last_fetched (evs : list Event) (default : option string)
  : option string :=
  match evs with
  | [] => default
  | EvFreeProxy (inr p) :: _ => p
  | _ :: rest => last_fetched rest default
  end.

(** The last usable (truthy) value the directory returned. *)
Fixpoint last_usable (evs : list Event) (default : option string)
  : option string :=
  match evs with
  | [] => default
  | EvFreeProxy (inr p) :: rest =>
      if truthy_str p then p else last_usable rest default
  | _ :: rest => last_usable rest default
  end.

(** Every login request in the log comes right after the sign-in page was
    fetched through the same proxies, and carries the given email and
    password with the token extracted from that very page. *)
Fixpoint login_follows_page (extract : string -> string)
    (email password : string) (evs : list Event) : Prop :=
  match evs with
  | [] => True
  | e :: rest =>
      match e with
      | EvRequest r _ =>
          (url r = login_url ->
           exists page,
             List.head rest
             = Some (EvRequest (mkRequest GET signin_url (via r) None)
                       (inr page)) /\
             r = mkRequest POST login_url (via r)
                   (Some (mkPayload email password (extract (text page)))))
      | _ => True
      end /\ login_follows_page extract email password rest
  end.

(** [c] does not occur in [s]. *)
Fixpoint lacks (c : ascii) (s : string) : bool :=
  match s with
  | EmptyString => true
  | String c' s' => negb (Ascii.eqb c c') && lacks c s'
  end.

(** [s.endswith(suf)] *)
Fixpoint ends_with (suf s : string) : bool :=
  String.eqb suf s ||
  match s with
  | EmptyString => false
  | String _ s' => ends_with suf s'
  end.

End Traffic.
Export Traffic.

(** * Counting the requests of the login flow *)

Module LoginTraffic.

Definition is_login (e : Event) : bool :=
  match e with
  | EvRequest r _ => String.eqb (url r) login_url
  | _ => false
  end.

Definition logins (evs : list Event) : nat :=
  List.length (List.filter is_login evs).

(** What the log of a check keeps to: login requests follow their page,
    nothing is drawn at random, and no attempt posts twice. *)
Definition tidy_log (email password : string) (evs : list Event) : Prop :=
  login_follows_page KrogerStrict._extract_csrf email password evs /\
  draws evs = 0 /\ logins evs <= attempts evs.

End LoginTraffic.
Export LoginTraffic.

(** * The traffic of the final checker *)

Module FinalTraffic.

(** [response.text.strip()] is not empty. *)
Definition has_body (resp : Response) : bool :=
  truthy_str (Some (KrogerFinal.py_strip (text resp))).

(** The success signal of the final checker: the login request answered 200
    with a body that is not blank and decodes to a dict whose [token] is
    truthy. *)
Definition is_final_success (e : Event) : bool :=
  match e with
  | EvRequest r (inr resp) =>
      String.eqb (url r) login_url && (status_code resp =? 200)%Z
      && has_body resp && has_token resp
  | _ => false
  end.

(** The token a login request carries. *)
Definition carried_token (e : Event) : option string :=
  match e with
  | EvRequest r _ =>
      if String.eqb (url r) login_url
      then match payload r with Some p => Some (p_csrf p) | None => None end
      else None
  | _ => None
  end.

Definition carried_tokens (evs : list Event) : list string :=
  omap carried_token evs.

(** Longer than 10 characters and free of double quotes. *)
Definition sound_token (t : string) : Prop :=
  10 < String.length t /\ lacks "034" t = true.

(** What the extractor found, the empty string when it found nothing. *)
Definition extracted (html : string) : string :=
  default EmptyString (KrogerFinal._extract_csrf html).

(** Every character of [s] is in the class [k]. *)
Fixpoint all_in (k : Re.cls) (s : string) : bool :=
  match s with
  | EmptyString => true
  | String c s' => Re.in_cls k c && all_in k s'
  end.

(** Every capture group of [r] is a repetition of [[^q]]. *)
Fixpoint groups_except (q : ascii) (r : Re.regex) : bool :=
  match r with
  | Re.Group (Re.Rep (Re.Except c) _ _) => Ascii.eqb c q
  | Re.Group _ => false
  | Re.Seq a b => groups_except q a && groups_except q b
  | _ => true
  end.

(** What the log of a check keeps to: login requests follow their page and
    carry the token extracted from it, that token is sound, nothing is drawn
    at random, and no attempt posts twice. *)
Definition final_log (email password : string) (evs : list Event) : Prop :=
  login_follows_page extracted email password evs /\
  Forall sound_token (carried_tokens evs) /\
  draws evs = 0 /\ logins evs <= attempts evs.

End FinalTraffic.
Export FinalTraffic.


(** * The traffic of the browser checker *)

Module BrowserTraffic.

Import KrogerBrowser.

Definition is_quit (e : BEvent) : bool :=
  match e with BvQuit _ => true | _ => false end.

Definition quits (evs : list BEvent) : nat :=
  List.length (List.filter is_quit evs).

Definition is_pause (e : BEvent) : bool :=
  match e with BvSleep _ => true | _ => false end.

Definition is_started (e : BEvent) : bool :=
  match e with BvStart (inr _) => true | _ => false end.

(** Chrome was started during these events. *)
Definition started (evs : list BEvent) : bool := existsb is_started evs.

Definition is_page_loaded (e : BEvent) : bool :=
  match e with BvStep LoadSignin (inr _) => true | _ => false end.

(** The log of a sign-in that reached the account page, newest event first,
    up to the point where the browser is closed. *)
Definition signed_in (email password : string) : list BEvent :=
  [BvStep WaitAccount (inr tt); BvStep ClickSignin (inr tt);
   BvStep (FillPassword password) (inr tt); BvStep (FillEmail email) (inr tt);
   BvSleep 2; BvStep LoadSignin (inr tt); BvScript (inr tt);
   BvStart (inr tt)].

(** A browser that works until it is told to quit, which fails. *)
Definition quit_fails : Browser :=
  mkBrowser (fun _ => inr tt) (fun _ => inr tt) (fun _ _ => inr tt)
    (fun _ => inl WebDriverException).

End BrowserTraffic.
Export BrowserTraffic.


(** * The custom checks, entry by entry *)

Module CustomChecks.

Import EmailChecker.

(** [check_info.get(Qenabled, False)] is truthy, for a dict. *)
Definition enabled (d : list (string * pyval)) : bool :=
  truthy (match assoc "enabled" d with Some x => x | None => PyBool false end).

(** What stops the loop at an entry, if anything: an entry that is not a
    dict has no [get], an enabled one without address has no [email] key. *)
Definition check_fault (item : string * pyval) : option exn :=
  if is_reserved (fst item) then None
  else match snd item with
       | PyDict d =>
           if enabled d
           then match assoc "email" d with
                | Some _ => None
                | None => Some (KeyError "email")
                end
           else None
       | _ => Some AttributeError
       end.

(** The entry makes the loop search the mailbox. *)
Definition is_active (item : string * pyval) : bool :=
  negb (is_reserved (fst item)) &&
  match snd item with
  | PyDict d => enabled d && bool_decide (is_Some (assoc "email" d))
  | _ => false
  end.

(** The entries the loop gets through: those before the first one that
    stops it. *)
Fixpoint before_fault (items : list (string * pyval))
  : list (string * pyval) :=
  match items with
  | [] => []
  | item :: rest =>
      match check_fault item with
      | Some _ => []
      | None => item :: before_fault rest
      end
  end.

Definition first_fault (items : list (string * pyval)) : option exn :=
  List.head (omap check_fault items).

(** [sends n c]: the computation returns a value, whatever the mailbox
    answers, after at most [n] exchanges with it. *)
Definition sends {A : Type} (n : nat) (c : EmailChecker.M A) : Prop :=
  forall h, exists a new, c h = (inr a, new ++ h) /\ List.length new <= n.

End CustomChecks.
Export CustomChecks.


(** * email_checker_final.py: reaching the mailbox *)

Module ImapConnect.

(** The exceptions the handlers of [connect_imap] tell apart:
    [imaplib.IMAP4.error], [ssl.SSLError], the [UnboundLocalError] of reading
    a local variable that was never assigned, and any other [Exception]. *)
Inductive Fault : Type :=
| Imap4Error
| SSLError
| UnboundLocalError
| OtherError.

Definition is_imap_error (f : Fault) : bool :=
  match f with Imap4Error => true | _ => false end.

Definition is_ssl_error (f : Fault) : bool :=
  match f with SSLError => true | _ => false end.

(** The settings of the SSL context the code touches. *)
Record SslContext : Type := mkSslContext {
  minimum_tls_1_2 : bool;
  check_hostname : bool;
  cert_required : bool
}.

(** [ssl.create_default_context()]: host names and certificates are
    checked. *)
Definition create_default_context : SslContext :=
  mkSslContext false true true.

Inductive CEvent : Type :=
| CvConnect (server : string) (ctx : SslContext) (answer : Fault + unit)
| CvLogin (email password : string) (answer : Fault + (string * string))
| CvAuthenticate (email password : string)
    (answer : Fault + (string * string))
| CvSleep (secs : Q).

(** The mail host as an oracle over the history: opening the connection,
    [imap.login], and the [AUTHENTICATE PLAIN] command with the encoded
    credentials; the last two give a status and a response. *)
Record Mailhost : Type := mkMailhost {
  IMAP4_SSL : list CEvent -> string -> SslContext -> Fault + unit;
  login : list CEvent -> string -> string -> Fault + (string * string);
  authenticate_plain :
    list CEvent -> string -> string -> Fault + (string * string)
}.

(** The local variable [response] (unassigned at first) and the log. *)
Record Frame : Type := mkFrame {
  response : option string;
  events : list CEvent
}.

Definition log (e : CEvent) (st : Frame) : Frame :=
  mkFrame (response st) (e :: events st).

Definition assign_response (r : string) (st : Frame) : Frame :=
  mkFrame (Some r) (events st).

(** The context the code sets up for a server. *)
Definition ssl_context_for (server : string) : SslContext :=
  let ssl_context := create_default_context in
  if contains "outlook" server || contains "office365" server then
    mkSslContext true (check_hostname ssl_context) true
  else if contains "gmail" server then
    mkSslContext (minimum_tls_1_2 ssl_context) true true
  else
    mkSslContext (minimum_tls_1_2 ssl_context) false false.

Section WithHost.

Variable host : Mailhost.

(** The inner [try] with the two ways of logging in: [inr true] when the
    function returns the connection, [inr false] when control reaches the
    statement after the [try], [inl f] when [f] propagates. *)
Definition try_login (email password : string) (st : Frame)
  : (Fault + bool) * Frame :=
  let a := login host (events st) email password in
  let st := log (CvLogin email password a) st in
  match a with
  | inr (result, response) =>
      let st := assign_response response st in
      if String.eqb result "OK" then (inr true, st) else (inr false, st)
  | inl f =>
      if is_imap_error f then
        let a' := authenticate_plain host (events st) email password in
        let st := log (CvAuthenticate email password a') st in
        match a' with
        | inr (result, response) =>
            let st := assign_response response st in
            if String.eqb result "OK" then (inr true, st) else (inr false, st)
        | inl _ => (inr false, st)
        end
      else (inl f, st)
  end.

(** The body of the outer [try]. *)
Definition connect_imap_try (server email password : string) (st : Frame)
  : (Fault + ctl string) * Frame :=
  let ssl_context := ssl_context_for server in
  let a := IMAP4_SSL host (events st) server ssl_context in
  let st := log (CvConnect server ssl_context a) st in
  match a with
  | inl f => (inl f, st)
  | inr _ =>
      match try_login email password st with
      | (inl f, st) => (inl f, st)
      | (inr true, st) => (inr (Return server), st)
      | (inr false, st) =>
          (* logger.error(f"Login failed: {response}") *)
          match response st with
          | None => (inl UnboundLocalError, st)
          | Some _ => (inr Continue, log (CvSleep 3) st)
          end
      end
  end.

(** One pass of [for attempt in range(3)], with the three handlers. *)
Definition connect_imap_body (server email password : string) (attempt : nat)
    (st : Frame) : ctl string * Frame :=
  match connect_imap_try server email password st with
  | (inr c, st) => (c, st)
  | (inl f, st) =>
      if is_imap_error f then (Continue, log (CvSleep 5) st)
      else if is_ssl_error f then (Continue, log (CvSleep 3) st)
      else (Continue, log (CvSleep 3) st)
  end.

Fixpoint connect_imap_loop (server email password : string)
    (attempts : list nat) (st : Frame) : option string * Frame :=
  match attempts with
  | [] => (None, st)
  | attempt :: rest =>
      match connect_imap_body server email password attempt st with
      | (Return imap, st) => (Some imap, st)
      | (Continue, st) => connect_imap_loop server email password rest st
      end
  end.

(** [connect_imap(server, email, password)]: the connection, named by its
    server, or [None]; [history] is what happened before the call. *)
Definition connect_imap (server email password : string)
    (history : list CEvent) : option string * Frame :=
  connect_imap_loop server email password (seq 0 3) (mkFrame None history).

End WithHost.

(** ** The server [inboxmail] turns to *)

(** [s.split(c)] for a one-character separator. *)
Fixpoint split_on (c : ascii) (s : string) : list string :=
  match s with
  | EmptyString => [EmptyString]
  | String a s' =>
      if Ascii.eqb a c then EmptyString :: split_on c s'
      else match split_on c s' with
           | part :: parts => String a part :: parts
           | [] => [String a EmptyString]
           end
  end.

Definition server_mappings : list (string * string) :=
  [("gmail.com", "imap.gmail.com");
   ("outlook.com", "outlook.office365.com");
   ("hotmail.com", "outlook.office365.com");
   ("yahoo.com", "imap.mail.yahoo.com");
   ("aol.com", "imap.aol.com")].

(** [server_mappings.get(domain, default)] *)
Fixpoint mapping_get (domain : string) (mappings : list (string * string))
    (default : string) : string :=
  match mappings with
  | [] => default
  | (k, v) :: rest =>
      if String.eqb domain k then v else mapping_get domain rest default
  end.

(** The start of [inboxmail], up to the list of servers to try: [None] where
    the function returns before it connects. *)
Definition imap_servers (email password : string) : option (list string) :=
  if negb (truthy_str (Some email)) || negb (truthy_str (Some password))
  then None
  else
    let email_parts := split_on "@" email in
    if (List.length email_parts <? 2)%nat then None
    else
      let domain := lower (List.last email_parts EmptyString) in
      Some [mapping_get domain server_mappings ("imap." +:+ domain)].

(** ** Observations *)

Definition is_connect (e : CEvent) : bool :=
  match e with CvConnect _ _ _ => true | _ => false end.

Definition connects (evs : list CEvent) : nat :=
  List.length (List.filter is_connect evs).

Definition is_nap (e : CEvent) : bool :=
  match e with CvSleep _ => true | _ => false end.

Definition naps (evs : list CEvent) : nat :=
  List.length (List.filter is_nap evs).

(** The seconds slept, summed. *)
Fixpoint slept (evs : list CEvent) : Q :=
  match evs with
  | [] => 0
  | CvSleep q :: rest => q + slept rest
  | _ :: rest => slept rest
  end.

(** The status [OK] came back from a login or from the fallback. *)
Definition is_logged_in (e : CEvent) : bool :=
  match e with
  | CvLogin _ _ (inr (result, _)) => String.eqb result "OK"
  | CvAuthenticate _ _ (inr (result, _)) => String.eqb result "OK"
  | _ => false
  end.

(** Every connection of the log goes to [server] with the context set up
    for it, and every login carries the given credentials. *)
Definition addressed (server email password : string) (e : CEvent) : Prop :=
  match e with
  | CvConnect srv ctx _ => srv = server /\ ctx = ssl_context_for server
  | CvLogin em pw _ => em = email /\ pw = password
  | CvAuthenticate em pw _ => em = email /\ pw = password
  | CvSleep q => q = 3%Q \/ q = 5%Q
  end.

(** A host on which nobody can log in. *)
Definition refusing : Mailhost :=
  mkMailhost (fun _ _ _ => inr tt) (fun _ _ _ => inl Imap4Error)
    (fun _ _ _ => inl Imap4Error).

End ImapConnect.


(** * The proxy a result records *)

Module ProxyUse.

Import KrogerStrict.

(** When the checker holds a proxy, its session sends through that proxy. *)
Definition in_step (s : State) : Prop :=
  truthy_str (proxy s) = true -> session_proxies s = proxy s.

(** A computation that leaves the checker in step, however it ends. *)
Definition steady {A : Type} (c : M A) : Prop :=
  forall s x s', c s = (x, s') -> in_step s -> in_step s'.

(** The newest event is a request that was answered with a success signal
    and was sent through the session's proxies. *)
Definition success_on_top (s : State) : Prop :=
  exists req resp rest,
    events s = EvRequest req (inr resp) :: rest /\
    is_success (EvRequest req (inr resp)) = true /\
    via req = session_proxies s.

(** The directory gives one proxy and then nothing; the home page answers
    500, the sign-in page loads and every login is accepted. *)
Definition drying_up : Env :=
  mkEnv (fun h => if existsb is_acquisition h then inr None
                  else inr (Some "http://10.0.0.1:8080"))
        (fun _ r =>
           match payload r with
           | Some _ => inr (Stub.token_body (PyStr "tok-1"))
           | None => if String.eqb (url r) home_url
                     then inr (mkResponse 500 "Internal Server Error" None)
                     else inr Stub.ok_page
           end)
        (fun _ => 0%Q).

End ProxyUse.
Export ProxyUse.


(** * email_checker_final.py: inboxmail as a whole *)

Module Inbox.

Import EmailChecker ImapConnect.

(** ** The counts as Python keeps them

    [counts] is a dict: its items come in the order in which their keys were
    first set.  The files and the report are written in that order, so here
    the dict is the list of its items. *)

(** [counts[k] = v] *)
Fixpoint odict_set (k : string) (v : nat) (d : list (string * nat))
  : list (string * nat) :=
  match d with
  | [] => [(k, v)]
  | (k', v') :: rest =>
      if String.eqb k k' then (k, v) :: rest
      else (k', v') :: odict_set k v rest
  end.

Section Counting.

Variable imap : Imap.
Variable str_of : pyval -> string.

(** The built-in checks, from [counts = {}] on. *)
Definition default_checks_items (cfg : Config)
  : EmailChecker.M (list (string * nat) * option Z * option Z) :=
  let counts : list (string * nat) := [] in
  counts <- (if truthy (check_roblox cfg) then
               accounts_data <- fetch_emails imap (from_query "accounts@roblox.com") ;;
               noreply_data <- fetch_emails imap (from_query "no-reply@roblox.com") ;;
               ret (odict_set "Roblox" (List.length accounts_data
                                        + List.length noreply_data) counts)
             else ret counts) ;;
  counts <- (if truthy (check_steam cfg) then
               steam_data <- fetch_emails imap (from_query "noreply@steampowered.com") ;;
               ret (odict_set "Steam" (List.length steam_data) counts)
             else ret counts) ;;
  cd <- (if truthy (check_discord cfg) then
           discord_uids <- fetch_emails imap (from_query "noreply@discord.com") ;;
           year <- year_of_first imap discord_uids None ;;
           ret (odict_set "Discord" (List.length discord_uids) counts, year)
         else ret (counts, None)) ;;
  let counts := fst cd in
  let discord_year := snd cd in
  cr <- (if truthy (check_reddit cfg) then
           main_uids <- fetch_emails imap (from_query "noreply@reddit.com") ;;
           mail_uids <- fetch_emails imap (from_query "noreply@redditmail.com") ;;
           let counts := odict_set "Reddit" (List.length main_uids
                                             + List.length mail_uids) counts in
           year <- match mail_uids with
                   | _ :: _ => year_of_first imap mail_uids None
                   | [] => year_of_first imap main_uids None
                   end ;;
           ret (counts, year)
         else ret (counts, None)) ;;
  let counts := fst cr in
  let reddit_year := snd cr in
  counts <- (if truthy (check_epicgames cfg) then
               epic_data <- fetch_emails imap (from_query "help@accts.epicgames.com") ;;
               ret (odict_set "Epic Games" (List.length epic_data) counts)
             else ret counts) ;;
  counts <- (if truthy (check_riot cfg) then
               riot_data <- fetch_emails imap
                              (from_query "noreply@mail.accounts.riotgames.com") ;;
               ret (odict_set "Riot" (List.length riot_data) counts)
             else ret counts) ;;
  counts <- (if truthy (check_rockstar cfg) then
               rockstar_data <- fetch_emails imap (from_query "noreply@rockstargames.com") ;;
               ret (odict_set "Rockstar" (List.length rockstar_data) counts)
             else ret counts) ;;
  ret (counts, discord_year, reddit_year).

(** [for check_name, check_info in custom_checks.items()] *)
Fixpoint custom_checks_loop_items (items : list (string * pyval))
    (counts : list (string * nat)) : EmailChecker.M (list (string * nat)) :=
  match items with
  | [] => ret counts
  | (check_name, check_info) :: rest =>
      if is_reserved check_name
      then custom_checks_loop_items rest counts
      else
        enabled <- py_get_default check_info "enabled" (PyBool false) ;;
        if truthy enabled then
          address <- py_subscript check_info "email" ;;
          custom_data <- fetch_emails imap (from_query (str_of address)) ;;
          custom_checks_loop_items rest
            (odict_set check_name (List.length custom_data) counts)
        else custom_checks_loop_items rest counts
  end.

Definition count_hits_items (cfg : Config)
    (custom_checks : list (string * pyval))
  : EmailChecker.M (list (string * nat) * option Z * option Z) :=
  r <- default_checks_items cfg ;;
  counts <- custom_checks_loop_items custom_checks (fst (fst r)) ;;
  ret (counts, snd (fst r), snd r).

End Counting.

(** ** The world around [inboxmail] *)

(** The embed sent to the webhook: its title, its description and the
    name and value of each field (colour, footer and the [inline] flags are
    constants). *)
Record Embed : Type := mkEmbed {
  title : string;
  description : string;
  fields : list (string * string)
}.

Inductive IoEvent : Type :=
| IoSelect (mailbox : string) (answer : exn + (string * string))
| IoExists (path : string) (answer : bool)
| IoMakedirs (path : string) (answer : exn + unit)
| IoAppend (path line : string) (answer : exn + unit)
| IoPost (embed : Embed) (answer : exn + Z)
| IoClose (answer : exn + unit)
| IoLogout (answer : exn + unit).

(** Everything [inboxmail] talks to, each part an oracle over its own
    history: the mail host while connecting, the mailbox while counting, and
    [imap.select], the file system, the webhook, [imap.close] and
    [imap.logout].  Appending a line stands for opening the file, writing and
    closing it; the webhook answers with its status code. *)
Record Outside : Type := mkOutside {
  mailhost : Mailhost;
  mailbox : Imap;
  str : pyval -> string;
  imap_select : list IoEvent -> string -> exn + (string * string);
  path_exists : list IoEvent -> string -> bool;
  makedirs : list IoEvent -> string -> exn + unit;
  append_line : list IoEvent -> string -> string -> exn + unit;
  requests_post : list IoEvent -> Embed -> exn + Z;
  imap_close : list IoEvent -> exn + unit;
  imap_logout : list IoEvent -> exn + unit
}.

Record World : Type := mkWorld {
  connecting : list CEvent;
  counting : list ImapEvent;
  io : list IoEvent
}.

Definition M : Type -> Type := Exc.M World.

Definition io_log (e : IoEvent) (w : World) : World :=
  mkWorld (connecting w) (counting w) (e :: io w).

(** [str(n)] for the numbers of the report. *)
Definition str_nat (n : nat) : string :=
  NilEmpty.string_of_uint (Nat.to_uint n).

Definition str_Z (z : Z) : string :=
  NilEmpty.string_of_int (Z.to_int z).

Definition newline : string := String "010" EmptyString.

(** The truth value of a year variable: [None] and 0 are false. *)
Definition truthy_year (year : option Z) : bool :=
  match year with
  | Some y => negb (y =? 0)%Z
  | None => false
  end.

Definition str_year (year : option Z) : string :=
  match year with
  | Some y => str_Z y
  | None => "None"
  end.

Section WithOutside.

Variable out : Outside.
Variable config : Config.
Variable custom_checks : list (string * pyval).

Definition select (name : string) : M (string * string) :=
  fun w => let a := imap_select out (io w) name in
           (a, io_log (IoSelect name a) w).

Definition os_path_exists (path : string) : M bool :=
  fun w => let a := path_exists out (io w) path in
           (inr a, io_log (IoExists path a) w).

Definition os_makedirs (path : string) : M unit :=
  fun w => let a := makedirs out (io w) path in
           (a, io_log (IoMakedirs path a) w).

Definition append_to (path line : string) : M unit :=
  fun w => let a := append_line out (io w) path line in
           (a, io_log (IoAppend path line a) w).

Definition post (embed : Embed) : M Z :=
  fun w => let a := requests_post out (io w) embed in
           (a, io_log (IoPost embed a) w).

Definition close : M unit :=
  fun w => let a := imap_close out (io w) in (a, io_log (IoClose a) w).

Definition logout : M unit :=
  fun w => let a := imap_logout out (io w) in (a, io_log (IoLogout a) w).

(** [connect_imap(imap_server, email, password)] *)
Definition connect (imap_server email password : string)
  : M (option string) :=
  fun w =>
    let r := connect_imap (mailhost out) imap_server email password
               (connecting w) in
    (inr (fst r), mkWorld (events (snd r)) (counting w) (io w)).

(** The counting, from [counts = {}] to the end of the custom checks. *)
Definition count : M (list (string * nat) * option Z * option Z) :=
  fun w =>
    let r := count_hits_items (mailbox out) (str out) config custom_checks
               (counting w) in
    (fst r, mkWorld (connecting w) (snd r) (io w)).

(** The line written to the file of a service. *)
Definition hits_line (email password : string) (count : nat) : string :=
  email +:+ ":" +:+ password +:+ " | " +:+ str_nat count +:+ " hits"
  +:+ newline.

Definition hits_file (service : string) : string :=
  "Valid Mails/" +:+ service +:+ ".txt".

(** The first [for service, count in counts.items()]. *)
Fixpoint write_hits (email password : string) (items : list (string * nat))
  : M unit :=
  match items with
  | [] => ret tt
  | (service, count) :: rest =>
      (if (0 <? count)%nat
       then append_to (hits_file service) (hits_line email password count)
       else ret tt) ;;;
      write_hits email password rest
  end.

(** The value of the field of a service. *)
Definition field_value (service : string) (count : nat)
    (discord_year reddit_year : option Z) : string :=
  if String.eqb service "Reddit" && truthy_year reddit_year then
    "``" +:+ str_nat count +:+ " Hits (Estimated Year: "
    +:+ str_year reddit_year +:+ ")``"
  else if String.eqb service "Discord" && truthy_year discord_year then
    "``" +:+ str_nat count +:+ " Hits (Estimated Year: "
    +:+ str_year discord_year +:+ ")``"
  else "``" +:+ str_nat count +:+ " Hits``".

(** The second loop over the items, which fills the fields. *)
Fixpoint embed_fields (items : list (string * nat))
    (discord_year reddit_year : option Z) : list (string * string) :=
  match items with
  | [] => []
  | (service, count) :: rest =>
      if (0 <? count)%nat
      then (service, field_value service count discord_year reddit_year)
           :: embed_fields rest discord_year reddit_year
      else embed_fields rest discord_year reddit_year
  end.

(** [any(count > 0 for count in counts.values())] *)
Definition any_hit (items : list (string * nat)) : bool :=
  existsb (fun item => (0 <? snd item)%nat) items.

(** The end of the [try] block: the directory, the files, the webhook. *)
Definition report (email password : string) (counts : list (string * nat))
    (discord_year reddit_year : option Z) : M unit :=
  there <- os_path_exists "Valid Mails" ;;
  (if negb there then os_makedirs "Valid Mails" else ret tt) ;;;
  write_hits email password counts ;;;
  if any_hit counts then
    let embed :=
      mkEmbed "Valid Mail" (email +:+ ":" +:+ password)
        (embed_fields counts discord_year reddit_year) in
    try_except
      (response <- post embed ;; ret tt)
      (fun _ => Some (ret tt))
  else ret tt.

(** The [try] block.  [continue] ends it, and with it the body of the
    loop, once the [finally] block has run. *)
Definition inspect (email password : string) : M unit :=
  selected <- select "inbox" ;;
  if negb (String.eqb (fst selected) "OK") then ret tt
  else
    r <- count ;;
    report email password (fst (fst r)) (snd (fst r)) (snd r).

(** The body of [for imap_server in imap_servers]. *)
Definition visit (imap_server email password : string) : M unit :=
  imap <- connect imap_server email password ;;
  match imap with
  | None => ret tt
  | Some _ =>
      try_finally
        (try_except (inspect email password) (fun _ => Some (ret tt)))
        (try_except (close ;;; logout) (fun _ => Some (ret tt)))
  end.

Fixpoint inboxmail_loop (imap_servers : list string)
    (email password : string) : M unit :=
  match imap_servers with
  | [] => ret tt
  | imap_server :: rest =>
      visit imap_server email password ;;;
      inboxmail_loop rest email password
  end.

Definition inboxmail (email password : string) : M unit :=
  match imap_servers email password with
  | None => ret tt
  | Some servers => inboxmail_loop servers email password
  end.

End WithOutside.

(** ** Observations *)

Definition is_select (e : IoEvent) : bool :=
  match e with IoSelect _ _ => true | _ => false end.

Definition is_close (e : IoEvent) : bool :=
  match e with IoClose _ => true | _ => false end.

Definition is_logout (e : IoEvent) : bool :=
  match e with IoLogout _ => true | _ => false end.

Definition is_post (e : IoEvent) : bool :=
  match e with IoPost _ _ => true | _ => false end.

Definition is_append (e : IoEvent) : bool :=
  match e with IoAppend _ _ _ => true | _ => false end.

(** Events of the reporting: the directory, the files, the webhook. *)
Definition is_report (e : IoEvent) : bool :=
  match e with
  | IoExists _ _ | IoMakedirs _ _ | IoAppend _ _ _ | IoPost _ _ => true
  | _ => false
  end.

Definition count_of (f : IoEvent -> bool) (evs : list IoEvent) : nat :=
  List.length (List.filter f evs).

(** What an event of the reporting has to look like for given counts: a line
    goes to the file of a service that has hits and states their number; the
    post carries the pair and one field for each service that has hits. *)
Definition well_reported (email password : string)
    (counts : list (string * nat)) (e : IoEvent) : Prop :=
  match e with
  | IoAppend path line _ =>
      exists service count,
        In (service, count) counts /\ 0 < count /\
        path = hits_file service /\
        line = hits_line email password count
  | IoPost embed _ =>
      any_hit counts = true /\
      description embed = email +:+ ":" +:+ password /\
      List.map fst (fields embed)
      = List.map fst (List.filter (fun item => (0 <? snd item)%nat) counts)
  | IoExists path _ => path = "Valid Mails"
  | IoMakedirs path _ => path = "Valid Mails"
  | _ => False
  end.

(** The inbox was selected with status [OK]. *)
Definition selected_ok (a : exn + (string * string)) : bool :=
  match a with
  | inr (status, _) => String.eqb status "OK"
  | inl _ => false
  end.

(** The directory could not be made, or a line could not be written. *)
Definition is_failed (e : IoEvent) : bool :=
  match e with
  | IoMakedirs _ (inl _) | IoAppend _ _ (inl _) => true
  | _ => false
  end.

Definition has_hits (item : string * nat) : bool := (0 <? snd item)%nat.

(** How the visit of a connected mailbox ends: [close] raised, or [close]
    worked and [logout] was called. *)
Definition closed_at_the_end (evs : list IoEvent) : Prop :=
  match evs with
  | IoClose (inl _) :: _ => True
  | IoLogout _ :: IoClose (inr _) :: _ => True
  | _ => False
  end.

(** ** Comparing computations *)

(** Two computations over the mailbox end alike: with the same exception or
    with related values, and with the same log. *)
Definition agree {A B : Type} (R : A -> B -> Prop)
    (c1 : EmailChecker.M A) (c2 : EmailChecker.M B) : Prop :=
  forall h,
    match c1 h, c2 h with
    | (inr a, h1), (inr b, h2) => R a b /\ h1 = h2
    | (inl e1, h1), (inl e2, h2) => e1 = e2 /\ h1 = h2
    | _, _ => False
    end.

(** The dict an item list stands for. *)
Definition as_map (d : list (string * nat)) : gmap string nat :=
  list_to_map d.

Definition same_counts
    (r1 : list (string * nat) * option Z * option Z)
    (r2 : gmap string nat * option Z * option Z) : Prop :=
  as_map (fst (fst r1)) = fst (fst r2) /\
  snd (fst r1) = snd (fst r2) /\ snd r1 = snd r2.

(** A host that lets everybody in. *)
Definition welcoming : Mailhost :=
  mkMailhost (fun _ _ _ => inr tt) (fun _ _ _ => inr ("OK", "LOGIN completed"))
    (fun _ _ _ => inl Imap4Error).

(** A world in which everything works: the inbox is selected, the
    directory is missing and can be made, lines are written, the webhook
    answers 204. *)
Definition obliging : Outside :=
  mkOutside welcoming Stub.two_hits Stub.str_of
    (fun _ _ => inr ("OK", "3")) (fun _ _ => false) (fun _ _ => inr tt)
    (fun _ _ _ => inr tt) (fun _ _ => inr 204%Z)
    (fun _ => inr tt) (fun _ => inr tt).

Definition steam_only : Config :=
  mkConfig (PyBool false) (PyBool true) (PyBool false) (PyBool false)
    (PyBool false) (PyBool false) (PyBool false).

End Inbox.


(** * A batch with a malformed entry *)

Module Batch.

(** The key a dict of the input list lacks, [email] before [password]. *)
Definition missing_key (cred : gmap string string) : option string :=
  match cred !! "email" with
  | None => Some "email"
  | Some _ =>
      match cred !! "password" with
      | None => Some "password"
      | Some _ => None
      end
  end.

(** The dicts before the first one that lacks a key. *)
Fixpoint pairs_before (credentials : list (gmap string string))
  : list (gmap string string) :=
  match credentials with
  | [] => []
  | cred :: rest =>
      match missing_key cred with
      | None => cred :: pairs_before rest
      | Some _ => []
      end
  end.

(** The key the first malformed dict lacks. *)
Fixpoint first_gap (credentials : list (gmap string string))
  : option string :=
  match credentials with
  | [] => None
  | cred :: rest =>
      match missing_key cred with
      | None => first_gap rest
      | Some key => Some key
      end
  end.

(** A pair next to a dict that has no password. *)
Definition broken_batch : list (gmap string string) :=
  [Stub.cred "a@x.com" "p1"; <["email" := "b@x.com"]> ∅;
   Stub.cred "c@x.com" "p3"].

End Batch.
Export Batch.


(** * The cost of a check *)

Module Budget.

Definition is_request (e : Event) : bool :=
  match e with EvRequest _ _ => true | _ => false end.

Definition requests (evs : list Event) : nat :=
  List.length (List.filter is_request evs).

(** The seconds slept, summed. *)
Fixpoint time_slept (evs : list Event) : Q :=
  match evs with
  | [] => 0
  | EvSleep q :: rest => q + time_slept rest
  | _ :: rest => time_slept rest
  end.

(** [n] as a number of seconds. *)
Definition seconds (n : nat) : Q := inject_Z (Z.of_nat n).

(** What a stretch of the log costs at most: [cap] calls of the proxy
    directory, [most] requests besides one health check per directory call,
    and [extra] seconds of sleep besides one second per directory call. *)
Definition within (extra : Q) (most cap : nat) (evs : list Event) : Prop :=
  acquisitions evs <= cap /\
  requests evs <= most + acquisitions evs /\
  (time_slept evs <= extra + seconds (acquisitions evs))%Q.

End Budget.
Export Budget.


(** * Proofs *)

Import KrogerStrict.

Lemma frame_trans s1 s2 s3 : frame s1 s2 -> frame s2 s3 -> frame s1 s3.
Proof.
  intros (a1 & a2 & a3) (b1 & b2 & b3).
  repeat split; congruence.
Qed.

Section Rotation.

Variable env : Env.

(** One pass of the proxy loop: it never raises, asks for exactly one proxy,
    and returns [True] exactly when the health check answered 200. *)
Lemma _rotate_proxy_body_spec attempt s :
  exists c new s',
    _rotate_proxy_body env attempt s = (inr c, s') /\
    events s' = new ++ events s /\
    frame s s' /\ upkeep new /\ acquisitions new = 1 /\
    ((c = Return true /\ existsb health_check_ok new = true /\
      truthy_str (proxy s') = true /\ session_proxies s' = proxy s' /\
      cooldown (events s') = [])
     \/ (c = Continue /\ existsb health_check_ok new = false)).
Proof.
  unfold _rotate_proxy_body, try_except, bind, FreeProxy_get, modify.
  destruct (free_proxy env (events s)) as [e | p] eqn:Hfp; simpl.
  - eexists _, [EvSleep 1; EvFreeProxy (inl e)], _. simpl.
    repeat split; auto.
    repeat constructor.
  - destruct (truthy_str p) eqn:Hp; simpl.
    + unfold session_get, session_request; simpl.
      match goal with |- context [send env ?h ?r] =>
        destruct (send env h r) as [e | resp] eqn:Hsend end; simpl.
      * eexists _, [EvRequest _ (inl e); EvFreeProxy (inr p)], _. simpl.
        repeat split; auto. repeat constructor.
      * destruct (status_code resp =? 200)%Z eqn:Hst; simpl.
        -- eexists _, [EvRequest _ (inr resp); EvFreeProxy (inr p)], _. simpl.
           rewrite Hst. repeat split; auto. repeat constructor. left.   
           repeat split; auto.
        -- eexists _, [EvRequest _ (inr resp); EvFreeProxy (inr p)], _. simpl.
           rewrite Hst. repeat split; auto. repeat constructor.
    + eexists _, [EvFreeProxy (inr p)], _. simpl.
      repeat split; auto. repeat constructor.
Qed.

Lemma acquisitions_app a b :
  acquisitions (a ++ b) = acquisitions a + acquisitions b.
Proof. unfold acquisitions. by rewrite List.filter_app, List.length_app. Qed.

Lemma attempts_app a b : attempts (a ++ b) = attempts a + attempts b.
Proof. unfold attempts. by rewrite List.filter_app, List.length_app. Qed.

Lemma upkeep_app a b : upkeep a -> upkeep b -> upkeep (a ++ b).
Proof. unfold upkeep. intros. by apply Forall_app. Qed.

Lemma upkeep_attempts evs : upkeep evs -> attempts evs = 0.
Proof.
  unfold upkeep, attempts. induction 1 as [| e evs He _ IH]; [done |].
  simpl. destruct e as [ | r a | | ]; simpl in *; try done.
  apply orb_false_iff in He as [-> _]. done.
Qed.

(** The proxy loop over any range: it stops at the first pass whose health
    check answers 200, and otherwise makes one pass per element. *)
Lemma _rotate_proxy_loop_spec attempts s :
  exists r new s',
    _rotate_proxy_loop env attempts s = (inr r, s') /\
    events s' = new ++ events s /\
    frame s s' /\ upkeep new /\
    ((r = Some true /\ existsb health_check_ok new = true /\
      acquisitions new <= List.length attempts /\
      truthy_str (proxy s') = true /\ session_proxies s' = proxy s' /\
      cooldown (events s') = [])
     \/ (r = None /\ existsb health_check_ok new = false /\
         acquisitions new = List.length attempts /\
         (attempts = [] -> s' = s))).
Proof.
  revert s. induction attempts as [| attempt rest IH]; intros s.
  - exists None, [], s. simpl. repeat split; auto. constructor.
  - simpl. unfold bind.
    destruct (_rotate_proxy_body_spec attempt s)
      as (c & new1 & s1 & -> & Hev1 & Hf1 & Hu1 & Hn1 & Hc).
    destruct Hc as [(-> & Hok & Hp & Hsp & Hcool) | (-> & Hno)].
    + exists (Some true), new1, s1. repeat split; try apply Hf1; auto.
      left. repeat split; auto. rewrite Hn1. simpl. lia.
    + destruct (IH s1) as (r & new2 & s2 & -> & Hev2 & Hf2 & Hu2 & Hr).
      exists r, (new2 ++ new1), s2.
      split; [done |]. split; [by rewrite Hev2, Hev1, app_assoc |].
      split; [by eapply frame_trans |]. split; [by apply upkeep_app |].
      rewrite existsb_app, acquisitions_app, Hno, Hn1, orb_false_r.
      destruct Hr as [(-> & Hok & Hle & Hrest) | (-> & Hno2 & Heq & _)].
      * left. repeat split; try apply Hrest; auto. simpl; lia.
      * right. repeat split; auto. simpl; lia. done.
Qed.

(** [_rotate_proxy] as a whole. *)
Lemma _rotate_proxy_spec strict s :
  exists ok new s',
    _rotate_proxy env strict s = (inr ok, s') /\
    events s' = new ++ events s /\
    frame s s' /\ upkeep new /\
    acquisitions new <= rotate_max_retries strict /\
    if existsb health_check_ok new
    then ok = true /\ truthy_str (proxy s') = true /\
         session_proxies s' = proxy s' /\ cooldown (events s') = []
    else acquisitions new = rotate_max_retries strict /\
         if strict then ok = false
         else ok = true /\ proxy s' = None /\ session_proxies s' = None.
Proof.
  unfold _rotate_proxy, bind.
  destruct (_rotate_proxy_loop_spec (seq 0 (rotate_max_retries strict)) s)
    as (r & new & s1 & -> & Hev & Hf & Hu & Hr).
  rewrite length_seq in Hr.
  destruct Hr as [(-> & Hok & Hle & Hp & Hsp & Hcool) | (-> & Hno & Heq & _)].
  - exists true, new, s1. rewrite Hok.
    split; [done |]. split; [done |]. split; [done |]. split; [done |].
    split; [lia |]. done.
  - destruct strict.
    + exists false, new, s1. rewrite Hno.
      repeat split; try apply Hf; auto. lia.
    + eexists true, new, _. rewrite Hno. simpl.
      repeat split; try apply Hf; auto. rewrite Heq. done.
Qed.

End Rotation.

#[global] Arguments _rotate_proxy : simpl never.

Section Coordinator.

Variable env : Env.

Lemma upkeep_no_login_200 evs : upkeep evs -> existsb is_login_200 evs = false.
Proof.
  unfold upkeep. induction 1 as [| e evs He _ IH]; [done |].
  simpl. rewrite IH, orb_false_r.
  destruct e as [ | r [ | resp] | | ]; simpl in *; try done.
  apply orb_false_iff in He as [_ ->]. done.
Qed.

Ltac run_body :=
  unfold _get_auth_token_body, try_except, bind, session_get, session_post,
    session_request, get_state, ret, response_json, py_get, raise, sleep,
    modify; simpl.

Ltac call_rotate ok rot s3 Hrot Hev Hf Hu :=
  match goal with
  | |- context [_rotate_proxy env ?b ?st] =>
      destruct (_rotate_proxy_spec env b st)
        as (ok & rot & s3 & Hrot & Hev & Hf & Hu & _);
      rewrite Hrot; simpl
  end.

Ltac solve_events :=
  simpl;
  repeat match goal with H : events _ = _ |- _ => rewrite H end;
  simpl; rewrite <- ?app_assoc; reflexivity.

Ltac solve_frame :=
  repeat match goal with H : frame _ _ |- _ => destruct H as (? & ? & ?) end;
  unfold frame; simpl in *; repeat split; congruence.

Ltac solve_count :=
  rewrite ?attempts_app, ?existsb_app;
  repeat match goal with
         | H : upkeep _ |- _ =>
             rewrite ?(upkeep_attempts _ H), ?(upkeep_no_login_200 _ H)
         end;
  simpl;
  repeat match goal with H : (_ =? _)%Z = _ |- _ => rewrite H end;
  reflexivity.

(** Closes a case in which no 200 was seen. *)
Ltac no_200 new :=
  eexists _, new, _;
  split; [reflexivity |];
  split; [solve_events |];
  split; [solve_frame |];
  split; [solve_count |];
  right; split; [solve_count | eauto].

(** Closes a case in which the login request was answered 200. *)
Ltac got_200 new :=
  eexists _, new, _;
  split; [reflexivity |];
  split; [solve_events |];
  split; [solve_frame |];
  split; [solve_count |];
  left; eexists _, _, _;
  split; [reflexivity |];
  split; [solve_count |];
  split; [solve_count |];
  split; [reflexivity |];
  unfold is_success, has_token; simpl;
  repeat match goal with
         | H : (_ =? _)%Z = _ |- _ => rewrite H
         | H : json_body _ = _ |- _ => rewrite H
         end;
  reflexivity.

(** One pass of the login loop. It never raises and fetches the sign-in page
    once. Either the login request was answered 200, which ends the loop with
    a token that is truthy exactly for a success signal, or no 200 was seen
    and the pass ends without a truthy token. *)
Lemma _get_auth_token_body_spec email password attempt s :
  exists c new s',
    _get_auth_token_body env email password attempt s = (inr c, s') /\
    events s' = new ++ events s /\
    frame s s' /\ attempts new = 1 /\
    ((exists ev g v,
        new = [ev; g] /\ is_login_200 ev = true /\ is_login_200 g = false /\
        c = Return v /\ truthy v = is_success ev)
     \/ (existsb is_login_200 new = false /\
         (c = Continue \/ exists v, c = Return v /\ truthy v = false))).
Proof.
  run_body.
  set (g := mkRequest GET signin_url (session_proxies s) None).
  destruct (send env (events s) g) as [e | page] eqn:Hget; simpl.
  - (* the sign-in page could not be fetched *)
    destruct (is_RequestException e); simpl.
    + destruct (attempt <? 1)%nat; simpl.
      * call_rotate ok rot s3 Hrot Hev Hf Hu.
        destruct ok; simpl.
        -- no_200 ([EvSleep 2] ++ rot ++ [EvRequest g (inl e)]).
        -- no_200 (rot ++ [EvRequest g (inl e)]).
      * no_200 [EvRequest g (inl e)].
    + no_200 [EvRequest g (inl e)].
  - set (p := mkRequest POST login_url (session_proxies s)
                (Some (mkPayload email password (_extract_csrf (text page))))).
    destruct (send env (EvRequest g (inr page) :: events s) p)
      as [e | resp] eqn:Hpost; simpl.
    + (* the login request raised *)
      destruct (is_RequestException e); simpl.
      * destruct (attempt <? 1)%nat; simpl.
        -- call_rotate ok rot s3 Hrot Hev Hf Hu.
           destruct ok; simpl.
           ++ no_200 ([EvSleep 2] ++ rot ++
                      [EvRequest p (inl e); EvRequest g (inr page)]).
           ++ no_200 (rot ++ [EvRequest p (inl e); EvRequest g (inr page)]).
        -- no_200 [EvRequest p (inl e); EvRequest g (inr page)].
      * no_200 [EvRequest p (inl e); EvRequest g (inr page)].
    + destruct (status_code resp =? 200)%Z eqn:H200; simpl.
      * (* answered 200 *)
        destruct (json_body resp) as [[ | b | z | str | l | d] |] eqn:Hjson;
          simpl;
          got_200 [EvRequest p (inr resp); EvRequest g (inr page)].
      * destruct ((status_code resp =? 403) || (status_code resp =? 429))%Z;
          simpl.
        -- (* rate limited *)
           call_rotate ok rot s3 Hrot Hev Hf Hu.
           destruct ok; simpl.
           ++ no_200 (rot ++ [EvRequest p (inr resp); EvRequest g (inr page)]).
           ++ no_200 (rot ++ [EvRequest p (inr resp); EvRequest g (inr page)]).
        -- no_200 [EvRequest p (inr resp); EvRequest g (inr page)].
Qed.

Lemma no_login_200_no_success evs :
  existsb is_login_200 evs = false -> existsb is_success evs = false.
Proof.
  induction evs as [| e evs IH]; [done |]. simpl.
  intros [He Hevs]%orb_false_iff. rewrite (IH Hevs), orb_false_r.
  destruct e as [ | r [ | resp] | | ]; simpl in *; try done.
  by rewrite He.
Qed.

Lemma no_login_200_no_rejected evs :
  existsb is_login_200 evs = false -> existsb is_rejected evs = false.
Proof.
  induction evs as [| e evs IH]; [done |]. simpl.
  intros [He Hevs]%orb_false_iff. rewrite (IH Hevs), orb_false_r.
  destruct e as [ | r [ | resp] | | ]; simpl in *; try done.
  by rewrite He.
Qed.

(** The login loop over any range. It never raises, makes at most one pass
    per element, returns a truthy token exactly when a success signal was
    logged, and a login request answered 200, if any, is the newest event. *)
Lemma _get_auth_token_loop_spec email password atts s :
  exists v new s',
    _get_auth_token_loop env email password atts s = (inr v, s') /\
    events s' = new ++ events s /\
    frame s s' /\ attempts new <= List.length atts /\
    truthy v = existsb is_success new /\
    (existsb is_login_200 new = true ->
     exists ev rest,
       new = ev :: rest /\ is_login_200 ev = true /\
       existsb is_login_200 rest = false).
Proof.
  revert s. induction atts as [| attempt rest IH]; intros s.
  - exists PyNone, [], s. simpl. repeat split; auto. done.
  - simpl. unfold bind.
    destruct (_get_auth_token_body_spec email password attempt s)
      as (c & new1 & s1 & -> & Hev1 & Hf1 & Hn1 & Hc).
    destruct Hc as [(ev & g & v & -> & Hev200 & Hg & -> & Hv)
                   | (Hno & [-> | (v & -> & Hv)])].
    + exists v, [ev; g], s1. simpl.
      split; [done |]. split; [done |]. split; [done |].
      split; [rewrite Hn1; lia |].
      split.
      * rewrite Hv, orb_false_r.
        destruct g as [ | r [ | resp] | | ]; simpl in *; try by rewrite orb_false_r.
        rewrite Hg. simpl. by rewrite orb_false_r.
      * intros _. exists ev, [g]. simpl. by rewrite Hg.
    + destruct (IH s1) as (v & new2 & s2 & -> & Hev2 & Hf2 & Hn2 & Hv & H200).
      exists v, (new2 ++ new1), s2.
      split; [done |]. split; [by rewrite Hev2, Hev1, app_assoc |].
      split; [by eapply frame_trans |].
      split; [rewrite attempts_app; simpl; lia |].
      rewrite !existsb_app, Hno, (no_login_200_no_success _ Hno), !orb_false_r.
      split; [done |].
      intros H. destruct (H200 H) as (ev & rest2 & -> & Hev & Hrest).
      exists ev, (rest2 ++ new1). simpl.
      by rewrite existsb_app, Hrest, Hno.
    + exists v, new1, s1. simpl.
      split; [done |]. split; [done |]. split; [done |].
      split; [lia |].
      rewrite Hno, (no_login_200_no_success _ Hno). by split.
Qed.

(** [check_credentials]: the flag is the truth value of the token. *)
Lemma check_credentials_spec email password s :
  exists valid new s',
    check_credentials env email password s = (inr valid, s') /\
    events s' = new ++ events s /\
    frame s s' /\ attempts new <= max_retries /\
    valid = existsb is_success new /\
    (existsb is_login_200 new = true ->
     exists ev rest,
       new = ev :: rest /\ is_login_200 ev = true /\
       existsb is_login_200 rest = false).
Proof.
  unfold check_credentials, _get_auth_token, bind.
  destruct (_get_auth_token_loop_spec email password (seq 0 max_retries) s)
    as (v & new & s1 & -> & Hev & Hf & Hn & Hv & H200).
  rewrite length_seq in Hn.
  exists (truthy v), new, s1.
  split; [by destruct (truthy v) |]. done.
Qed.

End Coordinator.

#[global] Arguments check_credentials : simpl never.
#[global] Arguments _get_auth_token_body : simpl never.

(** The two files agree on [_rotate_proxy]. *)
Lemma final_rotate_proxy_loop_same env attempts s :
  KrogerFinal._rotate_proxy_loop env attempts s = _rotate_proxy_loop env attempts s.
Proof.
  revert s. induction attempts as [| a rest IH]; intros s; [done |].
  simpl. unfold bind.
  change (KrogerFinal._rotate_proxy_body env a s)
    with (_rotate_proxy_body env a s).
  destruct (_rotate_proxy_body env a s) as [[e | [b |]] s1]; try done.
Qed.

Lemma final_rotate_proxy_same env strict s :
  KrogerFinal._rotate_proxy env strict s = _rotate_proxy env strict s.
Proof.
  unfold KrogerFinal._rotate_proxy, _rotate_proxy, bind.
  change (if strict then 5 else 3) with (rotate_max_retries strict).
  by rewrite final_rotate_proxy_loop_same.
Qed.

(** C6. Proxy acquisition never raises. It asks the directory at most 5
    times in strict mode and at most 3 times otherwise. When no health check
    answered 200 it has used all its tries, and then strict mode returns
    [False] while the other mode clears the proxy and returns [True]. *)
Theorem rotate_proxy_retry_bounds (env : Env) (strict : bool) (s : State) :
  exists ok new s',
    _rotate_proxy env strict s = (inr ok, s') /\
    KrogerFinal._rotate_proxy env strict s = (inr ok, s') /\
    events s' = new ++ events s /\
    rotate_max_retries strict = (if strict then 5 else 3) /\
    acquisitions new <= rotate_max_retries strict /\
    if existsb health_check_ok new
    then ok = true /\ truthy_str (proxy s') = true
    else acquisitions new = rotate_max_retries strict /\
         if strict then ok = false
         else ok = true /\ proxy s' = None /\ session_proxies s' = None.
Proof.
  destruct (_rotate_proxy_spec env strict s)
    as (ok & new & s' & Hrun & Hev & _ & _ & Hle & Hcase).
  exists ok, new, s'.
  split; [done |]. split; [by rewrite final_rotate_proxy_same |].
  split; [done |].
  split; [by destruct strict |]. split; [done |].
  destruct (existsb health_check_ok new); [| done].
  by destruct Hcase as (? & ? & _).
Qed.

(** C2. The flag returned by [check_credentials] is true exactly when a
    success signal was logged during the call, that is, when the login
    request was answered 200 with a body whose token is truthy.  A 200 answer
    whose token is missing, [None] or the empty string gives [False]. *)
Theorem valid_iff_success_signal (env : Env) (email password : string) (s : State) :
  exists valid new s',
    check_credentials env email password s = (inr valid, s') /\
    events s' = new ++ events s /\
    (valid = true <-> Exists (fun e => is_success e = true) new) /\
    (forall req resp d,
        In (EvRequest req (inr resp)) new ->
        url req = login_url ->
        status_code resp = 200%Z ->
        json_body resp = Some (PyDict d) ->
        assoc "token" d = None \/ assoc "token" d = Some PyNone
        \/ assoc "token" d = Some (PyStr EmptyString) ->
        valid = false).
Proof.
  destruct (check_credentials_spec env email password s)
    as (valid & new & s' & Hrun & Hev & _ & _ & Hv & H200).
  exists valid, new, s'.
  split; [done |]. split; [done |]. split.
  - rewrite Hv. split.
    + intros (e & He & Hs)%existsb_exists.
      apply List.Exists_exists. by exists e.
    + intros (e & He & Hs)%List.Exists_exists.
      apply existsb_exists. by exists e.
  - intros req resp d Hin Hurl Hst Hjson Htok.
    assert (Hthis : is_login_200 (EvRequest req (inr resp)) = true).
    { simpl. by rewrite Hurl, Hst. }
    assert (Hsome : existsb is_login_200 new = true).
    { apply existsb_exists. by eexists. }
    destruct (H200 Hsome) as (ev & rest & -> & _ & Hrest).
    rewrite Hv. simpl.
    rewrite (no_login_200_no_success _ Hrest), orb_false_r.
    destruct Hin as [-> | Hin].
    + unfold is_success, has_token. rewrite Hjson. unfold dict_get.
      destruct Htok as [-> | [-> | ->]]; simpl; by rewrite andb_false_r.
    + assert (existsb is_login_200 rest = true) as Habs; [| congruence].
      apply existsb_exists. by eexists.
Qed.

(** ** One pass of the login loop under a given answer *)

Section Passes.

Variable env : Env.
Variables email password : string.

Ltac run_body :=
  unfold _get_auth_token_body, try_except, bind, session_get, session_post,
    session_request, get_state, ret, response_json, py_get, raise, sleep,
    modify; simpl.

Lemma body_200 attempt s page resp :
  send env (events s) (signin_request s) = inr page ->
  send env (events (after_signin s (inr page)))
       (login_request s email password page) = inr resp ->
  status_code resp = 200%Z ->
  _get_auth_token_body env email password attempt s
  = (inr (Return (token_of resp)), after_login email password s page (inr resp)).
Proof.
  unfold after_login, after_signin, signin_request, login_request.
  simpl. intros Hget Hpost Hst. run_body.
  rewrite Hget. simpl. rewrite Hpost. simpl. rewrite Hst. simpl.
  unfold token_of.
  by destruct (json_body resp) as [[ | b | z | str | l | d] |].
Qed.

Lemma body_rate_limited attempt s page resp ok s3 :
  send env (events s) (signin_request s) = inr page ->
  send env (events (after_signin s (inr page)))
       (login_request s email password page) = inr resp ->
  status_code resp = 403%Z \/ status_code resp = 429%Z ->
  _rotate_proxy env (use_proxy s) (after_login email password s page (inr resp)) = (inr ok, s3) ->
  _get_auth_token_body env email password attempt s
  = (inr (if ok then Continue else Return PyNone), s3).
Proof.
  unfold after_login, after_signin, signin_request, login_request.
  simpl. intros Hget Hpost Hst Hrot. run_body.
  rewrite Hget. simpl. rewrite Hpost. simpl.
  destruct Hst as [Hst | Hst]; rewrite Hst; simpl; rewrite Hrot; simpl;
    by destruct ok.
Qed.

Lemma body_signin_raises s e ok s3 :
  send env (events s) (signin_request s) = inl e ->
  is_RequestException e = true ->
  _rotate_proxy env (use_proxy s) (after_signin s (inl e)) = (inr ok, s3) ->
  _get_auth_token_body env email password 0 s
  = (inr (if ok then Continue else Return PyNone),
     if ok then log (EvSleep 2) s3 else s3).
Proof.
  unfold after_signin, signin_request. simpl. intros Hget He Hrot. run_body.
  rewrite Hget. simpl. rewrite He. simpl. rewrite Hrot. simpl.
  by destruct ok.
Qed.

Lemma body_signin_raises_last s e :
  send env (events s) (signin_request s) = inl e ->
  _get_auth_token_body env email password 1 s
  = (inr (Return PyNone), after_signin s (inl e)).
Proof.
  unfold after_signin, signin_request. simpl. intros Hget. run_body.
  rewrite Hget. simpl. by destruct (is_RequestException e).
Qed.

Lemma body_login_raises s page e ok s3 :
  send env (events s) (signin_request s) = inr page ->
  send env (events (after_signin s (inr page)))
       (login_request s email password page) = inl e ->
  is_RequestException e = true ->
  _rotate_proxy env (use_proxy s) (after_login email password s page (inl e)) = (inr ok, s3) ->
  _get_auth_token_body env email password 0 s
  = (inr (if ok then Continue else Return PyNone),
     if ok then log (EvSleep 2) s3 else s3).
Proof.
  unfold after_login, after_signin, signin_request, login_request.
  simpl. intros Hget Hpost He Hrot. run_body.
  rewrite Hget. simpl. rewrite Hpost. simpl. rewrite He. simpl.
  rewrite Hrot. simpl. by destruct ok.
Qed.

Lemma body_login_raises_last s page e :
  send env (events s) (signin_request s) = inr page ->
  send env (events (after_signin s (inr page)))
       (login_request s email password page) = inl e ->
  _get_auth_token_body env email password 1 s
  = (inr (Return PyNone), after_login email password s page (inl e)).
Proof.
  unfold after_login, after_signin, signin_request, login_request.
  simpl. intros Hget Hpost. run_body.
  rewrite Hget. simpl. rewrite Hpost. simpl.
  by destruct (is_RequestException e).
Qed.

(** The whole check when the first pass returns, and when it continues. *)
Lemma check_credentials_one_pass s v s1 :
  _get_auth_token_body env email password 0 s = (inr (Return v), s1) ->
  check_credentials env email password s = (inr (truthy v), s1).
Proof.
  intros H. unfold check_credentials, _get_auth_token, bind. simpl.
  unfold bind. rewrite H. unfold ret. by destruct (truthy v).
Qed.

Lemma check_credentials_two_passes s s1 v s2 :
  _get_auth_token_body env email password 0 s = (inr Continue, s1) ->
  _get_auth_token_body env email password 1 s1 = (inr (Return v), s2) ->
  check_credentials env email password s = (inr (truthy v), s2).
Proof.
  intros H0 H1. unfold check_credentials, _get_auth_token, bind. simpl.
  unfold bind. rewrite H0, H1. unfold ret. by destruct (truthy v).
Qed.

End Passes.

Lemma is_rejected_inv r resp :
  is_rejected (EvRequest r (inr resp)) = true ->
  status_code resp = 200%Z /\ truthy (token_of resp) = false.
Proof.
  simpl. intros [[_ Hst%Z.eqb_eq]%andb_true_iff Hj]%andb_true_iff.
  split; [done |]. unfold token_of.
  destruct (json_body resp) as [[ | b | z | str | l | d] |]; try done.
  by apply negb_true_iff.
Qed.

(** A cleanly rejected pair: one attempt, flag false. *)
Example rejected_pair_single_attempt :
  fst (check_credentials Stub.accepts_a "b@x.com" "p2"
         (__init__ Stub.accepts_a true []))
  = inr false /\
  attempts (fresh (__init__ Stub.accepts_a true [])
              (snd (check_credentials Stub.accepts_a "b@x.com" "p2"
                      (__init__ Stub.accepts_a true []))))
  = 1.
Proof. by vm_compute. Qed.

(** C3. A clean rejection ends the check.  Whenever one is logged it is the
    newest event of the call, so nothing is retried after it, and the flag is
    false.  When the first attempt already meets it, the call consists of
    that one attempt. *)
Theorem rejected_is_terminal (env : Env) (email password : string) (s : State) :
  exists valid new s',
    check_credentials env email password s = (inr valid, s') /\
    events s' = new ++ events s /\
    (existsb is_rejected new = true ->
     valid = false /\
     exists ev rest,
       new = ev :: rest /\ is_rejected ev = true /\
       existsb is_login_200 rest = false) /\
    (forall page resp,
        send env (events s) (signin_request s) = inr page ->
        send env (events (after_signin s (inr page)))
             (login_request s email password page) = inr resp ->
        is_rejected (EvRequest (login_request s email password page) (inr resp))
        = true ->
        valid = false /\
        new = [EvRequest (login_request s email password page) (inr resp);
               EvRequest (signin_request s) (inr page)] /\
        attempts new = 1).
Proof.
  destruct (check_credentials_spec env email password s)
    as (valid & new & s' & Hrun & Hev & _ & _ & Hv & H200).
  exists valid, new, s'.
  split; [done |]. split; [done |]. split.
  - intros Hrej.
    destruct (existsb is_login_200 new) eqn:Hsome.
    + destruct (H200 eq_refl) as (ev & rest & -> & Hev200 & Hrest).
      simpl in Hrej. rewrite (no_login_200_no_rejected _ Hrest) in Hrej.
      rewrite orb_false_r in Hrej.
      split; [| by exists ev, rest].
      rewrite Hv. simpl.
      rewrite (no_login_200_no_success _ Hrest), orb_false_r.
      destruct ev as [ | r [ | resp] | | ]; try done.
      apply is_rejected_inv in Hrej as [_ Htok].
      unfold is_success, has_token. unfold token_of in Htok.
      destruct (json_body resp) as [[ | b | z | str | l | d] |];
        by rewrite ?andb_false_r, ?Htok, ?andb_false_r.
    + by rewrite (no_login_200_no_rejected _ Hsome) in Hrej.
  - intros page resp Hget Hpost Hrej.
    apply is_rejected_inv in Hrej as [Hst Htok].
    pose proof (body_200 env email password 0 s page resp Hget Hpost Hst) as Hb.
    apply check_credentials_one_pass in Hb.
    rewrite Hrun in Hb. injection Hb as -> ->.
    simpl in Hev.
    change (?a :: ?b :: events s) with ([a; b] ++ events s) in Hev.
    apply app_inv_tail in Hev. subst new.
    split; [done |]. split; [done |]. reflexivity.
Qed.

(** C4. When every login request is answered 403 or 429, the checker runs
    with proxies (strict rotation) and strict rotation always fails, the
    check is false after exactly one attempt, below the bound of 2. *)
Theorem rate_limited_strict_aborts (env : Env) (email password : string)
    (s : State)
    (Hstrict : use_proxy s = true)
    (Hget : forall h r, url r = signin_url -> exists page, send env h r = inr page)
    (Hpost : forall h r, url r = login_url ->
             exists resp, send env h r = inr resp /\
                          (status_code resp = 403%Z \/ status_code resp = 429%Z))
    (Hrot : forall st, exists st', _rotate_proxy env true st = (inr false, st')) :
  exists new s',
    check_credentials env email password s = (inr false, s') /\
    events s' = new ++ events s /\
    attempts new = 1 /\ attempts new < max_retries /\ max_retries = 2.
Proof.
  destruct (Hget (events s) (signin_request s) eq_refl) as (page & Hg).
  destruct (Hpost (events (after_signin s (inr page)))
              (login_request s email password page) eq_refl)
    as (resp & Hp & Hst).
  destruct (Hrot (after_login email password s page (inr resp))) as (s3 & Hr).
  pose proof Hr as Hr'. rewrite <- Hstrict in Hr'.
  pose proof (body_rate_limited env email password 0 s page resp false s3
                Hg Hp Hst Hr') as Hb.
  apply check_credentials_one_pass in Hb. simpl in Hb.
  destruct (_rotate_proxy_spec env true (after_login email password s page (inr resp)))
    as (ok & rot & s3' & Hrun & Hev & _ & Hu & _).
  rewrite Hr in Hrun. injection Hrun as <- <-.
  exists (rot ++ [EvRequest (login_request s email password page) (inr resp);
                  EvRequest (signin_request s) (inr page)]), s3.
  split; [done |].
  split; [by rewrite Hev, <- app_assoc |].
  rewrite attempts_app, (upkeep_attempts _ Hu).
  change (attempts [_; _]) with 1. unfold max_retries. lia.
Qed.

Lemma rate_limited_strict_aborts_witness :
  exists new s',
    check_credentials Stub.limited_no_proxy "a@x.com" "p1"
      (__init__ Stub.limited_no_proxy true [])
    = (inr false, s') /\
    events s' = new ++ events (__init__ Stub.limited_no_proxy true []) /\
    attempts new = 1 /\ attempts new < max_retries /\ max_retries = 2.
Proof.
  apply (rate_limited_strict_aborts Stub.limited_no_proxy "a@x.com" "p1"
           (__init__ Stub.limited_no_proxy true [])).
  - reflexivity.
  - intros h r Hr. exists Stub.ok_page. simpl. rewrite Hr. reflexivity.
  - intros h r Hr. eexists. simpl. rewrite Hr. simpl. split; [reflexivity |].
    by right.
  - intros st. eexists. reflexivity.
Defined.

(** ** Passes that end in a request error *)

Section Transient.

Variable env : Env.
Variables email password : string.
Hypothesis Htransient : transient_only env.

(** The last pass: one attempt, no retry. *)
Lemma last_pass_transient s1 :
  exists new2 s2,
    _get_auth_token_body env email password 1 s1 = (inr (Return PyNone), s2) /\
    events s2 = new2 ++ events s1 /\
    attempts new2 = 1 /\ existsb health_check_ok new2 = false.
Proof.
  destruct (Htransient (events s1) (signin_request s1)) as [Hget _].
  destruct (Hget eq_refl) as [(page & Hg) | (e & Hg & He)].
  - destruct (Htransient (events (after_signin s1 (inr page)))
                (login_request s1 email password page)) as [_ Hpost].
    destruct (Hpost eq_refl) as (e & Hp & He).
    eexists [EvRequest (login_request s1 email password page) (inl e);
             EvRequest (signin_request s1) (inr page)], _.
    split; [by apply body_login_raises_last |]. by repeat split.
  - eexists [EvRequest (signin_request s1) (inl e)], _.
    split; [by apply body_signin_raises_last |]. by repeat split.
Qed.

(** The first pass: one attempt, then a rotation whose outcome decides
    whether the loop goes on. *)
Lemma first_pass_transient s :
  exists base rot (ok : bool) s3,
    _get_auth_token_body env email password 0 s
    = (inr (if ok then Continue else Return PyNone),
       if ok then log (EvSleep 2) s3 else s3) /\
    events s3 = rot ++ base ++ events s /\
    attempts base = 1 /\ existsb health_check_ok base = false /\
    upkeep rot /\
    ok = negb (use_proxy s) || existsb health_check_ok rot.
Proof.
  assert (Hok : forall sb ok rot s3,
             (if existsb health_check_ok rot
              then ok = true /\ truthy_str (proxy s3) = true /\
                   session_proxies s3 = proxy s3 /\ cooldown (events s3) = []
              else acquisitions rot = rotate_max_retries (use_proxy sb) /\
                   if use_proxy sb then ok = false
                   else ok = true /\ proxy s3 = None /\ session_proxies s3 = None) ->
             ok = negb (use_proxy sb) || existsb health_check_ok rot).
  { intros sb ok rot s3 H.
    destruct (existsb health_check_ok rot); [by rewrite orb_true_r; apply H |].
    destruct H as [_ H]. destruct (use_proxy sb); [done | apply H]. }
  destruct (Htransient (events s) (signin_request s)) as [Hget _].
  destruct (Hget eq_refl) as [(page & Hg) | (e & Hg & He)].
  - destruct (Htransient (events (after_signin s (inr page)))
                (login_request s email password page)) as [_ Hpost].
    destruct (Hpost eq_refl) as (e & Hp & He).
    destruct (_rotate_proxy_spec env (use_proxy s)
                (after_login email password s page (inl e)))
      as (ok & rot & s3 & Hrun & Hev & _ & Hu & _ & Hcase).
    exists [EvRequest (login_request s email password page) (inl e);
            EvRequest (signin_request s) (inr page)], rot, ok, s3.
    split; [by eapply body_login_raises |].
    split; [done |]. split; [done |]. split; [done |]. split; [done |].
    by eapply (Hok s).
  - destruct (_rotate_proxy_spec env (use_proxy s) (after_signin s (inl e)))
      as (ok & rot & s3 & Hrun & Hev & _ & Hu & _ & Hcase).
    exists [EvRequest (signin_request s) (inl e)], rot, ok, s3.
    split; [by eapply body_signin_raises |].
    split; [done |]. split; [done |]. split; [done |]. split; [done |].
    by eapply (Hok s).
Qed.

End Transient.

(** C5, as the code has it. When every attempt ends in a request error the
    check is false and never makes more than 2 attempts. It makes exactly 2
    when the rotation after the first failure lets it go on, which is always
    so without proxies, and needs a healthy proxy with them; otherwise the
    check stops after 1 attempt. *)
Theorem transient_attempts_bounded (env : Env) (email password : string)
    (s : State) (Htransient : transient_only env) :
  exists new s',
    check_credentials env email password s = (inr false, s') /\
    events s' = new ++ events s /\
    attempts new
    = (if negb (use_proxy s) || existsb health_check_ok new then 2 else 1) /\
    attempts new <= max_retries /\ max_retries = 2.
Proof.
  destruct (first_pass_transient env email password Htransient s)
    as (base & rot & ok & s3 & Hb & Hev & Hn & Hh & Hu & Hok).
  destruct ok.
  - destruct (last_pass_transient env email password Htransient
                (log (EvSleep 2) s3))
      as (new2 & s2 & Hb2 & Hev2 & Hn2 & Hh2).
    exists (new2 ++ [EvSleep 2] ++ rot ++ base), s2.
    split; [exact (check_credentials_two_passes env email password
                     s _ PyNone s2 Hb Hb2) |].
    split.
    { rewrite Hev2. simpl. rewrite Hev.
      rewrite <- app_assoc. simpl. by rewrite <- app_assoc. }
    rewrite !existsb_app, Hh2, Hh, !attempts_app, Hn2, Hn,
      (upkeep_attempts _ Hu). simpl. rewrite orb_false_r, <- Hok.
    unfold max_retries. by repeat split.
  - exists (rot ++ base), s3.
    split; [exact (check_credentials_one_pass env email password
                     s PyNone s3 Hb) |].
    split; [by rewrite Hev, app_assoc |].
    rewrite !existsb_app, Hh, !attempts_app, Hn, (upkeep_attempts _ Hu).
    rewrite orb_false_r, <- Hok. unfold max_retries. simpl.
    split; [done |]. split; [lia | done].
Qed.

(** With a healthy proxy at hand the second attempt is made. *)
Example transient_with_proxy_two_attempts :
  fst (check_credentials Stub.flaky "a@x.com" "p1"
         (__init__ Stub.flaky true []))
  = inr false /\
  attempts (fresh (__init__ Stub.flaky true [])
              (snd (check_credentials Stub.flaky "a@x.com" "p1"
                      (__init__ Stub.flaky true []))))
  = 2.
Proof. by vm_compute. Qed.

Lemma transient_only_down : transient_only Stub.down.
Proof.
  intros h r. split; intros _; [right |]; by exists ConnectionError.
Qed.

Lemma transient_attempts_bounded_witness :
  exists new s',
    check_credentials Stub.down "a@x.com" "p1" (__init__ Stub.down false [])
    = (inr false, s') /\
    events s' = new ++ events (__init__ Stub.down false []) /\
    attempts new
    = (if negb (use_proxy (__init__ Stub.down false []))
          || existsb health_check_ok new
       then 2 else 1) /\
    attempts new <= max_retries /\ max_retries = 2.
Proof.
  apply (transient_attempts_bounded Stub.down "a@x.com" "p1"
           (__init__ Stub.down false [])).
  exact transient_only_down.
Defined.

(** C5 as stated fails: with proxies on, no proxy to be had and the network
    down, every attempt ends in a request error, yet the check stops after
    one attempt, not two. *)
Lemma transient_strict_stops_early :
  transient_only Stub.down /\
  use_proxy (__init__ Stub.down true []) = true /\
  fst (check_credentials Stub.down "a@x.com" "p1" (__init__ Stub.down true []))
  = inr false /\
  attempts (fresh (__init__ Stub.down true [])
              (snd (check_credentials Stub.down "a@x.com" "p1"
                      (__init__ Stub.down true []))))
  = 1 /\
  max_retries = 2.
Proof.
  split; [exact transient_only_down |]. by vm_compute.
Qed.

(** ** Passes that ask for another pass *)

Section Continue.

Variable env : Env.
Variables email password : string.

Ltac run_body :=
  unfold _get_auth_token_body, try_except, bind, session_get, session_post,
    session_request, get_state, ret, response_json, py_get, raise, sleep,
    modify; simpl.

Ltac call_rotate ok rot s3 Hrot Hev Hu :=
  match goal with
  | |- context [_rotate_proxy env ?b ?st] =>
      destruct (_rotate_proxy_spec env b st)
        as (ok & rot & s3 & Hrot & Hev & _ & Hu & _);
      rewrite Hrot; simpl
  end.

(** A pass asks for another one only after a rotation that returned [True],
    and in two ways: after a 403 or 429 answer it hands over the state the
    rotation left; after a request error it first sleeps 2 seconds. *)
Lemma body_continue_spec attempt s s' :
  _get_auth_token_body env email password attempt s = (inr Continue, s') ->
  exists base sb s3,
    events sb = base ++ events s /\ attempts base = 1 /\
    _rotate_proxy env (use_proxy s) sb = (inr true, s3) /\
    ((existsb is_rate_limited base = true /\ s' = s3)
     \/ (existsb is_transient base = true /\ s' = log (EvSleep 2) s3)).
Proof.
  run_body.
  set (g := mkRequest GET signin_url (session_proxies s) None).
  destruct (send env (events s) g) as [e | page] eqn:Hget; simpl.
  - destruct (is_RequestException e) eqn:He; simpl; [| done].
    destruct (attempt <? 1)%nat; simpl; [| done].
    call_rotate ok rot s3 Hrot Hev Hu.
    destruct ok; simpl; [| done].
    intros [= <-].
    exists [EvRequest g (inl e)], (log (EvRequest g (inl e)) s), s3.
    split; [reflexivity |]. split; [reflexivity |]. split; [exact Hrot |].
    right. simpl. by rewrite He.
  - set (p := mkRequest POST login_url (session_proxies s)
                (Some (mkPayload email password (_extract_csrf (text page))))).
    destruct (send env (EvRequest g (inr page) :: events s) p)
      as [e | resp] eqn:Hpost; simpl.
    + destruct (is_RequestException e) eqn:He; simpl; [| done].
      destruct (attempt <? 1)%nat; simpl; [| done].
      call_rotate ok rot s3 Hrot Hev Hu.
      destruct ok; simpl; [| done].
      intros [= <-].
      exists [EvRequest p (inl e); EvRequest g (inr page)],
        (log (EvRequest p (inl e)) (log (EvRequest g (inr page)) s)), s3.
      split; [reflexivity |]. split; [reflexivity |]. split; [exact Hrot |].
      right. simpl. by rewrite He.
    + destruct (status_code resp =? 200)%Z eqn:H200; simpl.
      * by destruct (json_body resp) as [[ | b | z | str | l | d] |].
      * destruct ((status_code resp =? 403) || (status_code resp =? 429))%Z
          eqn:Hlim; simpl; [| done].
        call_rotate ok rot s3 Hrot Hev Hu.
        destruct ok; simpl; [| done].
        intros [= <-].
        exists [EvRequest p (inr resp); EvRequest g (inr page)],
          (log (EvRequest p (inr resp)) (log (EvRequest g (inr page)) s)), s3.
        split; [reflexivity |]. split; [reflexivity |]. split; [exact Hrot |].
        left. simpl. by rewrite Hlim.
Qed.

End Continue.

(** C8, as the code has it. A pass that goes on after a 403 or 429 answer
    adds no pause of its own: the next pass starts in the very state the
    rotation left. A pass that goes on after a request error sleeps 2 seconds
    on top of that, so the pause after a rate limit is the shorter one. *)
Theorem rate_limit_retry_adds_no_pause (env : Env) (email password : string)
    (attempt : nat) (s s' : State)
    (Hcont : _get_auth_token_body env email password attempt s
             = (inr Continue, s')) :
  exists base sb s3,
    events sb = base ++ events s /\ attempts base = 1 /\
    _rotate_proxy env (use_proxy s) sb = (inr true, s3) /\
    ((existsb is_rate_limited base = true /\
      s' = s3 /\ cooldown (events s') = cooldown (events s3))
     \/ (existsb is_transient base = true /\
         s' = log (EvSleep 2) s3 /\
         cooldown (events s') = 2%Q :: cooldown (events s3))).
Proof.
  destruct (body_continue_spec env email password attempt s s' Hcont)
    as (base & sb & s3 & Hev & Hn & Hrot & [[Hl ->] | [Ht ->]]);
    exists base, sb, s3; repeat split; auto.
Qed.

Lemma rate_limit_retry_adds_no_pause_witness :
  exists base sb s3,
    events sb = base ++ events (__init__ Stub.limited true []) /\
    attempts base = 1 /\
    _rotate_proxy Stub.limited (use_proxy (__init__ Stub.limited true [])) sb
    = (inr true, s3) /\
    ((existsb is_rate_limited base = true /\
      snd (_get_auth_token_body Stub.limited "a@x.com" "p1" 0 (__init__ Stub.limited true []))
      = s3 /\
      cooldown (events (snd (_get_auth_token_body Stub.limited "a@x.com" "p1"
                               0 (__init__ Stub.limited true []))))
      = cooldown (events s3))
     \/ (existsb is_transient base = true /\
         snd (_get_auth_token_body Stub.limited "a@x.com" "p1" 0 (__init__ Stub.limited true []))
         = log (EvSleep 2) s3 /\
         cooldown (events (snd (_get_auth_token_body Stub.limited "a@x.com"
                                  "p1" 0 (__init__ Stub.limited true []))))
         = 2%Q :: cooldown (events s3))).
Proof.
  apply (rate_limit_retry_adds_no_pause Stub.limited "a@x.com" "p1" 0
           (__init__ Stub.limited true [])).
  vm_compute. reflexivity.
Defined.

(** C8 as stated fails: against a server that rate-limits, with a healthy
    proxy at hand, the first pass goes on without any pause, while the same
    pass against an unreachable server goes on after a pause of 2 seconds. *)
Lemma rate_limit_pause_is_shorter :
  fst (_get_auth_token_body Stub.limited "a@x.com" "p1" 0 (__init__ Stub.limited true []))
  = inr Continue /\
  fst (_get_auth_token_body Stub.flaky "a@x.com" "p1" 0 (__init__ Stub.flaky true []))
  = inr Continue /\
  cooldown (events (snd (_get_auth_token_body Stub.limited "a@x.com" "p1" 0
                           (__init__ Stub.limited true [])))) = [] /\
  cooldown (events (snd (_get_auth_token_body Stub.flaky "a@x.com" "p1" 0
                           (__init__ Stub.flaky true [])))) = [2%Q] /\
  (pause (events (snd (_get_auth_token_body Stub.limited "a@x.com" "p1" 0
                         (__init__ Stub.limited true []))))
   < pause (events (snd (_get_auth_token_body Stub.flaky "a@x.com" "p1" 0
                           (__init__ Stub.flaky true [])))))%Q.
Proof. by vm_compute. Qed.

(** ** check_single and check_bulk *)

Section Bulk.

Variable env : Env.

Lemma check_single_spec email password s :
  exists valid new s',
    check_single env email password s
    = (inr (mkResult email password valid (proxy s')), s') /\
    events s' = new ++ events s /\
    use_proxy s' = use_proxy s /\
    valid = existsb is_success new /\
    if valid
    then valid_creds s' = valid_creds s
                          ++ [mkResult email password valid (proxy s')] /\
         invalid_creds s' = invalid_creds s
    else valid_creds s' = valid_creds s /\
         invalid_creds s' = invalid_creds s
                            ++ [mkResult email password valid (proxy s')].
Proof.
  destruct (check_credentials_spec env email password s)
    as (valid & new & s1 & Hrun & Hev & (Hu & Hv & Hi) & _ & Hval & _).
  unfold check_single, bind. rewrite Hrun. unfold get_state, modify, ret.
  destruct valid.
  - exists true, new,
      (append_valid (mkResult email password true (proxy s1)) s1). simpl.
    split; [reflexivity |]. rewrite Hv, Hi. by repeat split.
  - exists false, new,
      (append_invalid (mkResult email password false (proxy s1)) s1). simpl.
    split; [reflexivity |]. rewrite Hv, Hi. by repeat split.
Qed.

(** The batch loop on any list of dicts.  The pause between two pairs never
    raises and leaves the collections alone; the only exception that can
    leave the loop is the [KeyError] of a dict that is not a pair, and the
    results of the pairs before it are already in the collections. *)
Lemma check_bulk_loop_spec credentials results s :
  exists x more s',
    check_bulk_loop env credentials results s = (x, s') /\
    use_proxy s' = use_proxy s /\
    valid_creds s' = valid_creds s ++ List.filter r_valid more /\
    invalid_creds s'
    = invalid_creds s ++ List.filter (fun r => negb (r_valid r)) more /\
    ((x = inr (results ++ more) /\ Forall2 reports credentials more)
     \/ (exists k, x = inl (KeyError k)) /\ ~ Forall is_pair credentials).
Proof.
  revert results s.
  induction credentials as [| cred rest IH]; intros results s.
  - exists (inr results), [], s. simpl. rewrite !app_nil_r.
    split; [done |]. split; [done |]. split; [done |]. split; [done |].
    left. by split.
  - simpl. unfold bind at 1. unfold subscript at 1.
    destruct (cred !! "email") as [e |] eqn:He.
    2:{ exists (inl (KeyError "email")), [], s. simpl. rewrite !app_nil_r.
        split; [done |]. split; [done |]. split; [done |]. split; [done |].
        right. split; [by eexists |].
        intros Hall. inversion Hall as [| ? ? [[? Hsome] _] _]. congruence. }
    unfold ret at 1. unfold bind at 1. unfold subscript at 1.
    destruct (cred !! "password") as [pw |] eqn:Hpw.
    2:{ exists (inl (KeyError "password")), [], s. simpl. rewrite !app_nil_r.
        split; [done |]. split; [done |]. split; [done |]. split; [done |].
        right. split; [by eexists |].
        intros Hall. inversion Hall as [| ? ? [_ [? Hsome]] _]. congruence. }
    unfold ret at 1. unfold bind at 1.
    destruct (check_single_spec e pw s)
      as (valid & new & s1 & -> & Hev & Hup & _ & Hcol).
    set (r := mkResult e pw valid (proxy s1)) in *.
    unfold bind at 1. unfold get_state at 1.
    assert (Hpace : exists s2,
               (if use_proxy s1
                then bind (random_random env)
                       (fun q => if negb (Qle_bool q (binary64 (7 # 10)))
                                 then bind (_rotate_proxy env true)
                                        (fun _ => ret tt)
                                 else ret tt)
                else ret tt) s1 = (inr tt, s2) /\ frame s1 s2).
    { destruct (use_proxy s1); [| by exists s1].
      unfold bind, random_random. simpl.
      destruct (negb _).
      - match goal with |- context [_rotate_proxy env true ?st] =>
          destruct (_rotate_proxy_spec env true st)
            as (ok & rot & s2 & -> & _ & Hf & _) end.
        exists s2. split; [done |].
        destruct Hf as (? & ? & ?). by repeat split.
      - eexists. split; [reflexivity |]. by repeat split. }
    destruct Hpace as (s2 & Hpace & Hu2 & Hv2 & Hi2).
    unfold bind at 1. rewrite Hpace.
    unfold bind at 1. unfold random_uniform, random_random, bind at 1. simpl.
    unfold bind at 1. unfold sleep at 1.
    match goal with |- context [check_bulk_loop env rest ?rs ?st] =>
      destruct (IH rs st) as (x & more & s3 & -> & Hu3 & Hv3 & Hi3 & Hx) end.
    exists x, (r :: more), s3. simpl in *.
    split; [done |].
    split; [congruence |].
    split.
    { rewrite Hv3, Hv2. subst r. simpl.
      destruct valid; destruct Hcol as [Hc1 Hc2]; rewrite Hc1; simpl;
        by rewrite <- ?app_assoc. }
    split.
    { rewrite Hi3, Hi2. subst r. simpl.
      destruct valid; destruct Hcol as [Hc1 Hc2]; rewrite Hc2; simpl;
        by rewrite <- ?app_assoc. }
    destruct Hx as [[-> Hrep] | [Hk Hnot]].
    + left. split; [by rewrite <- app_assoc |]. by constructor.
    + right. split; [done |]. intros Hall. apply Hnot.
      by inversion Hall.
Qed.

Lemma batch_log_cons run runs : batch_log (run :: runs) = batch_log runs ++ run.
Proof.
  unfold batch_log. simpl. by rewrite concat_app, (concat_cons run []), !app_nil_r.
Qed.

(** A batch that stops on a dict that is not a pair leaves the state of the
    batch over the pairs before it. *)
Lemma check_bulk_loop_failure_is_prefix credentials :
  forall results s e s',
    check_bulk_loop env credentials results s = (inl e, s') ->
    exists k done,
      check_bulk_loop env (firstn k credentials) results s = (inr done, s').
Proof.
  induction credentials as [| cred rest IH]; intros results s e s'; [done |].
  cbn [check_bulk_loop].
  destruct (cred !! "email") as [em |] eqn:He.
  2:{ unfold bind at 1. unfold subscript at 1. rewrite He.
      intros [= <- <-]. by exists 0, results. }
  destruct (cred !! "password") as [pw |] eqn:Hpw.
  2:{ unfold bind at 1. unfold subscript at 1. rewrite He. unfold ret at 1.
      unfold bind at 1. unfold subscript at 1. rewrite Hpw.
      intros [= <- <-]. by exists 0, results. }
  intros Hrun.
  assert (Hstep : exists r s3,
             forall (k : list Result -> M (list Result)),
               (email <- subscript cred "email" ;;
                password <- subscript cred "password" ;;
                result <- check_single env email password ;;
                st <- get_state ;;
                (if use_proxy st then
                   q <- random_random env ;;
                   if negb (Qle_bool q (binary64 (7 # 10))) then
                     _rotate_proxy env true ;;; ret tt
                   else ret tt
                 else ret tt) ;;;
                d <- random_uniform env 1 3 ;;
                sleep d ;;;
                k (results ++ [result])) s
               = k (results ++ [r]) s3).
  { unfold bind at 1. unfold subscript at 1. rewrite He.
    unfold ret at 1. unfold bind at 1. unfold subscript at 1. rewrite Hpw.
    unfold ret at 1. unfold bind at 1.
    destruct (check_single_spec em pw s)
      as (valid & new & s1 & -> & _).
    unfold bind at 1. unfold get_state at 1.
    assert (Hpace : exists s2,
               (if use_proxy s1
                then bind (random_random env)
                       (fun q => if negb (Qle_bool q (binary64 (7 # 10)))
                                 then bind (_rotate_proxy env true)
                                        (fun _ => ret tt)
                                 else ret tt)
                else ret tt) s1 = (inr tt, s2)).
    { destruct (use_proxy s1); [| by exists s1].
      unfold bind, random_random. simpl.
      destruct (negb _).
      - match goal with |- context [_rotate_proxy env true ?st] =>
          destruct (_rotate_proxy_spec env true st)
            as (ok & rot & s2 & -> & _) end.
        by exists s2.
      - by eexists. }
    destruct Hpace as (s2 & Hpace).
    eexists _, _. intros k.
    unfold bind at 1. rewrite Hpace.
    unfold bind at 1. unfold random_uniform, random_random, bind at 1. simpl.
    unfold bind at 1. unfold sleep at 1. reflexivity. }
  destruct Hstep as (r & s3 & Hstep).
  cbv zeta in Hrun. rewrite (Hstep (check_bulk_loop env rest)) in Hrun.
  destruct (IH _ _ _ _ Hrun) as (k & done & Hk).
  exists (S k), done. cbn [firstn check_bulk_loop]. cbv zeta.
  by rewrite (Hstep (check_bulk_loop env (firstn k rest))).
Qed.

End Bulk.

(** ** The two collections *)

Lemma split_by_flag_facts {R : Type} (flag : R -> bool)
    (processed valid invalid : list R) :
  split_by_flag flag processed valid invalid ->
  List.length valid + List.length invalid = List.length processed /\
  (forall r, In r valid -> In r invalid -> False) /\
  (forall r, In r processed ->
             (In r valid /\ flag r = true) \/ (In r invalid /\ flag r = false)).
Proof.
  intros [-> ->]. split; [| split].
  - induction processed as [| r rest IH]; [done |].
    simpl. destruct (flag r); simpl; lia.
  - intros r [_ Ht]%List.filter_In [_ Hf]%List.filter_In.
    rewrite Ht in Hf. done.
  - intros r Hin. destruct (flag r) eqn:Hr.
    + left. split; [| done]. apply List.filter_In. by split.
    + right. split; [| done]. apply List.filter_In. split; [done |].
      by rewrite Hr.
Qed.

Lemma split_by_flag_snoc {R : Type} (flag : R -> bool)
    (processed valid invalid : list R) (r : R) :
  split_by_flag flag processed valid invalid ->
  split_by_flag flag (processed ++ [r])
    (if flag r then valid ++ [r] else valid)
    (if flag r then invalid else invalid ++ [r]).
Proof.
  intros [-> ->]. unfold split_by_flag. rewrite !List.filter_app. simpl.
  destruct (flag r); simpl; by rewrite ?app_nil_r.
Qed.

Lemma split_by_flag_app {R : Type} (flag : R -> bool)
    (processed valid invalid more : list R) :
  split_by_flag flag processed valid invalid ->
  split_by_flag flag (processed ++ more)
    (valid ++ List.filter flag more)
    (invalid ++ List.filter (fun r => negb (flag r)) more).
Proof.
  intros [-> ->]. unfold split_by_flag. by rewrite !List.filter_app.
Qed.

Section StrictCollections.

Variable env : Env.

Lemma check_single_appends email password s r s' :
  check_single env email password s = (inr r, s') ->
  r_email r = email /\ r_password r = password /\
  if r_valid r
  then valid_creds s' = valid_creds s ++ [r] /\
       invalid_creds s' = invalid_creds s
  else valid_creds s' = valid_creds s /\
       invalid_creds s' = invalid_creds s ++ [r].
Proof.
  destruct (check_single_spec env email password s)
    as (valid & new & s1 & -> & _ & _ & _ & Hcol).
  intros [= <- <-]. simpl. by repeat split.
Qed.

Lemma reachable_split processed s :
  reachable env processed s ->
  split_by_flag r_valid processed (valid_creds s) (invalid_creds s).
Proof.
  induction 1 as [use history
                 | processed s email password r s' _ IH Hrun
                 | processed s credentials results s' _ IH Hrun
                 | processed s strict outcome s' _ IH Hrun].
  - unfold __init__. destruct use; [| done].
    destruct (_rotate_proxy_spec env true (blank true history))
      as (ok & new & s' & -> & _ & (_ & Hv & Hi) & _).
    simpl. by rewrite Hv, Hi.
  - apply check_single_appends in Hrun as (_ & _ & Hcol).
    pose proof (split_by_flag_snoc r_valid _ _ _ r IH) as Hsnoc.
    destruct (r_valid r); destruct Hcol as [-> ->]; exact Hsnoc.
  - unfold check_bulk in Hrun.
    destruct (check_bulk_loop_spec env credentials [] s)
      as (x & more & s1 & Hrun' & _ & Hv & Hi & Hx).
    rewrite Hrun in Hrun'. injection Hrun' as <- <-.
    destruct Hx as [[[= ->] _] | [[k Hk] _]]; [| done].
    rewrite Hv, Hi. by apply split_by_flag_app.
  - destruct (_rotate_proxy_spec env strict s)
      as (ok & new & s1 & Hrun' & _ & (_ & Hv & Hi) & _).
    rewrite Hrun in Hrun'. injection Hrun' as -> <-.
    by rewrite Hv, Hi.
Qed.

End StrictCollections.

Section BrowserCollections.

Variable b : KrogerBrowser.Browser.

Lemma keeps_ret {A} (a : A) : keeps (ret a).
Proof. by intros s x s' [= <- <-]. Qed.

Lemma keeps_bind {A B} (c : KrogerBrowser.M A) (k : A -> KrogerBrowser.M B) :
  keeps c -> (forall a, keeps (k a)) -> keeps (bind c k).
Proof.
  intros Hc Hk s x s'. unfold bind.
  destruct (c s) as [[e | a] s1] eqn:Hcs.
  - intros [= <- <-]. by eapply Hc.
  - intros Hks. destruct (Hc _ _ _ Hcs) as [<- <-]. by eapply Hk.
Qed.

Lemma keeps_try_except {A} (body : KrogerBrowser.M A) handler :
  keeps body ->
  (forall e h, handler e = Some h -> keeps h) ->
  keeps (try_except body handler).
Proof.
  intros Hb Hh s x s'. unfold try_except.
  destruct (body s) as [[e | a] s1] eqn:Hbs.
  - destruct (Hb _ _ _ Hbs) as [<- <-].
    destruct (handler e) as [h |] eqn:He.
    + intros Hhs. by eapply Hh.
    + by intros [= <- <-].
  - intros [= <- <-]. by eapply Hb.
Qed.

Lemma keeps_try_finally {A} (body : KrogerBrowser.M A) cleanup :
  keeps body -> keeps cleanup -> keeps (try_finally body cleanup).
Proof.
  intros Hb Hc s x s'. unfold try_finally.
  destruct (body s) as [r s1] eqn:Hbs.
  destruct (Hb _ _ _ Hbs) as [<- <-].
  destruct (cleanup s1) as [[e | u] s2] eqn:Hcs;
    intros [= <- <-]; by eapply Hc.
Qed.

Lemma keeps_step st : keeps (KrogerBrowser.step b st).
Proof. by intros s x s' [= <- <-]. Qed.

Lemma check_credentials_keeps email password :
  keeps (KrogerBrowser.check_credentials b email password).
Proof.
  unfold KrogerBrowser.check_credentials, KrogerBrowser.init_browser.
  apply keeps_try_finally.
  - apply keeps_try_except; [| intros e h [= <-]; apply keeps_ret].
    repeat (apply keeps_bind; [| intros ?]);
      try apply keeps_step; try (by intros s x s' [= <- <-]).
    apply keeps_try_except; [| intros e h [= <-]; apply keeps_ret].
    apply keeps_bind; [apply keeps_step | intros ?; apply keeps_ret].
  - apply keeps_bind; [by intros s x s' [= <- <-] | intros s0].
    destruct (KrogerBrowser.driver s0); by intros s x s' [= <- <-].
Qed.

Lemma browser_check_single_spec email password s x s' :
  KrogerBrowser.check_single b email password s = (x, s') ->
  match x with
  | inr r =>
      KrogerBrowser.r_email r = email /\
      KrogerBrowser.r_password r = password /\
      if KrogerBrowser.r_valid r
      then KrogerBrowser.valid_creds s' = KrogerBrowser.valid_creds s ++ [r] /\
           KrogerBrowser.invalid_creds s' = KrogerBrowser.invalid_creds s
      else KrogerBrowser.valid_creds s' = KrogerBrowser.valid_creds s /\
           KrogerBrowser.invalid_creds s' = KrogerBrowser.invalid_creds s ++ [r]
  | inl _ =>
      KrogerBrowser.valid_creds s' = KrogerBrowser.valid_creds s /\
      KrogerBrowser.invalid_creds s' = KrogerBrowser.invalid_creds s
  end.
Proof.
  unfold KrogerBrowser.check_single, bind.
  destruct (KrogerBrowser.check_credentials b email password s)
    as [[e | valid] s1] eqn:Hc.
  - intros [= <- <-]. by eapply check_credentials_keeps.
  - destruct (check_credentials_keeps email password _ _ _ Hc) as [Hv Hi].
    destruct valid; intros [= <- <-]; simpl; by rewrite Hv, Hi.
Qed.

Lemma browser_reachable_split processed s :
  browser_reachable b processed s ->
  split_by_flag KrogerBrowser.r_valid processed
    (KrogerBrowser.valid_creds s) (KrogerBrowser.invalid_creds s).
Proof.
  induction 1 as [history
                 | processed s email password r s' _ IH Hrun
                 | processed s email password e s' _ IH Hrun].
  - done.
  - apply browser_check_single_spec in Hrun as (_ & _ & Hcol).
    pose proof (split_by_flag_snoc KrogerBrowser.r_valid _ _ _ r IH) as Hsnoc.
    destruct (KrogerBrowser.r_valid r); destruct Hcol as [-> ->]; exact Hsnoc.
  - apply browser_check_single_spec in Hrun as [Hv Hi]. by rewrite Hv, Hi.
Qed.

End BrowserCollections.

(** C10. In every state a checker can reach, the two collections split the
    results processed so far by their flag: the lengths add up to the number
    of pairs processed, no result is in both, every processed result is in
    exactly the one its flag names; and a further [check_single] appends its
    result to [valid_creds] when the flag is true and to [invalid_creds]
    otherwise, leaving the other collection as it was.  This holds for the
    strict-proxy checker and for the browser checker. *)
Theorem collections_partition_processed
    (env : Env) (processed : list Result) (s : State)
    (b : KrogerBrowser.Browser) (bprocessed : list KrogerBrowser.Result)
    (bs : KrogerBrowser.State)
    (Hreach : reachable env processed s)
    (Hbreach : browser_reachable b bprocessed bs) :
  (partitioned r_valid processed (valid_creds s) (invalid_creds s) /\
   forall email password r s',
     check_single env email password s = (inr r, s') ->
     if r_valid r
     then valid_creds s' = valid_creds s ++ [r] /\
          invalid_creds s' = invalid_creds s
     else valid_creds s' = valid_creds s /\
          invalid_creds s' = invalid_creds s ++ [r])
  /\
  (partitioned KrogerBrowser.r_valid bprocessed
     (KrogerBrowser.valid_creds bs) (KrogerBrowser.invalid_creds bs) /\
   forall email password r bs',
     KrogerBrowser.check_single b email password bs = (inr r, bs') ->
     if KrogerBrowser.r_valid r
     then KrogerBrowser.valid_creds bs' = KrogerBrowser.valid_creds bs ++ [r] /\
          KrogerBrowser.invalid_creds bs' = KrogerBrowser.invalid_creds bs
     else KrogerBrowser.valid_creds bs' = KrogerBrowser.valid_creds bs /\
          KrogerBrowser.invalid_creds bs'
          = KrogerBrowser.invalid_creds bs ++ [r]).
Proof.
  split; split.
  - pose proof (reachable_split env processed s Hreach) as Hsplit.
    split; [done |]. by apply split_by_flag_facts.
  - intros email password r s' Hrun.
    by apply check_single_appends in Hrun as (_ & _ & Hcol).
  - pose proof (browser_reachable_split b bprocessed bs Hbreach) as Hsplit.
    split; [done |]. by apply split_by_flag_facts.
  - intros email password r bs' Hrun.
    by apply browser_check_single_spec in Hrun as (_ & _ & Hcol).
Qed.

Lemma collections_partition_processed_witness :
  (partitioned r_valid
     ([] ++ [mkResult "a@x.com" "p1" true None])
     (valid_creds (snd (check_single Stub.accepts_a "a@x.com" "p1"
                          (__init__ Stub.accepts_a false []))))
     (invalid_creds (snd (check_single Stub.accepts_a "a@x.com" "p1"
                            (__init__ Stub.accepts_a false [])))) /\
   forall email password r s',
     check_single Stub.accepts_a email password
       (snd (check_single Stub.accepts_a "a@x.com" "p1"
               (__init__ Stub.accepts_a false [])))
     = (inr r, s') ->
     if r_valid r
     then valid_creds s'
          = valid_creds (snd (check_single Stub.accepts_a "a@x.com" "p1"
                                (__init__ Stub.accepts_a false []))) ++ [r] /\
          invalid_creds s'
          = invalid_creds (snd (check_single Stub.accepts_a "a@x.com" "p1"
                                  (__init__ Stub.accepts_a false [])))
     else valid_creds s'
          = valid_creds (snd (check_single Stub.accepts_a "a@x.com" "p1"
                                (__init__ Stub.accepts_a false []))) /\
          invalid_creds s'
          = invalid_creds (snd (check_single Stub.accepts_a "a@x.com" "p1"
                                  (__init__ Stub.accepts_a false []))) ++ [r])
  /\
  (partitioned KrogerBrowser.r_valid
     ([] ++ [KrogerBrowser.mkResult "a@x.com" "p1" true])
     (KrogerBrowser.valid_creds
        (snd (KrogerBrowser.check_single Stub.chrome_ok "a@x.com" "p1"
                (KrogerBrowser.__init__ []))))
     (KrogerBrowser.invalid_creds
        (snd (KrogerBrowser.check_single Stub.chrome_ok "a@x.com" "p1"
                (KrogerBrowser.__init__ [])))) /\
   forall email password r bs',
     KrogerBrowser.check_single Stub.chrome_ok email password
       (snd (KrogerBrowser.check_single Stub.chrome_ok "a@x.com" "p1"
               (KrogerBrowser.__init__ [])))
     = (inr r, bs') ->
     if KrogerBrowser.r_valid r
     then KrogerBrowser.valid_creds bs'
          = KrogerBrowser.valid_creds
              (snd (KrogerBrowser.check_single Stub.chrome_ok "a@x.com" "p1"
                      (KrogerBrowser.__init__ []))) ++ [r] /\
          KrogerBrowser.invalid_creds bs'
          = KrogerBrowser.invalid_creds
              (snd (KrogerBrowser.check_single Stub.chrome_ok "a@x.com" "p1"
                      (KrogerBrowser.__init__ [])))
     else KrogerBrowser.valid_creds bs'
          = KrogerBrowser.valid_creds
              (snd (KrogerBrowser.check_single Stub.chrome_ok "a@x.com" "p1"
                      (KrogerBrowser.__init__ []))) /\
          KrogerBrowser.invalid_creds bs'
          = KrogerBrowser.invalid_creds
              (snd (KrogerBrowser.check_single Stub.chrome_ok "a@x.com" "p1"
                      (KrogerBrowser.__init__ []))) ++ [r]).
Proof.
  apply (collections_partition_processed Stub.accepts_a
           ([] ++ [mkResult "a@x.com" "p1" true None])
           (snd (check_single Stub.accepts_a "a@x.com" "p1"
                   (__init__ Stub.accepts_a false [])))
           Stub.chrome_ok
           ([] ++ [KrogerBrowser.mkResult "a@x.com" "p1" true])
           (snd (KrogerBrowser.check_single Stub.chrome_ok "a@x.com" "p1"
                   (KrogerBrowser.__init__ [])))).
  - apply (reach_single Stub.accepts_a [] (__init__ Stub.accepts_a false [])
             "a@x.com" "p1").
    + apply (reach_init Stub.accepts_a false []).
    + vm_compute. reflexivity.
  - apply (breach_single Stub.chrome_ok [] (KrogerBrowser.__init__ [])
             "a@x.com" "p1").
    + apply breach_init.
    + vm_compute. reflexivity.
Defined.

(** ** The token extractor *)

Section Extractor.

Import Re KrogerFinal.

Lemma rep_success {R : Type} k greedy inp :
  forall min acc (cont : string -> string -> option R) res,
    rep k greedy min inp acc cont = Some res ->
    exists used rest, cont used rest = Some res.
Proof.
  induction inp as [| c inp IH]; intros min acc cont res; simpl.
  - destruct (min =? 0)%nat; [by eauto | done].
  - destruct (min =? 0)%nat.
    + destruct greedy.
      * destruct (in_cls k c).
        -- destruct (rep k true (pred min) inp _ cont) eqn:Hmore.
           ++ intros [= <-]. by eapply IH.
           ++ by eauto.
        -- by eauto.
      * destruct (cont acc (String c inp)) eqn:Hstop.
        -- intros [= <-]. by eauto.
        -- destruct (in_cls k c); [by apply IH | done].
    + destruct (in_cls k c); [by apply IH | done].
Qed.

Lemma run_success {R : Type} r :
  forall inp (cont : string -> string -> option string -> option R) res,
    run r inp cont = Some res ->
    exists used rest cap, cont used rest cap = Some res.
Proof.
  induction r as [l | k min greedy | r IH | a IHa b IHb];
    intros inp cont res; simpl.
  - destruct (strip l inp); [by eauto | done].
  - intros (used & rest & H)%rep_success. by eauto.
  - intros (used & rest & cap & H)%IH. by eauto.
  - intros (u1 & r1 & c1 & (u2 & r2 & c2 & H)%IHb)%IHa. by eauto.
Qed.

(** A pattern whose every match passes the group hands a capture over. *)
Lemma run_captures {R : Type} r :
  sets_group r = true ->
  forall inp (cont : string -> string -> option string -> option R) res,
    run r inp cont = Some res ->
    exists used rest c, cont used rest (Some c) = Some res.
Proof.
  induction r as [l | k min greedy | r IH | a IHa b IHb];
    intros Hset inp cont res; simpl in *; try done.
  - intros (used & rest & cap & H)%run_success. by eauto.
  - destruct (sets_group b) eqn:Hb.
    + intros (u1 & r1 & c1 & (u2 & r2 & c & H)%(IHb eq_refl))%run_success.
      by eauto.
    + rewrite orb_false_r in Hset.
      intros (u1 & r1 & c & (u2 & r2 & c2 & H)%run_success)%(IHa Hset).
      destruct c2; by eauto.
Qed.

Lemma search_captures r html cap :
  sets_group r = true -> search r html = Some cap -> exists token, cap = Some token.
Proof.
  intros Hset. induction html as [| c html IH]; simpl.
  - destruct (match_here r EmptyString) as [cap' |] eqn:Hm; [| done].
    intros [= <-]. unfold match_here in Hm.
    apply (run_captures r Hset) in Hm as (_ & _ & c & [= <-]). by eauto.
  - destruct (match_here r (String c html)) as [cap' |] eqn:Hm; [| done].
    intros [= <-]. unfold match_here in Hm.
    apply (run_captures r Hset) in Hm as (_ & _ & c' & [= <-]). by eauto.
Qed.

Lemma patterns_set_group : Forall (fun r => sets_group r = true) patterns.
Proof. by repeat constructor. Qed.

(** The loop of the source is the specification's first plausible capture. *)
Lemma _extract_csrf_loop_find ps html :
  Forall (fun r => sets_group r = true) ps ->
  _extract_csrf_loop ps html = List.find plausible (omap (captured html) ps).
Proof.
  induction 1 as [| r ps Hr _ IH]; [done |]. simpl. unfold captured at 1.
  destruct (search r html) as [cap |] eqn:Hs; [| done].
  destruct (search_captures r html cap Hr Hs) as (token & ->).
  simpl. unfold plausible at 1. by destruct (10 <? String.length token)%nat.
Qed.

(** A text that does not start with [<meta] does not start with it either
    when a [<] is put after it. *)
Lemma strip_meta_straddle c q rest :
  strip "<meta" (String c q) = None ->
  strip "<meta" (String c q +:+ String "<" rest) = None.
Proof.
  unfold String.append.
  destruct q as [| c2 [| c3 [| c4 [| c5 q]]]]; cbn -[Ascii.eqb];
    repeat (match goal with
            | |- context [Ascii.eqb ?a ?b] =>
                lazymatch b with
                | "<"%char => change (Ascii.eqb a b) with false
                | _ => destruct (Ascii.eqb a b)
                end
            end; cbn -[Ascii.eqb]; try done).
Qed.

(** Where the text has no [<meta], no meta tag can start. *)
Lemma search_meta_tag_skips prefix rest :
  occurs "<meta" prefix = false ->
  search meta_tag (prefix +:+ String "<" rest)
  = search meta_tag (String "<" rest).
Proof.
  induction prefix as [| c prefix IH]; [reflexivity |].
  intros Hocc.
  change (occurs "<meta" (String c prefix))
    with (match strip "<meta" (String c prefix) with
          | Some _ => true
          | None => occurs "<meta" prefix
          end) in Hocc.
  destruct (strip "<meta" (String c prefix)) eqn:Hstrip; [done |].
  apply (strip_meta_straddle c prefix rest) in Hstrip.
  change (String c prefix +:+ String "<" rest)
    with (String c (prefix +:+ String "<" rest)) in *.
  change (search meta_tag (String c (prefix +:+ String "<" rest)))
    with (match match_here meta_tag (String c (prefix +:+ String "<" rest)) with
          | Some cap => Some cap
          | None => search meta_tag (prefix +:+ String "<" rest)
          end).
  replace (match_here meta_tag (String c (prefix +:+ String "<" rest)))
    with (@None (option string)).
  - by apply IH.
  - unfold match_here, meta_tag, cat.
    change (run (Seq (Lit "<meta") ?r) ?inp ?k)
      with (run (Lit "<meta") inp
              (fun used1 rest1 cap1 =>
                 run r rest1 (fun used2 rest2 cap2 =>
                   k (used1 +:+ used2) rest2
                     (match cap2 with Some x => Some x | None => cap1 end)))).
    unfold run at 1. by rewrite Hstrip.
Qed.

Lemma search_meta_example suffix :
  search meta_tag (meta_example +:+ suffix) = Some (Some "abcdef0123456789").
Proof. reflexivity. Qed.

End Extractor.

(** The strict-proxy file has its own extractor, which looks for one marker
    and falls back on a placeholder; on the meta tag it gives the
    placeholder. *)
Remark strict_extract_csrf_placeholder :
  KrogerStrict._extract_csrf meta_example = "dummy_csrf_token".
Proof. reflexivity. Qed.

(** The other three patterns at work. *)
Example extract_csrf_script_state :
  KrogerFinal._extract_csrf
    ("<script>window.__PRELOADED_STATE__ = {" +:+ dq +:+ "user" +:+ dq
     +:+ ":null," +:+ dq +:+ "csrfToken" +:+ dq +:+ ":" +:+ dq
     +:+ "state-token-0001" +:+ dq +:+ "}</script>")
  = Some "state-token-0001".
Proof. reflexivity. Qed.

Example extract_csrf_hidden_field :
  KrogerFinal._extract_csrf
    ("<input type=" +:+ dq +:+ "hidden" +:+ dq +:+ " name=" +:+ dq +:+ "_csrf"
     +:+ dq +:+ " value=" +:+ dq +:+ "field-token-0001" +:+ dq +:+ ">")
  = Some "field-token-0001".
Proof. reflexivity. Qed.

Example extract_csrf_json_key_value :
  KrogerFinal._extract_csrf
    ("{" +:+ dq +:+ "csrfToken" +:+ dq +:+ " : " +:+ dq +:+ "json-token-00001"
     +:+ dq +:+ "}")
  = Some "json-token-00001".
Proof. reflexivity. Qed.

(** A captured value of 10 characters is not long enough. *)
Example extract_csrf_ten_characters :
  KrogerFinal._extract_csrf
    ("{" +:+ dq +:+ "csrfToken" +:+ dq +:+ ":" +:+ dq +:+ "0123456789"
     +:+ dq +:+ "}")
  = None.
Proof. reflexivity. Qed.

Example extract_csrf_no_pattern :
  KrogerFinal._extract_csrf "<html><body>Sign in</body></html>" = None.
Proof. reflexivity. Qed.

(** Other meta tags before it do no harm. *)
Example extract_csrf_in_a_page :
  KrogerFinal._extract_csrf
    ("<html><head><meta charset=" +:+ dq +:+ "utf-8" +:+ dq +:+ ">"
     +:+ meta_example +:+ "</head><body></body></html>")
  = Some "abcdef0123456789".
Proof. reflexivity. Qed.

(** A short token in an earlier meta tag hides a plausible one behind it:
    only the leftmost match of each pattern is looked at. *)
Remark short_meta_tag_hides_later_one :
  KrogerFinal._extract_csrf
    ("<meta name=" +:+ dq +:+ "csrf-token" +:+ dq +:+ " content=" +:+ dq
     +:+ "short" +:+ dq +:+ ">" +:+ meta_example)
  = None.
Proof. reflexivity. Qed.

(** C7. The extractor tries the four patterns in the order meta tag, script
    state, hidden field, JSON key and value, and returns the first captured
    value longer than 10 characters; it returns [None] exactly when no
    pattern captures such a value.  On the meta tag with content
    [abcdef0123456789], alone or between any text before it that has no
    [<meta] and any text after it, it returns [abcdef0123456789]. *)
Theorem extract_csrf_first_plausible (html : string) :
  KrogerFinal.patterns
  = [KrogerFinal.meta_tag; KrogerFinal.script_state;
     KrogerFinal.hidden_field; KrogerFinal.json_key_value] /\
  KrogerFinal._extract_csrf html = first_plausible html /\
  (forall token,
      KrogerFinal._extract_csrf html = Some token ->
      (10 < String.length token)%nat /\
      exists pattern, In pattern KrogerFinal.patterns /\
                      Re.search pattern html = Some (Some token)) /\
  (KrogerFinal._extract_csrf html = None <->
   forall pattern token,
     In pattern KrogerFinal.patterns ->
     Re.search pattern html = Some (Some token) ->
     (String.length token <= 10)%nat) /\
  KrogerFinal._extract_csrf meta_example = Some "abcdef0123456789" /\
  (forall prefix suffix,
      occurs "<meta" prefix = false ->
      KrogerFinal._extract_csrf (prefix +:+ meta_example +:+ suffix)
      = Some "abcdef0123456789").
Proof.
  assert (Hfind : forall h, KrogerFinal._extract_csrf h = first_plausible h).
  { intros h. apply _extract_csrf_loop_find, patterns_set_group. }
  split; [done |]. split; [by apply Hfind |]. split; [| split; [| split]].
  - intros token. rewrite Hfind. unfold first_plausible.
    intros Hf. apply List.find_some in Hf as [Hin Hlen].
    apply list_elem_of_In, list_elem_of_omap in Hin as (pattern & Hp & Hcap).
    split; [by apply Nat.ltb_lt |].
    exists pattern. split; [by apply list_elem_of_In |].
    unfold captured in Hcap.
    by destruct (Re.search pattern html) as [[t |] |]; simplify_eq.
  - rewrite Hfind. unfold first_plausible. split.
    + intros Hnone pattern token Hin Hs.
      destruct (10 <? String.length token)%nat eqn:Hlen;
        [| by apply Nat.ltb_ge].
      assert (Hin' : In token (omap (captured html) KrogerFinal.patterns)).
      { apply list_elem_of_In, list_elem_of_omap. exists pattern.
        split; [by apply list_elem_of_In |].
        unfold captured. by rewrite Hs. }
      apply (List.find_none _ _ Hnone token) in Hin'.
      unfold plausible in Hin'. congruence.
    + intros Hall.
      destruct (List.find plausible _) as [token |] eqn:Hf; [| done].
      apply List.find_some in Hf as [Hin Hlen].
      apply list_elem_of_In, list_elem_of_omap in Hin as (pattern & Hp & Hcap).
      unfold captured in Hcap.
      destruct (Re.search pattern html) as [[t |] |] eqn:Hs; simplify_eq.
      apply list_elem_of_In in Hp.
      pose proof (Hall pattern token Hp Hs) as Hle.
      apply Nat.ltb_lt in Hlen. lia.
  - reflexivity.
  - intros prefix suffix Hocc.
    unfold KrogerFinal._extract_csrf, KrogerFinal.patterns,
      KrogerFinal._extract_csrf_loop.
    change (meta_example +:+ suffix)
      with (String "<" (String.substring 1 54 meta_example +:+ suffix)).
    rewrite (search_meta_tag_skips prefix _ Hocc).
    change (String "<" (String.substring 1 54 meta_example +:+ suffix))
      with (meta_example +:+ suffix).
    rewrite search_meta_example. reflexivity.
Qed.

(** ** The reserved custom check *)

Section Reserved.

Import EmailChecker.

Variable imap : Imap.
Variable str_of : pyval -> string.

Lemma post_ret {S A} (a : A) (Q : A -> Prop) : Q a -> post (S := S) (ret a) Q.
Proof. by intros H s x s' [= <- <-]. Qed.

Lemma post_bind {S A B} (c : Exc.M S A) (k : A -> Exc.M S B)
    (Q : A -> Prop) (Q' : B -> Prop) :
  post c Q -> (forall a, Q a -> post (k a) Q') -> post (bind c k) Q'.
Proof.
  intros Hc Hk s x s'. unfold bind.
  destruct (c s) as [[e | a] s1] eqn:Hcs.
  - by intros [= <- <-].
  - intros Hks. apply (Hk a (Hc _ _ _ Hcs) _ _ _ Hks).
Qed.

Lemma post_bind_any {S A B} (c : Exc.M S A) (k : A -> Exc.M S B)
    (Q' : B -> Prop) :
  (forall a, post (k a) Q') -> post (bind c k) Q'.
Proof.
  intros Hk. apply (post_bind c k (fun _ => True)); [| by auto].
  intros s x s' _. by destruct x.
Qed.

(** Skipping: the loop runs as if the reserved entries were not configured,
    whatever they hold. *)
Lemma custom_checks_loop_skips items :
  forall counts h,
    custom_checks_loop imap str_of items counts h
    = custom_checks_loop imap str_of (without_reserved items) counts h.
Proof.
  induction items as [| [check_name check_info] rest IH]; intros counts h;
    [done |].
  simpl. destruct (is_reserved check_name) eqn:Hres; simpl; [by apply IH |].
  rewrite Hres. unfold bind.
  destruct (py_get_default check_info "enabled" (PyBool false) h)
    as [[e | enabled] h1]; [done |].
  destruct (truthy enabled); [| by apply IH].
  destruct (py_subscript check_info "email" h1) as [[e | address] h2];
    [done |].
  destruct (fetch_emails imap (from_query (str_of address)) h2)
    as [[e | custom_data] h3]; [done |].
  by apply IH.
Qed.

Lemma reserved_differs name check_name :
  is_reserved name = true -> is_reserved check_name = false ->
  check_name <> name.
Proof. intros H1 H2 ->. congruence. Qed.

(** The loop never writes a count under a reserved name. *)
Lemma custom_checks_loop_no_reserved items :
  forall counts,
    no_reserved_count counts ->
    post (custom_checks_loop imap str_of items counts) no_reserved_count.
Proof.
  induction items as [| [check_name check_info] rest IH]; intros counts Hc;
    simpl.
  - by apply post_ret.
  - destruct (is_reserved check_name) eqn:Hres; [by apply IH |].
    apply post_bind_any. intros enabled.
    destruct (truthy enabled); [| by apply IH].
    apply post_bind_any. intros address.
    apply post_bind_any. intros custom_data.
    apply IH. intros name Hname.
    rewrite lookup_insert_ne; [by apply Hc |].
    by eapply reserved_differs.
Qed.

(** Nor do the built-in checks. *)
Lemma default_checks_no_reserved cfg :
  post (default_checks imap cfg) (fun r => no_reserved_count (fst (fst r))).
Proof.
  assert (Hins : forall (key : string) (n : nat) (counts : gmap string nat),
             is_reserved key = false ->
             no_reserved_count counts ->
             no_reserved_count (<[key := n]> counts)).
  { intros key n counts Hkey Hc name Hname.
    rewrite lookup_insert_ne; [by apply Hc |]. by eapply reserved_differs. }
  unfold default_checks.
  eapply (post_bind _ _ no_reserved_count).
  { destruct (truthy _); [| by apply post_ret].
    do 2 (apply post_bind_any; intros ?). by apply post_ret, Hins. }
  intros c1 H1. eapply (post_bind _ _ no_reserved_count).
  { destruct (truthy _); [| by apply post_ret].
    apply post_bind_any; intros ?. by apply post_ret, Hins. }
  intros c2 H2.
  eapply (post_bind _ _ (fun cd => no_reserved_count (fst cd))).
  { destruct (truthy _); [| by apply post_ret].
    do 2 (apply post_bind_any; intros ?). by apply post_ret, Hins. }
  intros cd Hcd.
  eapply (post_bind _ _ (fun cr => no_reserved_count (fst cr))).
  { destruct (truthy _); [| by apply post_ret].
    do 3 (apply post_bind_any; intros ?). by apply post_ret, Hins. }
  intros cr Hcr. eapply (post_bind _ _ no_reserved_count).
  { destruct (truthy _); [| by apply post_ret].
    apply post_bind_any; intros ?. by apply post_ret, Hins. }
  intros c5 H5. eapply (post_bind _ _ no_reserved_count).
  { destruct (truthy _); [| by apply post_ret].
    apply post_bind_any; intros ?. by apply post_ret, Hins. }
  intros c6 H6. eapply (post_bind _ _ no_reserved_count).
  { destruct (truthy _); [| by apply post_ret].
    apply post_bind_any; intros ?. by apply post_ret, Hins. }
  intros c7 H7. by apply post_ret.
Qed.

End Reserved.

(** The reserved entry is switched on, yet only the search for the other
    check is sent and only that check gets a count. *)
Example reserved_entry_enabled_is_skipped :
  EmailChecker.count_hits Stub.two_hits Stub.str_of Stub.no_defaults
    Stub.custom_checks []
  = (inr ({[ "netflix" := 2 ]}, None, None),
     [EmailChecker.ImSearch (EmailChecker.from_query "info@netflix.com")
        (inr ("OK", ["101"; "102"]))]).
Proof. reflexivity. Qed.

(** C9. A custom check whose lower-cased name is [example_check] is always
    skipped, whatever it holds and so whatever its enabled flag says: the
    loop over the custom checks, and with it the whole counting, runs exactly
    as it does on the configuration without such entries (same outcome, same
    searches sent to the mailbox), and no count is ever kept under such a
    name. *)
Theorem reserved_check_always_skipped
    (imap : EmailChecker.Imap) (str_of : pyval -> string)
    (cfg : EmailChecker.Config) (custom_checks : list (string * pyval))
    (history : list EmailChecker.ImapEvent) :
  EmailChecker.reserved_name = "example_check" /\
  (forall before name check_info after counts,
      EmailChecker.is_reserved name = true ->
      EmailChecker.custom_checks_loop imap str_of
        (before ++ (name, check_info) :: after) counts history
      = EmailChecker.custom_checks_loop imap str_of
          (before ++ after) counts history) /\
  EmailChecker.count_hits imap str_of cfg custom_checks history
  = EmailChecker.count_hits imap str_of cfg
      (EmailChecker.without_reserved custom_checks) history /\
  (forall counts discord_year reddit_year history',
      EmailChecker.count_hits imap str_of cfg custom_checks history
      = (inr (counts, discord_year, reddit_year), history') ->
      forall name, EmailChecker.is_reserved name = true ->
                   counts !! name = None).
Proof.
  split; [done |]. split; [| split].
  - intros before name check_info after counts Hres.
    rewrite (custom_checks_loop_skips imap str_of (before ++ _)).
    rewrite (custom_checks_loop_skips imap str_of (before ++ after)).
    unfold EmailChecker.without_reserved.
    rewrite !List.filter_app. simpl. by rewrite Hres.
  - unfold EmailChecker.count_hits, bind.
    destruct (EmailChecker.default_checks imap cfg history)
      as [[e | r] h1]; [done |].
    by rewrite custom_checks_loop_skips.
  - intros counts discord_year reddit_year history' Hrun.
    assert (Hpost : post (EmailChecker.count_hits imap str_of cfg custom_checks)
                      (fun r => EmailChecker.no_reserved_count (fst (fst r)))).
    { unfold EmailChecker.count_hits.
      eapply post_bind; [apply default_checks_no_reserved |].
      intros r Hr. eapply post_bind;
        [by apply custom_checks_loop_no_reserved |].
      intros c Hc. by apply post_ret. }
    apply Hpost in Hrun. exact Hrun.
Qed.

(** * Further properties *)

(** ** The traffic of a proxy rotation *)

Section RotationTraffic.

Variable env : Env.

Lemma rotation_trace_app a b :
  rotation_trace a -> rotation_trace b -> rotation_trace (a ++ b).
Proof.
  induction 1; intros Hb; simpl; [done | | |]; constructor; auto.
Qed.

Lemma last_fetched_app a b d :
  last_fetched (a ++ b) d = last_fetched a (last_fetched b d).
Proof.
  induction a as [| e a IH]; [done |]. simpl.
  by destruct e as [[ | p] | | | ].
Qed.

Lemma last_usable_app a b d :
  last_usable (a ++ b) d = last_usable a (last_usable b d).
Proof.
  induction a as [| e a IH]; [done |]. simpl.
  destruct e as [[ | p] | | | ]; try done.
  by destruct (truthy_str p).
Qed.

(** Each pass asks the directory once, and then either pauses or sends one
    health check or does neither. *)
Lemma rotation_trace_counts evs :
  rotation_trace evs ->
  health_checks evs + sleeps evs <= acquisitions evs /\
  attempts evs = 0 /\ draws evs = 0 /\ upkeep evs.
Proof.
  unfold health_checks, sleeps, acquisitions, attempts, draws, upkeep.
  induction 1 as [| e rest _ (IH1 & IH2 & IH3 & IH4)
                    | p rest Hp _ (IH1 & IH2 & IH3 & IH4)
                    | p a rest Hp _ (IH1 & IH2 & IH3 & IH4)]; simpl.
  - repeat split; auto.
  - repeat split; auto; try lia; by repeat constructor.
  - repeat split; auto; try lia; by repeat constructor.
  - repeat split; auto; try lia; by repeat constructor.
Qed.

Lemma rotation_trace_no_login evs extract email password :
  rotation_trace evs -> login_follows_page extract email password evs.
Proof.
  induction 1; simpl; repeat split; auto; try done.
Qed.

(** One pass, with what it logs and what it does to the proxy fields. *)
Lemma _rotate_proxy_body_trace attempt s :
  exists c new s',
    _rotate_proxy_body env attempt s = (inr c, s') /\
    events s' = new ++ events s /\
    rotation_trace new /\ acquisitions new = 1 /\
    proxy s' = last_fetched new (proxy s) /\
    session_proxies s' = last_usable new (session_proxies s) /\
    ((exists resp rest,
        c = Return true /\
        new = EvRequest (mkRequest GET home_url (proxy s') None) (inr resp)
              :: EvFreeProxy (inr (proxy s')) :: rest /\
        status_code resp = 200%Z /\
        existsb health_check_ok rest = false /\
        session_proxies s' = proxy s' /\ truthy_str (proxy s') = true)
     \/ (c = Continue /\ existsb health_check_ok new = false)).
Proof.
  unfold _rotate_proxy_body, try_except, bind, FreeProxy_get, modify.
  destruct (free_proxy env (events s)) as [e | p] eqn:Hfp; simpl.
  - eexists _, [EvSleep 1; EvFreeProxy (inl e)], _. simpl.
    split; [reflexivity |]. split; [reflexivity |].
    split; [by repeat constructor |]. repeat split; auto.
  - destruct (truthy_str p) eqn:Hp; simpl.
    + unfold session_get, session_request; simpl.
      match goal with |- context [send env ?h ?r] =>
        destruct (send env h r) as [e | resp] eqn:Hsend end; simpl.
      * eexists _, [EvRequest _ (inl e); EvFreeProxy (inr p)], _. simpl.
        split; [reflexivity |]. split; [reflexivity |].
        split; [by repeat constructor |]. rewrite Hp. repeat split; auto.
      * destruct (status_code resp =? 200)%Z eqn:Hst; simpl.
        -- eexists _, [EvRequest _ (inr resp); EvFreeProxy (inr p)], _. simpl.
           split; [reflexivity |]. split; [reflexivity |].
           split; [by repeat constructor |]. rewrite Hp.
           split; [done |]. split; [done |]. split; [done |].
           left. exists resp, []. apply Z.eqb_eq in Hst. by repeat split.
        -- eexists _, [EvRequest _ (inr resp); EvFreeProxy (inr p)], _. simpl.
           split; [reflexivity |]. split; [reflexivity |].
           split; [by repeat constructor |]. rewrite Hp, Hst.
           repeat split; auto.
    + eexists _, [EvFreeProxy (inr p)], _. simpl.
      split; [reflexivity |]. split; [reflexivity |].
      split; [by repeat constructor |]. rewrite Hp. repeat split; auto.
Qed.

Lemma _rotate_proxy_loop_trace atts s :
  exists r new s',
    _rotate_proxy_loop env atts s = (inr r, s') /\
    events s' = new ++ events s /\
    rotation_trace new /\ acquisitions new <= List.length atts /\
    proxy s' = last_fetched new (proxy s) /\
    session_proxies s' = last_usable new (session_proxies s) /\
    ((exists resp rest,
        r = Some true /\
        new = EvRequest (mkRequest GET home_url (proxy s') None) (inr resp)
              :: EvFreeProxy (inr (proxy s')) :: rest /\
        status_code resp = 200%Z /\
        existsb health_check_ok rest = false /\
        session_proxies s' = proxy s' /\ truthy_str (proxy s') = true)
     \/ (r = None /\ existsb health_check_ok new = false)).
Proof.
  revert s. induction atts as [| attempt rest IH]; intros s.
  - exists None, [], s. simpl. repeat split; auto. constructor.
  - simpl. unfold bind.
    destruct (_rotate_proxy_body_trace attempt s)
      as (c & new1 & s1 & -> & Hev1 & Ht1 & Hn1 & Hp1 & Hsp1 & Hc).
    destruct Hc as [(resp & rest1 & -> & Hnew & Hst & Hrest & Hsame & Htr)
                   | (-> & Hno)].
    + exists (Some true), new1, s1.
      split; [done |]. split; [done |]. split; [done |].
      split; [simpl; lia |]. split; [done |]. split; [done |].
      left. by exists resp, rest1.
    + destruct (IH s1)
        as (r & new2 & s2 & -> & Hev2 & Ht2 & Hn2 & Hp2 & Hsp2 & Hr).
      exists r, (new2 ++ new1), s2.
      split; [done |]. split; [by rewrite Hev2, Hev1, app_assoc |].
      split; [by apply rotation_trace_app |].
      split; [rewrite acquisitions_app; simpl; lia |].
      split; [by rewrite last_fetched_app, <- Hp1 |].
      split; [by rewrite last_usable_app, <- Hsp1 |].
      destruct Hr as [(resp & rest2 & -> & Hnew & Hst & Hrest & Hsame & Htr)
                     | (-> & Hno2)].
      * left. exists resp, (rest2 ++ new1). rewrite Hnew. simpl.
        by rewrite existsb_app, Hrest, Hno.
      * right. by rewrite existsb_app, Hno2, Hno.
Qed.

End RotationTraffic.

(** X1. A rotation talks to nothing but the proxy directory and the home
    page: its log is a run of passes, each a directory call followed by a
    one-second pause when the call raised, by one health check sent through
    the proxy the call gave, or by nothing when the call gave no usable
    proxy.  It makes at most 5 directory calls in strict mode and 3
    otherwise, the health checks and pauses together never outnumber them,
    and it leaves the mode and both collections alone. *)
Theorem rotation_traffic_shape (env : Env) (strict : bool) (s : State) :
  exists ok new s',
    _rotate_proxy env strict s = (inr ok, s') /\
    events s' = new ++ events s /\
    rotation_trace new /\
    health_checks new + sleeps new <= acquisitions new /\
    acquisitions new <= (if strict then 5 else 3) /\
    attempts new = 0 /\ draws new = 0 /\
    use_proxy s' = use_proxy s /\
    valid_creds s' = valid_creds s /\ invalid_creds s' = invalid_creds s.
Proof.
  unfold _rotate_proxy, bind.
  destruct (_rotate_proxy_loop_trace env (seq 0 (rotate_max_retries strict)) s)
    as (r & new & s1 & Hrun & Hev & Ht & Hn & _ & _ & Hr).
  destruct (_rotate_proxy_loop_spec env (seq 0 (rotate_max_retries strict)) s)
    as (r' & new' & s1' & Hrun' & _ & (Hu & Hv & Hi) & _).
  rewrite Hrun in Hrun'. injection Hrun' as <- <- .
  rewrite Hrun. rewrite length_seq in Hn.
  destruct (rotation_trace_counts new Ht) as (Hc & Ha & Hd & _).
  assert (Hmax : acquisitions new <= (if strict then 5 else 3))
    by (by destruct strict).
  destruct Hr as [(resp & rest & -> & _) | (-> & _)].
  - exists true, new, s1. by repeat split.
  - destruct strict.
    + exists false, new, s1. by repeat split.
    + eexists true, new, _. simpl. by repeat split.
Qed.

(** X2. After a rotation whose health check answered 200, that check is the
    newest event, it went through the proxy the directory gave last, and the
    checker and its session both hold that proxy.  After a strict rotation
    that failed, the checker holds whatever the directory returned last and
    the session the last usable value it returned, although none of them
    passed a health check; only the non-strict fallback clears both. *)
Theorem rotation_proxy_state (env : Env) (strict : bool) (s : State) :
  exists ok new s',
    _rotate_proxy env strict s = (inr ok, s') /\
    events s' = new ++ events s /\
    if existsb health_check_ok new
    then ok = true /\
         exists resp rest,
           new = EvRequest (mkRequest GET home_url (proxy s') None) (inr resp)
                 :: EvFreeProxy (inr (proxy s')) :: rest /\
           status_code resp = 200%Z /\
           existsb health_check_ok rest = false /\
           session_proxies s' = proxy s' /\ truthy_str (proxy s') = true
    else if strict
         then ok = false /\
              proxy s' = last_fetched new (proxy s) /\
              session_proxies s' = last_usable new (session_proxies s)
         else ok = true /\ proxy s' = None /\ session_proxies s' = None.
Proof.
  unfold _rotate_proxy, bind.
  destruct (_rotate_proxy_loop_trace env (seq 0 (rotate_max_retries strict)) s)
    as (r & new & s1 & -> & Hev & _ & _ & Hp & Hsp & Hr).
  destruct Hr as [(resp & rest & -> & Hnew & Hst & Hrest & Hsame & Htr)
                 | (-> & Hno)].
  - exists true, new, s1.
    split; [done |]. split; [done |].
    assert (Hok : existsb health_check_ok new = true).
    { rewrite Hnew. simpl. apply Z.eqb_eq in Hst. by rewrite Hst. }
    rewrite Hok. split; [done |]. by exists resp, rest.
  - destruct strict.
    + exists false, new, s1. by rewrite Hno.
    + eexists true, new, _. rewrite Hno. simpl. by repeat split.
Qed.

(** ** The traffic of a check *)

Section CheckTraffic.

Variable env : Env.
Variables email password : string.

Lemma _rotate_proxy_trace strict s :
  exists ok new s',
    _rotate_proxy env strict s = (inr ok, s') /\
    events s' = new ++ events s /\ rotation_trace new.
Proof.
  unfold _rotate_proxy, bind.
  destruct (_rotate_proxy_loop_trace env (seq 0 (rotate_max_retries strict)) s)
    as (r & new & s1 & -> & Hev & Ht & _ & _ & _ & Hr).
  destruct Hr as [(resp & rest & -> & _) | (-> & _)].
  - by exists true, new, s1.
  - destruct strict.
    + by exists false, new, s1.
    + by eexists true, new, _.
Qed.

Lemma login_follows_page_app extract a b :
  login_follows_page extract email password a ->
  login_follows_page extract email password b ->
  login_follows_page extract email password (a ++ b).
Proof.
  induction a as [| e a IH]; [done |]. simpl.
  intros [He Ha] Hb. split; [| by apply IH].
  destruct e as [ | r ans | | ]; try done.
  intros Hurl. destruct (He Hurl) as (page & Hhead & Hr).
  exists page. split; [| done].
  by destruct a.
Qed.

Lemma draws_app a b : draws (a ++ b) = draws a + draws b.
Proof. unfold draws. by rewrite List.filter_app, List.length_app. Qed.

Lemma logins_app a b : logins (a ++ b) = logins a + logins b.
Proof. unfold logins. by rewrite List.filter_app, List.length_app. Qed.

Lemma rotation_trace_no_logins evs : rotation_trace evs -> logins evs = 0.
Proof. unfold logins. by induction 1. Qed.

Local Abbreviation tidy := (tidy_log email password).

Lemma tidy_app a b : tidy a -> tidy b -> tidy (a ++ b).
Proof.
  intros (Ha1 & Ha2 & Ha3) (Hb1 & Hb2 & Hb3). unfold tidy.
  rewrite draws_app, logins_app, attempts_app.
  split; [by apply login_follows_page_app |]. split; lia.
Qed.

Lemma tidy_rotation evs : rotation_trace evs -> tidy evs.
Proof.
  intros Ht. destruct (rotation_trace_counts evs Ht) as (_ & Ha & Hd & _).
  split; [by apply rotation_trace_no_login |].
  split; [done |]. rewrite (rotation_trace_no_logins evs Ht). lia.
Qed.

Ltac run_body :=
  unfold _get_auth_token_body, try_except, bind, session_get, session_post,
    session_request, get_state, ret, response_json, py_get, raise, sleep,
    modify; simpl.

Ltac call_rotate ok rot s3 Hrot Hev Ht :=
  match goal with
  | |- context [_rotate_proxy env ?b ?st] =>
      destruct (_rotate_proxy_trace b st)
        as (ok & rot & s3 & Hrot & Hev & Ht%tidy_rotation);
      rewrite Hrot; simpl
  end.

Ltac solve_events :=
  simpl;
  repeat match goal with H : events _ = _ |- _ => rewrite H end;
  simpl; rewrite <- ?app_assoc; reflexivity.

Ltac close_pass new :=
  eexists _, new, _;
  split; [reflexivity |];
  split; [solve_events |];
  repeat (apply tidy_app; [| try assumption]);
  try assumption;
  (split; [simpl; eauto 10 | split; [reflexivity | simpl; lia]]).

Lemma _get_auth_token_body_tidy attempt s :
  exists c new s',
    _get_auth_token_body env email password attempt s = (inr c, s') /\
    events s' = new ++ events s /\ tidy new.
Proof.
  run_body.
  set (g := mkRequest GET signin_url (session_proxies s) None).
  destruct (send env (events s) g) as [e | page] eqn:Hget; simpl.
  - assert (Hbase : tidy [EvRequest g (inl e)]).
    { split; [simpl; repeat split; done |]. split; [done |]. unfold logins, attempts; simpl; lia. }
    destruct (is_RequestException e); simpl.
    + destruct (attempt <? 1)%nat; simpl.
      * call_rotate ok rot s3 Hrot Hev Ht.
        destruct ok; simpl.
        -- eexists _, ([EvSleep 2] ++ rot ++ [EvRequest g (inl e)]), _.
           split; [reflexivity |]. split; [solve_events |].
           apply tidy_app; [| by apply tidy_app].
           split; [simpl; done |]. split; [done |]. unfold logins, attempts; simpl; lia.
        -- eexists _, (rot ++ [EvRequest g (inl e)]), _.
           split; [reflexivity |]. split; [solve_events |].
           by apply tidy_app.
      * by eexists _, [EvRequest g (inl e)], _.
    + by eexists _, [EvRequest g (inl e)], _.
  - set (p := mkRequest POST login_url (session_proxies s)
                (Some (mkPayload email password (_extract_csrf (text page))))).
    assert (Hbase : forall a,
               tidy [EvRequest p a; EvRequest g (inr page)]).
    { intros a. split; [| split; [done | unfold logins, attempts; simpl; lia]].
      simpl. split; [| by repeat split].
      intros _. by exists page. }
    destruct (send env (EvRequest g (inr page) :: events s) p)
      as [e | resp] eqn:Hpost; simpl.
    + destruct (is_RequestException e); simpl.
      * destruct (attempt <? 1)%nat; simpl.
        -- call_rotate ok rot s3 Hrot Hev Ht.
           destruct ok; simpl.
           ++ eexists _, ([EvSleep 2] ++ rot ++
                          [EvRequest p (inl e); EvRequest g (inr page)]), _.
              split; [reflexivity |]. split; [solve_events |].
              apply tidy_app; [| by apply tidy_app].
              split; [simpl; done |]. split; [done |]. unfold logins, attempts; simpl; lia.
           ++ eexists _, (rot ++ [EvRequest p (inl e);
                                  EvRequest g (inr page)]), _.
              split; [reflexivity |]. split; [solve_events |].
              by apply tidy_app.
        -- by eexists _, [EvRequest p (inl e); EvRequest g (inr page)], _.
      * by eexists _, [EvRequest p (inl e); EvRequest g (inr page)], _.
    + destruct (status_code resp =? 200)%Z eqn:H200; simpl.
      * destruct (json_body resp) as [[ | b | z | str | l | d] |] eqn:Hjson;
          simpl;
          by eexists _, [EvRequest p (inr resp); EvRequest g (inr page)], _.
      * destruct ((status_code resp =? 403) || (status_code resp =? 429))%Z;
          simpl.
        -- call_rotate ok rot s3 Hrot Hev Ht.
           destruct ok; simpl;
             (eexists _, (rot ++ [EvRequest p (inr resp);
                                  EvRequest g (inr page)]), _;
              split; [reflexivity |]; split; [solve_events |];
              by apply tidy_app).
        -- by eexists _, [EvRequest p (inr resp); EvRequest g (inr page)], _.
Qed.

Lemma _get_auth_token_loop_tidy atts s :
  exists v new s',
    _get_auth_token_loop env email password atts s = (inr v, s') /\
    events s' = new ++ events s /\ tidy new.
Proof.
  revert s. induction atts as [| attempt rest IH]; intros s.
  - exists PyNone, [], s. split; [done |]. split; [done |].
    split; [done |]. split; [done |]. unfold logins, attempts; simpl; lia.
  - simpl. unfold bind.
    destruct (_get_auth_token_body_tidy attempt s)
      as ([v |] & new1 & s1 & -> & Hev1 & Ht1).
    + by exists v, new1, s1.
    + destruct (IH s1) as (v & new2 & s2 & -> & Hev2 & Ht2).
      exists v, (new2 ++ new1), s2.
      split; [done |]. split; [by rewrite Hev2, Hev1, app_assoc |].
      by apply tidy_app.
Qed.

Lemma check_credentials_tidy s :
  exists valid new s',
    check_credentials env email password s = (inr valid, s') /\
    events s' = new ++ events s /\ tidy new.
Proof.
  unfold check_credentials, _get_auth_token, bind.
  destruct (_get_auth_token_loop_tidy (seq 0 max_retries) s)
    as (v & new & s1 & -> & Hev & Ht).
  exists (truthy v), new, s1. split; [by destruct (truthy v) |]. done.
Qed.

End CheckTraffic.

(** X3. During a check the credentials are only ever posted right after the
    sign-in page was fetched, in the same attempt and through the same
    proxies, and the request carries the email and password given together
    with what the extractor made of that very page (the placeholder when it
    found no marker).  A check makes at most 2 attempts, posts at most once
    per attempt and draws no random number. *)
Theorem check_posts_follow_the_page (env : Env) (email password : string)
    (s : State) :
  exists valid new s',
    check_credentials env email password s = (inr valid, s') /\
    events s' = new ++ events s /\
    login_follows_page _extract_csrf email password new /\
    logins new <= attempts new /\ attempts new <= 2 /\
    draws new = 0.
Proof.
  destruct (check_credentials_tidy env email password s)
    as (valid & new & s' & Hrun & Hev & Hl & Hd & Hn).
  destruct (check_credentials_spec env email password s)
    as (valid' & new' & s'' & Hrun' & Hev' & _ & Hmax & _).
  rewrite Hrun in Hrun'. injection Hrun' as <- <-.
  rewrite Hev in Hev'. apply app_inv_tail in Hev'. subst new'.
  exists valid, new, s'. by repeat split.
Qed.

(** ** The verdicts of a batch *)

Section BulkVerdicts.

Variable env : Env.

Lemma upkeep_carries email password evs :
  upkeep evs -> Forall (carries email password) evs.
Proof.
  unfold upkeep. intros Hup. eapply List.Forall_impl; [| exact Hup].
  intros e He.
  destruct e as [ | r ans | | ]; try done. simpl in *.
  intros Hurl. rewrite Hurl in He.
  apply orb_false_iff in He as [_ He]. by rewrite String.eqb_refl in He.
Qed.

Lemma login_follows_page_carries extract email password evs :
  login_follows_page extract email password evs ->
  Forall (carries email password) evs.
Proof.
  induction evs as [| e evs IH]; [by constructor |].
  simpl. intros [He Hrest]. constructor; [| by apply IH].
  destruct e as [ | r ans | | ]; try done. simpl.
  intros Hurl. destruct (He Hurl) as (page & _ & ->). by eexists.
Qed.

(** [check_single] with the verdict, the bound on the attempts and the pair
    its login requests carry. *)
Lemma check_single_verdict email password s :
  exists valid new s',
    check_single env email password s
    = (inr (mkResult email password valid (proxy s')), s') /\
    events s' = new ++ events s /\
    use_proxy s' = use_proxy s /\
    valid = existsb is_success new /\
    attempts new <= max_retries /\
    Forall (carries email password) new.
Proof.
  destruct (check_credentials_spec env email password s)
    as (valid & new & s1 & Hrun & Hev & (Hu & _) & Hn & Hval & _).
  destruct (check_credentials_tidy env email password s)
    as (valid' & new' & s1' & Hrun' & Hev' & (Hpage & _)).
  rewrite Hrun in Hrun'. injection Hrun' as <- <-.
  rewrite Hev in Hev'. apply app_inv_tail in Hev'. subst new'.
  apply login_follows_page_carries in Hpage.
  unfold check_single, bind. rewrite Hrun. unfold get_state, modify, ret.
  destruct valid.
  - by exists true, new,
      (append_valid (mkResult email password true (proxy s1)) s1).
  - by exists false, new,
      (append_invalid (mkResult email password false (proxy s1)) s1).
Qed.

(** The batch loop on pairs, with the stretch of the log of each pair: the
    check, then the pacing, which sends nothing of the login flow. *)
Lemma check_bulk_loop_verdicts credentials :
  Forall is_pair credentials ->
  forall results s,
  exists more runs s',
    check_bulk_loop env credentials results s = (inr (results ++ more), s') /\
    events s' = batch_log runs ++ events s /\
    Forall2 judged more runs.
Proof.
  induction 1 as [| cred rest [[e He] [pw Hpw]] Hrest IH]; intros results s.
  - exists [], [], s. simpl. rewrite app_nil_r. by repeat split.
  - simpl. unfold bind at 1. unfold subscript at 1. rewrite He. unfold ret at 1.
    unfold bind at 1. unfold subscript at 1. rewrite Hpw. unfold ret at 1.
    unfold bind at 1.
    destruct (check_single_verdict e pw s)
      as (valid & new1 & s1 & -> & Hev1 & Hu1 & Hval & Hn1 & Hc1).
    unfold bind at 1. unfold get_state at 1.
    assert (Hpace : exists new2 s2,
               (if use_proxy s1
                then bind (random_random env)
                       (fun q => if negb (Qle_bool q (binary64 (7 # 10)))
                                 then bind (_rotate_proxy env true)
                                        (fun _ => ret tt)
                                 else ret tt)
                else ret tt) s1 = (inr tt, s2) /\
               events s2 = new2 ++ events s1 /\ upkeep new2).
    { destruct (use_proxy s1);
        [| exists [], s1; split; [done |]; split; [done | constructor]].
      unfold bind, random_random. simpl.
      destruct (negb _).
      - match goal with |- context [_rotate_proxy env true ?st] =>
          destruct (_rotate_proxy_spec env true st)
            as (ok & rot & s2 & -> & Hev2 & _ & Hup & _) end.
        exists (rot ++ [EvRandom (random env (events s1))]), s2.
        split; [done |].
        split; [by rewrite Hev2, <- app_assoc |].
        apply upkeep_app; [done | by repeat constructor].
      - eexists [EvRandom (random env (events s1))], _.
        split; [reflexivity |]. split; [done | by repeat constructor]. }
    destruct Hpace as (new2 & s2 & Hpace & Hev2 & Hup).
    unfold bind at 1. rewrite Hpace.
    unfold bind at 1. unfold random_uniform, random_random, bind at 1. simpl.
    unfold bind at 1. unfold sleep at 1.
    match goal with |- context [check_bulk_loop env rest ?rs ?st] =>
      destruct (IH rs st) as (more & runs & s3 & -> & Hev3 & Hj) end.
    exists (mkResult e pw valid (proxy s1) :: more),
      (([EvSleep (uniform 1 3 (random env (events s2)));
         EvRandom (random env (events s2))] ++ new2 ++ new1) :: runs), s3.
    split; [by rewrite <- app_assoc |].
    split.
    { rewrite Hev3, batch_log_cons. simpl. rewrite Hev2, Hev1.
      rewrite <- !app_assoc. simpl. by rewrite <- ?app_assoc. }
    constructor; [| done]. split; [| split; [| split]]; simpl.
    + by rewrite existsb_app,
        (no_login_200_no_success _ (upkeep_no_login_200 _ Hup)).
    + change (attempts (?a :: ?b :: ?l)) with (attempts l).
      by rewrite attempts_app, (upkeep_attempts _ Hup).
    + repeat (constructor; [done |]).
      apply Forall_app. split; [by apply upkeep_carries | done].
    + by eexists _, _, _.
Qed.

End BulkVerdicts.

(** C1. On a list of credential pairs [check_bulk] never raises; it returns
    one result per pair, in the order of the input, each carrying the email
    and password of its pair.  The log of the call is made of one stretch per
    pair, which ends with the sleep after that pair and whose login requests
    carry that pair.  The flag of each result is true exactly when the
    stretch of its own pair holds the success signal: a pair whose attempts,
    at most [max_retries] of them, all failed is reported with the flag
    false.  The results are exactly what the call adds to the two
    collections, split by their flag. *)
Theorem check_bulk_one_result_per_pair (env : Env)
    (credentials : list (gmap string string)) (s : State)
    (Hpairs : Forall is_pair credentials) :
  exists results runs s',
    check_bulk env credentials s = (inr results, s') /\
    List.length results = List.length credentials /\
    Forall2 reports credentials results /\
    events s' = batch_log runs ++ events s /\
    Forall2 judged results runs /\
    valid_creds s' = valid_creds s ++ List.filter r_valid results /\
    invalid_creds s'
    = invalid_creds s ++ List.filter (fun r => negb (r_valid r)) results.
Proof.
  destruct (check_bulk_loop_spec env credentials [] s)
    as (x & results & s' & Hrun & _ & Hv & Hi & [[-> Hrep] | [_ Hnot]]);
    [| done].
  destruct (check_bulk_loop_verdicts env credentials Hpairs [] s)
    as (more & runs & s'' & Hrun' & Hev & Hj).
  rewrite Hrun in Hrun'. injection Hrun' as <- <-.
  exists results, runs, s'. unfold check_bulk.
  split; [done |].
  split; [symmetry; by eapply Forall2_length |].
  done.
Qed.

Lemma check_bulk_one_result_per_pair_witness :
  exists results runs s',
    check_bulk Stub.accepts_a Stub.two_pairs (__init__ Stub.accepts_a false [])
    = (inr results, s') /\
    List.length results = List.length Stub.two_pairs /\
    Forall2 reports Stub.two_pairs results /\
    events s'
    = batch_log runs ++ events (__init__ Stub.accepts_a false []) /\
    Forall2 judged results runs /\
    valid_creds s'
    = valid_creds (__init__ Stub.accepts_a false [])
      ++ List.filter r_valid results /\
    invalid_creds s'
    = invalid_creds (__init__ Stub.accepts_a false [])
      ++ List.filter (fun r => negb (r_valid r)) results.
Proof.
  apply (check_bulk_one_result_per_pair Stub.accepts_a Stub.two_pairs
           (__init__ Stub.accepts_a false [])).
  repeat constructor; by eexists.
Defined.

(** With no proxy to be had and the network down every pair is still
    reported, with the flag false, with proxies on and off. *)
Example check_bulk_network_down :
  fst (check_bulk Stub.down Stub.two_pairs (__init__ Stub.down true []))
  = inr [mkResult "a@x.com" "p1" false None;
         mkResult "b@x.com" "p2" false None] /\
  fst (check_bulk Stub.down Stub.two_pairs (__init__ Stub.down false []))
  = inr [mkResult "a@x.com" "p1" false None;
         mkResult "b@x.com" "p2" false None].
Proof. by vm_compute. Qed.

(** The scenario of the two pairs: the first is accepted, the second cleanly
    rejected, each after one attempt, and each lands in its collection. *)
Example check_bulk_two_pairs :
  let run := check_bulk Stub.accepts_a Stub.two_pairs
               (__init__ Stub.accepts_a false []) in
  fst run = inr [mkResult "a@x.com" "p1" true None;
                 mkResult "b@x.com" "p2" false None] /\
  valid_creds (snd run) = [mkResult "a@x.com" "p1" true None] /\
  invalid_creds (snd run) = [mkResult "b@x.com" "p2" false None] /\
  attempts (events (snd run)) = 2.
Proof. by vm_compute. Qed.

(** ** The pacing of a batch *)

Section BulkTraffic.

Variable env : Env.

Lemma check_single_traffic email password s :
  exists r new s',
    check_single env email password s = (inr r, s') /\
    events s' = new ++ events s /\ draws new = 0 /\
    use_proxy s' = use_proxy s.
Proof.
  destruct (check_credentials_tidy env email password s)
    as (valid & new & s1 & Hrun & Hev & _ & Hd & _).
  destruct (check_credentials_spec env email password s)
    as (valid' & new' & s1' & Hrun' & _ & (Hu & _) & _).
  rewrite Hrun in Hrun'. injection Hrun' as <- <-.
  unfold check_single, bind. rewrite Hrun. unfold get_state, modify, ret.
  destruct valid; by eexists _, new, _.
Qed.

Lemma check_bulk_loop_traffic credentials :
  Forall is_pair credentials ->
  forall results s,
  exists out runs s',
    check_bulk_loop env credentials results s = (inr out, s') /\
    events s' = batch_log runs ++ events s /\
    use_proxy s' = use_proxy s /\
    List.length runs = List.length credentials /\
    Forall (paced (use_proxy s)) runs /\
    draws (batch_log runs)
    = (if use_proxy s then 2 else 1) * List.length credentials.
Proof.
  induction 1 as [| cred rest [[e He] [pw Hpw]] Hrest IH]; intros results s.
  - exists results, [], s. simpl. split; [done |]. split; [done |].
    split; [done |]. split; [done |]. split; [done |].
    by rewrite Nat.mul_0_r.
  - simpl. unfold bind at 1. unfold subscript at 1. rewrite He. unfold ret at 1.
    unfold bind at 1. unfold subscript at 1. rewrite Hpw. unfold ret at 1.
    unfold bind at 1.
    destruct (check_single_traffic e pw s)
      as (r & new1 & s1 & -> & Hev1 & Hd1 & Hu1).
    unfold bind at 1. unfold get_state at 1.
    assert (Hpace : exists new2 s2,
               (if use_proxy s1
                then bind (random_random env)
                       (fun q => if negb (Qle_bool q (binary64 (7 # 10)))
                                 then bind (_rotate_proxy env true)
                                        (fun _ => ret tt)
                                 else ret tt)
                else ret tt) s1 = (inr tt, s2) /\
               events s2 = new2 ++ events s1 /\
               use_proxy s2 = use_proxy s1 /\
               draws new2 = (if use_proxy s1 then 1 else 0)).
    { destruct (use_proxy s1) eqn:Hup; [| by exists [], s1].
      unfold bind, random_random. simpl.
      destruct (negb _).
      - match goal with |- context [_rotate_proxy env true ?st] =>
          destruct (_rotate_proxy_trace env true st)
            as (ok & rot & s2 & Hrot & Hev2 & Ht);
          destruct (_rotate_proxy_spec env true st)
            as (ok' & rot' & s2' & Hrot' & _ & (Hu2 & _) & _) end.
        rewrite Hrot in Hrot'. injection Hrot' as <- <-. rewrite Hrot.
        exists (rot ++ [EvRandom (random env (events s1))]), s2.
        split; [done |].
        split; [by rewrite Hev2, <- app_assoc |].
        split; [by rewrite Hu2 |].
        destruct (rotation_trace_counts rot Ht) as (_ & _ & Hd & _).
        rewrite draws_app, Hd. reflexivity.
      - eexists [EvRandom (random env (events s1))], _.
        by repeat split. }
    destruct Hpace as (new2 & s2 & Hpace & Hev2 & Hu2 & Hd2).
    unfold bind at 1. rewrite Hpace.
    unfold bind at 1. unfold random_uniform, random_random, bind at 1. simpl.
    unfold bind at 1. unfold sleep at 1.
    match goal with |- context [check_bulk_loop env rest ?rs ?st] =>
      destruct (IH rs st)
        as (out & runs & s3 & -> & Hev3 & Hu3 & Hlen & Hpaced & Hd3)
    end.
    simpl in Hev3, Hu3, Hpaced, Hd3.
    rewrite Hu2, Hu1 in Hpaced, Hd3.
    exists out,
      (([EvSleep (uniform 1 3 (random env (events s2)));
         EvRandom (random env (events s2))] ++ new2 ++ new1) :: runs), s3.
    split; [done |].
    split.
    { rewrite Hev3, batch_log_cons. simpl. rewrite Hev2, Hev1.
      rewrite <- !app_assoc. simpl. by rewrite <- ?app_assoc. }
    split; [congruence |].
    split; [simpl; by rewrite Hlen |].
    split.
    { constructor; [| done]. eexists _, _. split; [reflexivity |].
      by rewrite draws_app, Hd2, Hd1, Hu1, Nat.add_0_r. }
    rewrite batch_log_cons, !draws_app, Hd3, Hd2, Hd1, Hu1.
    change (draws [_; _]) with 1. simpl. destruct (use_proxy s); lia.
Qed.

End BulkTraffic.

(** ** Floats *)

Section Floats.

Local Open Scope Q_scope.

Lemma round_half_even_bounds (L H : Z) (y : Q) :
  inject_Z L <= y -> y <= inject_Z H ->
  (L <= round_half_even y <= H)%Z.
Proof.
  intros HL HH. unfold round_half_even.
  pose proof (Qfloor_le y) as Hf.
  assert (HLf : (L <= Qfloor y)%Z).
  { rewrite <- (Qfloor_Z L). by apply Qfloor_resp_le. }
  assert (HfH : (Qfloor y <= H)%Z).
  { rewrite <- (Qfloor_Z H). by apply Qfloor_resp_le. }
  assert (Hup : 0 < y - inject_Z (Qfloor y) -> (Qfloor y + 1 <= H)%Z).
  { intros Hpos. assert (inject_Z (Qfloor y) < inject_Z H) as Hlt by lra.
    rewrite <- Zlt_Qlt in Hlt. lia. }
  destruct (y - inject_Z (Qfloor y) ?= 1 # 2) eqn:Hc.
  - apply Qeq_alt in Hc. destruct (Z.even (Qfloor y)); [lia |].
    split; [lia |]. apply Hup. lra.
  - lia.
  - apply Qgt_alt in Hc. split; [lia |]. apply Hup. lra.
Qed.

Lemma ilog2_le (x : Q) :
  (ilog2 x <= Z.log2 (Z.abs (Qnum x)) - Z.log2 (Zpos (Qden x)))%Z.
Proof.
  unfold ilog2.
  repeat match goal with |- context [if ?b then _ else _] => destruct b end;
    lia.
Qed.

Lemma ilog2_small (B : Z) (x : Q) :
  (0 <= B)%Z -> - inject_Z B <= x -> x <= inject_Z B ->
  (ilog2 x <= Z.log2 B + 1)%Z.
Proof.
  intros HB Hlo Hhi. pose proof (ilog2_le x) as Hle.
  assert (Habs : (Z.abs (Qnum x) <= B * Zpos (Qden x))%Z).
  { destruct x as [n d]. unfold Qle in *. simpl in *. lia. }
  pose proof (Z.log2_le_mono _ _ Habs) as Hmono.
  pose proof (Z.log2_mul_above B (Zpos (Qden x)) HB ltac:(lia)) as Hmul.
  lia.
Qed.

(** Rounding to the nearest float never crosses an integer of moderate
    size: such integers are floats themselves. *)
Lemma binary64_bounds (B lo hi : Z) (x : Q) :
  (0 <= B)%Z -> (Z.log2 B < 51)%Z ->
  (- B <= lo)%Z -> (hi <= B)%Z ->
  inject_Z lo <= x -> x <= inject_Z hi ->
  inject_Z lo <= binary64 x /\ binary64 x <= inject_Z hi.
Proof.
  intros HB Hlog HloB HhiB Hlo Hhi.
  assert (He : (ilog2 x <= Z.log2 B + 1)%Z).
  { apply ilog2_small; [done | |].
    - rewrite <- inject_Z_opp. rewrite Zle_Qle in HloB. lra.
    - rewrite Zle_Qle in HhiB. lra. }
  unfold binary64.
  set (e := Z.max (ilog2 x - 52) (-1074)).
  assert (Hneg : (e <= 0)%Z) by lia.
  destruct (0 <=? e)%Z eqn:H0.
  - apply Z.leb_le in H0. replace e with 0%Z by lia.
    change (2 ^ 0)%Z with 1%Z.
    assert (Hx : x / inject_Z 1 == x) by (field).
    destruct (round_half_even_bounds lo hi (x / inject_Z 1)) as [H1 H2];
      [by rewrite Hx | by rewrite Hx |].
    rewrite Z.mul_1_r. by rewrite <- !Zle_Qle.
  - apply Z.leb_gt in H0.
    set (P := (2 ^ (- e))%Z).
    assert (HP : (0 < P)%Z) by (apply Z.pow_pos_nonneg; lia).
    destruct (round_half_even_bounds (lo * P) (hi * P) (x * inject_Z P))
      as [H1 H2].
    { rewrite inject_Z_mult. apply Qmult_le_compat_r; [done |].
      rewrite <- (Zle_Qle 0). lia. }
    { rewrite inject_Z_mult. apply Qmult_le_compat_r; [done |].
      rewrite <- (Zle_Qle 0). lia. }
    rewrite Qred_correct. unfold Qle. simpl.
    rewrite Z2Pos.id by done. lia.
Qed.

(** [random.uniform(1, 3)] stays between 1 and 3 when the generator stays
    within 0 and 1. *)
Lemma uniform_1_3_bounds (r : Q) :
  0 <= r -> r < 1 -> 1 <= uniform 1 3 r /\ uniform 1 3 r <= 3.
Proof.
  intros H0 H1. unfold uniform.
  destruct (binary64_bounds 3 0 2 (inject_Z (3 - 1) * r)) as [Ha Hb];
    try done.
  { change (inject_Z (3 - 1)) with 2. change (inject_Z 0) with 0. lra. }
  { change (inject_Z (3 - 1)) with 2. change (inject_Z 2) with 2. lra. }
  apply (binary64_bounds 3 1 3); try done.
  - change (inject_Z 0) with 0 in Ha. change (inject_Z 1) with 1. lra.
  - change (inject_Z 2) with 2 in Hb. change (inject_Z 1) with 1.
    change (inject_Z 3) with 3. lra.
Qed.

End Floats.

(** The upper end is reached: for the largest float below 1 the exact value
    [3 - 2^-52] lies halfway between two floats and is rounded up to 3, so
    the sleep is not always shorter than 3 seconds. *)
Remark uniform_1_3_reaches_3 : uniform 1 3 (1 - (1 # 2 ^ 53)) = 3%Q.
Proof. by vm_compute. Qed.

(** X4. A batch over credential pairs never raises, and its log is made of
    one stretch per pair.  Every stretch, the last one included, ends with
    the pacing: a draw, then a sleep of [random.uniform(1, 3)] worked out
    from that draw, which lasts between 1 and 3 seconds, both ends
    included, when the generator stays within 0 and 1.  Before it the pair
    drew once more when proxies are on, to decide on a forced rotation, and
    not at all when they are off: in all one draw per pair with proxies off
    and two with proxies on. *)
Theorem check_bulk_pacing (env : Env) (credentials : list (gmap string string))
    (s : State) (Hpairs : Forall is_pair credentials) :
  exists results runs s',
    check_bulk env credentials s = (inr results, s') /\
    events s' = batch_log runs ++ events s /\
    List.length runs = List.length credentials /\
    Forall (paced (use_proxy s)) runs /\
    draws (batch_log runs)
    = (if use_proxy s then 2 else 1) * List.length credentials /\
    forall r, (0 <= r)%Q -> (r < 1)%Q ->
              (1 <= uniform 1 3 r)%Q /\ (uniform 1 3 r <= 3)%Q.
Proof.
  destruct (check_bulk_loop_traffic env credentials Hpairs [] s)
    as (out & runs & s' & Hrun & Hev & _ & Hlen & Hpaced & Hd).
  exists out, runs, s'. unfold check_bulk.
  split; [done |]. split; [done |]. split; [done |]. split; [done |].
  split; [done |]. apply uniform_1_3_bounds.
Qed.

Lemma check_bulk_pacing_witness :
  exists results runs s',
    check_bulk Stub.accepts_a Stub.two_pairs (__init__ Stub.accepts_a true [])
    = (inr results, s') /\
    events s' = batch_log runs ++ events (__init__ Stub.accepts_a true []) /\
    List.length runs = List.length Stub.two_pairs /\
    Forall (paced (use_proxy (__init__ Stub.accepts_a true []))) runs /\
    draws (batch_log runs)
    = (if use_proxy (__init__ Stub.accepts_a true []) then 2 else 1)
      * List.length Stub.two_pairs /\
    forall r, (0 <= r)%Q -> (r < 1)%Q ->
              (1 <= uniform 1 3 r)%Q /\ (uniform 1 3 r <= 3)%Q.
Proof.
  apply (check_bulk_pacing Stub.accepts_a Stub.two_pairs
           (__init__ Stub.accepts_a true [])).
  repeat constructor; by eexists.
Defined.

(** ** The extractor of the strict-proxy file *)

Section StrictExtractor.

Lemma substring_all s : String.substring 0 (String.length s) s = s.
Proof. induction s as [| c s IH]; [done |]. simpl. by rewrite IH. Qed.

(** A text that starts with [sep] is [sep] followed by what [partition]
    cuts off. *)
Lemma prefix_cut sep :
  forall s,
    String.prefix sep s = true ->
    s = sep +:+ String.substring (String.length sep)
                  (String.length s - String.length sep) s.
Proof.
  induction sep as [| a sep IH]; intros s.
  - intros _. simpl. rewrite Nat.sub_0_r, substring_all. by destruct s.
  - destruct s as [| b s]; [done |]. simpl.
    destruct (ascii_dec a b) as [-> |]; [| done].
    intros H.
    transitivity
      (String b (sep +:+ String.substring (String.length sep)
                           (String.length s - String.length sep) s));
      [by rewrite <- (IH s H) | reflexivity].
Qed.

Lemma prefix_app sep rest : String.prefix sep (sep +:+ rest) = true.
Proof.
  induction sep as [| a sep IH]; [by destruct rest |].
  change (String a sep +:+ rest) with (String a (sep +:+ rest)). simpl.
  by destruct (ascii_dec a a).
Qed.

Lemma cut_app sep rest :
  String.substring (String.length sep)
    (String.length (sep +:+ rest) - String.length sep) (sep +:+ rest)
  = rest.
Proof.
  induction sep as [| a sep IH].
  - change (EmptyString +:+ rest) with rest. simpl.
    rewrite Nat.sub_0_r. apply substring_all.
  - change (String a sep +:+ rest) with (String a (sep +:+ rest)). simpl.
    exact IH.
Qed.

Lemma partition_sound sep :
  forall s a b, partition sep s = Some (a, b) -> s = a +:+ sep +:+ b.
Proof.
  induction s as [| c s IH]; intros a b.
  - change (partition sep EmptyString)
      with (if String.prefix sep EmptyString
            then Some (EmptyString,
                       String.substring (String.length sep)
                         (String.length EmptyString - String.length sep)
                         EmptyString)
            else None).
    destruct (String.prefix sep EmptyString) eqn:Hp; [| done].
    intros [= <- <-]. by apply prefix_cut.
  - change (partition sep (String c s))
      with (if String.prefix sep (String c s)
            then Some (EmptyString,
                       String.substring (String.length sep)
                         (String.length (String c s) - String.length sep)
                         (String c s))
            else match partition sep s with
                 | Some (a, b) => Some (String c a, b)
                 | None => None
                 end).
    destruct (String.prefix sep (String c s)) eqn:Hp.
    + intros [= <- <-]. by apply prefix_cut.
    + destruct (partition sep s) as [[a' b'] |]; [| done].
      intros [= <- <-]. by rewrite (IH a' b' eq_refl).
Qed.

Lemma append_cons c s t : String c s +:+ t = String c (s +:+ t).
Proof. reflexivity. Qed.

Lemma append_nil_r s : s +:+ EmptyString = s.
Proof. induction s as [| c s IH]; [done |]. by rewrite append_cons, IH. Qed.

Lemma append_assoc s t u : (s +:+ t) +:+ u = s +:+ t +:+ u.
Proof. induction s as [| c s IH]; [done |]. by rewrite !append_cons, IH. Qed.

Lemma prefix_mono sep :
  forall x y,
    String.prefix sep x = true -> String.prefix sep (x +:+ y) = true.
Proof.
  induction sep as [| a sep IH]; intros x y.
  - intros _. by destruct (x +:+ y).
  - destruct x as [| b x]; [done |]. rewrite append_cons. simpl.
    destruct (ascii_dec a b); [apply IH | done].
Qed.

Lemma prefix_nil sep :
  sep <> EmptyString -> String.prefix sep EmptyString = false.
Proof. by destruct sep. Qed.

Lemma partition_unfold sep c s :
  partition sep (String c s)
  = if String.prefix sep (String c s)
    then Some (EmptyString,
               String.substring (String.length sep)
                 (String.length (String c s) - String.length sep)
                 (String c s))
    else match partition sep s with
         | Some (a, b) => Some (String c a, b)
         | None => None
         end.
Proof. reflexivity. Qed.

Lemma partition_nil sep :
  partition sep EmptyString
  = if String.prefix sep EmptyString
    then Some (EmptyString,
               String.substring (String.length sep)
                 (String.length EmptyString - String.length sep)
                 EmptyString)
    else None.
Proof. reflexivity. Qed.

Lemma partition_prefix sep s :
  String.prefix sep s = true ->
  partition sep s
  = Some (EmptyString,
          String.substring (String.length sep)
            (String.length s - String.length sep) s).
Proof.
  intros H. destruct s as [| c s].
  - by rewrite partition_nil, H.
  - by rewrite partition_unfold, H.
Qed.

(** What comes before the first occurrence holds no occurrence. *)
Lemma partition_first sep :
  sep <> EmptyString ->
  forall s a b, partition sep s = Some (a, b) -> partition sep a = None.
Proof.
  intros Hsep. induction s as [| c s IH]; intros a b.
  - by rewrite partition_nil, (prefix_nil sep Hsep).
  - rewrite partition_unfold.
    destruct (String.prefix sep (String c s)) eqn:Hp.
    + intros [= <- <-]. by rewrite partition_nil, prefix_nil.
    + destruct (partition sep s) as [[a' b'] |] eqn:Hs; [| done].
      intros [= <- <-]. rewrite partition_unfold.
      destruct (String.prefix sep (String c a')) eqn:Hp'.
      * apply (prefix_mono _ _ (sep +:+ b')) in Hp'.
        rewrite (partition_sound _ _ _ _ Hs), <- append_cons in Hp.
        congruence.
      * by rewrite (IH a' b' eq_refl).
Qed.

Lemma split_0_clean sep s :
  sep <> EmptyString -> partition sep (split_0 sep s) = None.
Proof.
  intros Hsep. unfold split_0.
  destruct (partition sep s) as [[a b] |] eqn:Hs; [| done].
  by apply (partition_first sep Hsep s a b).
Qed.

Lemma split_0_head sep s :
  exists tail, s = split_0 sep s +:+ tail.
Proof.
  unfold split_0. destruct (partition sep s) as [[a b] |] eqn:Hs.
  - exists (sep +:+ b). by apply partition_sound.
  - exists EmptyString. by rewrite append_nil_r.
Qed.

Lemma lacks_partition c :
  forall s, partition (String c EmptyString) s = None -> lacks c s = true.
Proof.
  induction s as [| c' s IH]; [done |].
  rewrite partition_unfold. simpl String.prefix.
  destruct (ascii_dec c c') as [<- | Hne].
  - by destruct s.
  - destruct (partition (String c EmptyString) s) as [[a b] |]; [done |].
    intros _. simpl. rewrite (IH eq_refl).
    by destruct (Ascii.eqb_spec c c').
Qed.

Lemma prefix_cons a s b t :
  String.prefix (String a s) (String b t)
  = if ascii_dec a b then String.prefix s t else false.
Proof. reflexivity. Qed.

(** The marker does not overlap itself: an occurrence that starts inside
    [pre] lies inside [pre]. *)
Lemma marker_no_straddle pre rest :
  String.prefix csrf_marker (pre +:+ csrf_marker +:+ rest) = true ->
  pre = EmptyString \/ String.prefix csrf_marker pre = true.
Proof.
  let m := eval vm_compute in csrf_marker in change csrf_marker with m.
  intros H.
  destruct pre as [| c pre]; [by left | right].
  do 7 (rewrite append_cons, prefix_cons in H;
        match type of H with
        | context [ascii_dec ?a ?b] =>
            destruct (ascii_dec a b) as [<- |]; [| done]
        end;
        destruct pre as [| ? pre]; [by vm_compute in H |]).
  rewrite append_cons, prefix_cons in H.
  match type of H with
  | context [ascii_dec ?a ?b] =>
      destruct (ascii_dec a b) as [<- |]; [| done]
  end.
  rewrite !prefix_cons.
  repeat match goal with
         | |- context [ascii_dec ?a ?a] =>
             destruct (ascii_dec a a); [| done]
         end.
  by destruct pre.
Qed.

Lemma partition_at_marker :
  forall pre rest,
    contains csrf_marker pre = false ->
    partition csrf_marker (pre +:+ csrf_marker +:+ rest) = Some (pre, rest).
Proof.
  unfold contains. induction pre as [| c pre IH]; intros rest.
  - intros _. change (EmptyString +:+ csrf_marker +:+ rest)
      with (csrf_marker +:+ rest).
    rewrite partition_prefix by apply prefix_app. by rewrite cut_app.
  - rewrite partition_unfold.
    destruct (String.prefix csrf_marker (String c pre)) eqn:Hp; [done |].
    destruct (partition csrf_marker pre) as [[a b] |] eqn:Hs; [done |].
    intros _. rewrite append_cons, partition_unfold, <- append_cons.
    destruct (String.prefix csrf_marker
                (String c pre +:+ csrf_marker +:+ rest)) eqn:Hq.
    + apply marker_no_straddle in Hq as [? | ?]; congruence.
    + by rewrite IH.
Qed.

(** No occurrence of the marker starts inside a token that holds no double
    quote, unless the token ends with the marker's first five characters. *)
Lemma token_no_marker t post :
  lacks "034" t = true ->
  String.eqb "_csrf" t = false ->
  String.prefix csrf_marker (t +:+ dq +:+ post) = false.
Proof.
  let m := eval vm_compute in csrf_marker in change csrf_marker with m.
  intros Hq Hend.
  destruct t as [| c t]; [by vm_compute |].
  do 4 (rewrite append_cons, prefix_cons;
        match goal with
        | |- context [ascii_dec ?a ?b] =>
            destruct (ascii_dec a b) as [<- |]; [| done]
        end;
        destruct t as [| ? t]; [by vm_compute |]).
  rewrite append_cons, prefix_cons.
  match goal with
  | |- context [ascii_dec ?a ?b] =>
      destruct (ascii_dec a b) as [<- |]; [| done]
  end.
  destruct t as [| c t]; [by vm_compute in Hend |].
  rewrite append_cons, prefix_cons.
  match goal with
  | |- context [ascii_dec ?a ?b] =>
      destruct (ascii_dec a b) as [<- |]; [| done]
  end.
  by vm_compute in Hq.
Qed.

Lemma split_0_marker_keeps post :
  forall tok,
    lacks "034" tok = true ->
    ends_with "_csrf" tok = false ->
    exists r, split_0 csrf_marker (tok +:+ dq +:+ post) = tok +:+ dq +:+ r.
Proof.
  induction tok as [| c tok IH]; intros Hq Hend.
  - change (EmptyString +:+ dq +:+ post) with (String "034" post).
    unfold split_0. rewrite partition_unfold.
    replace (String.prefix csrf_marker (String "034" post)) with false
      by (by vm_compute).
    destruct (partition csrf_marker post) as [[a b] |]; by eexists.
  - simpl in Hq, Hend.
    apply andb_prop in Hq as [Hc Hq].
    apply orb_false_elim in Hend as [Hhere Hend].
    destruct (IH Hq Hend) as [r Hr]. unfold split_0 in *.
    rewrite append_cons, partition_unfold, <- append_cons.
    rewrite (token_no_marker (String c tok) post); [| | done].
    + destruct (partition csrf_marker (tok +:+ dq +:+ post)) as [[a b] |].
      * exists r. by rewrite Hr.
      * by exists post.
    + simpl. by rewrite Hc, Hq.
Qed.

Lemma split_0_quote tok r :
  lacks "034" tok = true -> split_0 dq (tok +:+ dq +:+ r) = tok.
Proof.
  unfold split_0, dq. induction tok as [| c tok IH]; intros Hq.
  - change (EmptyString +:+ String "034" EmptyString +:+ r)
      with (String "034" r).
    rewrite partition_unfold, prefix_cons.
    destruct (ascii_dec "034" "034"); [by destruct r | done].
  - simpl in Hq. apply andb_prop in Hq as [Hc Hq].
    rewrite append_cons, partition_unfold, prefix_cons.
    destruct (ascii_dec "034" c) as [<- | _]; [done |].
    specialize (IH Hq).
    destruct (partition (String "034" EmptyString)
                (tok +:+ String "034" EmptyString +:+ r)) as [[a b] |];
      by rewrite IH.
Qed.

End StrictExtractor.

(** X5. The token the strict-proxy checker's [_extract_csrf] returns never
    holds a double quote.  Without the marker in the page it is the
    placeholder; with the marker, the page reads: a text free of the marker,
    the marker, the returned token, and the rest. *)
Theorem strict_extract_csrf_shape html :
  lacks "034" (KrogerStrict._extract_csrf html) = true /\
  (contains csrf_marker html = false ->
   KrogerStrict._extract_csrf html = "dummy_csrf_token") /\
  (contains csrf_marker html = true ->
   exists pre tail,
     html = pre +:+ csrf_marker +:+ KrogerStrict._extract_csrf html +:+ tail /\
     contains csrf_marker pre = false).
Proof.
  assert (Hdq : dq <> EmptyString) by done.
  assert (Hm : csrf_marker <> EmptyString) by done.
  unfold KrogerStrict._extract_csrf, split_1, contains.
  destruct (partition csrf_marker html) as [[pre rest] |] eqn:Hp.
  - split; [| split; [done |]].
    + apply lacks_partition, (split_0_clean dq _ Hdq).
    + intros _.
      destruct (split_0_head csrf_marker rest) as [t1 H1].
      destruct (split_0_head dq (split_0 csrf_marker rest)) as [t2 H2].
      exists pre, (t2 +:+ t1). split.
      * rewrite <- (append_assoc _ t2 t1), <- H2, <- H1.
        by apply partition_sound.
      * by rewrite (partition_first _ Hm _ _ _ Hp).
  - by repeat split.
Qed.

(** X6. Round trip of the strict-proxy checker's [_extract_csrf]: from a
    page that reads a text free of the marker, the marker, a token, a double
    quote and anything, the token comes back, provided the token holds no
    double quote and does not end with [_csrf]. *)
Theorem strict_extract_csrf_round_trip pre tok post :
  contains csrf_marker pre = false ->
  lacks "034" tok = true ->
  ends_with "_csrf" tok = false ->
  KrogerStrict._extract_csrf (pre +:+ csrf_marker +:+ tok +:+ dq +:+ post)
  = tok.
Proof.
  intros Hpre Hq Hend.
  unfold KrogerStrict._extract_csrf, split_1, contains.
  rewrite (partition_at_marker pre _ Hpre).
  destruct (split_0_marker_keeps post tok Hq Hend) as [r ->].
  by apply split_0_quote.
Qed.

Lemma strict_extract_csrf_round_trip_witness :
  KrogerStrict._extract_csrf
    ("<script>{" +:+ dq +:+ csrf_marker +:+ "a1b2-c3_d4" +:+ dq +:+ "}</script>")
  = "a1b2-c3_d4".
Proof.
  exact (strict_extract_csrf_round_trip ("<script>{" +:+ dq) "a1b2-c3_d4"
           "}</script>" eq_refl eq_refl eq_refl).
Defined.

(** A token that ends with [_csrf], when the page goes on with a colon and
    a double quote, comes back without that ending. *)
Remark strict_extract_csrf_cuts_ending :
  KrogerStrict._extract_csrf
    (csrf_marker +:+ "abc_csrf" +:+ dq +:+ ":" +:+ dq +:+ "x" +:+ dq)
  = "abc".
Proof. reflexivity. Qed.

(** ** What the patterns of the final checker capture *)

Section CaptureClass.

Import Re.

Lemma str_append_nil_r s : s +:+ EmptyString = s.
Proof.
  induction s as [| c s IH]; [done |].
  change (String c s +:+ EmptyString) with (String c (s +:+ EmptyString)).
  by rewrite IH.
Qed.

Lemma str_append_snoc acc c w :
  (acc +:+ String c EmptyString) +:+ w = acc +:+ String c w.
Proof.
  induction acc as [| a acc IH]; [done |].
  change ((String a acc +:+ String c EmptyString) +:+ w)
    with (String a ((acc +:+ String c EmptyString) +:+ w)).
  by rewrite IH.
Qed.

(** A repetition hands over what it was given followed by characters of its
    class. *)
Lemma rep_class {R : Type} k greedy inp :
  forall min acc (cont : string -> string -> option R) res,
    rep k greedy min inp acc cont = Some res ->
    exists w rest, cont (acc +:+ w) rest = Some res /\ all_in k w = true.
Proof.
  assert (Hstop : forall acc (cont : string -> string -> option R) rest res,
             cont acc rest = Some res ->
             exists w rest, cont (acc +:+ w) rest = Some res /\
                            all_in k w = true).
  { intros acc cont rest res H. exists EmptyString, rest.
    by rewrite str_append_nil_r. }
  assert (Hmore : forall c acc (cont : string -> string -> option R) res,
             in_cls k c = true ->
             (exists w rest,
                cont ((acc +:+ String c EmptyString) +:+ w) rest = Some res /\
                all_in k w = true) ->
             exists w rest, cont (acc +:+ w) rest = Some res /\
                            all_in k w = true).
  { intros c acc cont res Hc (w & rest & H & Hw).
    exists (String c w), rest. rewrite <- str_append_snoc.
    split; [done |]. simpl. by rewrite Hc. }
  induction inp as [| c inp IH]; intros min acc cont res; simpl.
  - destruct (min =? 0)%nat; [by eauto | done].
  - destruct (min =? 0)%nat.
    + destruct greedy.
      * destruct (in_cls k c) eqn:Hc.
        -- destruct (rep k true (pred min) inp _ cont) eqn:Hrun.
           ++ intros [= <-]. by eauto.
           ++ by eauto.
        -- by eauto.
      * destruct (cont acc (String c inp)) eqn:Hhere.
        -- intros [= <-]. by eauto.
        -- destruct (in_cls k c) eqn:Hc; [by eauto | done].
    + destruct (in_cls k c) eqn:Hc; [by eauto | done].
Qed.

(** What a pattern captures, when its groups repeat [[^q]], holds no [q]. *)
Lemma run_class {R : Type} q r :
  groups_except q r = true ->
  forall inp (cont : string -> string -> option string -> option R) res,
    run r inp cont = Some res ->
    exists used rest cap,
      cont used rest cap = Some res /\
      forall c, cap = Some c -> all_in (Except q) c = true.
Proof.
  induction r as [l | k min greedy | r IH | a IHa b IHb];
    intros Hg inp cont res; simpl.
  - destruct (strip l inp) as [rest |]; [| done]. intros H.
    by exists l, rest, None.
  - intros (w & rest & H & _)%rep_class.
    by exists (EmptyString +:+ w), rest, None.
  - destruct r as [ | [ | | c] min greedy | | ]; try done.
    simpl in Hg. apply Ascii.eqb_eq in Hg as ->. simpl.
    intros (w & rest & H & Hw)%rep_class.
    exists w, rest, (Some w). split; [done |]. by intros c [= <-].
  - simpl in Hg. apply andb_prop in Hg as [Ha Hb].
    intros (u1 & r1 & c1 & (u2 & r2 & c2 & H & H2)%(IHb Hb) & H1)%(IHa Ha).
    eexists _, _, _. split; [exact H |].
    destruct c2 as [c2 |]; [by apply H2 | by apply H1].
Qed.

Lemma search_class q r html token :
  groups_except q r = true ->
  search r html = Some (Some token) ->
  all_in (Except q) token = true.
Proof.
  intros Hg. induction html as [| c html IH]; simpl.
  - destruct (match_here r EmptyString) as [cap |] eqn:Hm; [| done].
    intros [= ->]. unfold match_here in Hm.
    apply (run_class q r Hg) in Hm as (_ & _ & cap & [= ->] & H). by apply H.
  - destruct (match_here r (String c html)) as [cap |] eqn:Hm; [| done].
    intros [= ->]. unfold match_here in Hm.
    apply (run_class q r Hg) in Hm as (_ & _ & cap & [= ->] & H). by apply H.
Qed.

Lemma all_in_lacks q s : all_in (Except q) s = lacks q s.
Proof.
  induction s as [| c s IH]; [done |]. simpl.
  by rewrite IH, Ascii.eqb_sym.
Qed.

Lemma _extract_csrf_loop_sound ps html token :
  Forall (fun r => groups_except "034" r = true) ps ->
  KrogerFinal._extract_csrf_loop ps html = Some token ->
  sound_token token.
Proof.
  induction 1 as [| r ps Hr _ IH]; [done |]. simpl.
  destruct (search r html) as [[t |] |] eqn:Hs; [| done | done].
  destruct (10 <? String.length t)%nat eqn:Hlen; [| done].
  intros [= <-]. split; [by apply Nat.ltb_lt |].
  rewrite <- all_in_lacks. by apply (search_class _ r html).
Qed.

(** A token the final extractor returns is longer than 10 characters and
    holds no double quote. *)
Lemma _extract_csrf_sound html token :
  KrogerFinal._extract_csrf html = Some token -> sound_token token.
Proof.
  apply _extract_csrf_loop_sound. by repeat constructor.
Qed.

End CaptureClass.

(** ** The login flow of the final checker *)

Section FinalFlow.

Variable env : Env.
Variables email password : string.

Local Abbreviation flog := (final_log email password).

Lemma carried_tokens_app a b :
  carried_tokens (a ++ b) = carried_tokens a ++ carried_tokens b.
Proof. unfold carried_tokens. by rewrite omap_app. Qed.

Lemma flog_app a b : flog a -> flog b -> flog (a ++ b).
Proof.
  intros (Ha1 & Ha2 & Ha3 & Ha4) (Hb1 & Hb2 & Hb3 & Hb4). unfold final_log.
  rewrite carried_tokens_app, draws_app, logins_app, attempts_app.
  split; [by apply login_follows_page_app |].
  split; [by apply Forall_app |]. split; lia.
Qed.

Lemma rotation_trace_no_tokens evs :
  rotation_trace evs -> carried_tokens evs = [].
Proof. unfold carried_tokens. by induction 1. Qed.

Lemma rotation_trace_no_final_success evs :
  rotation_trace evs -> existsb is_final_success evs = false.
Proof.
  induction 1 as [| e rest _ IH | p rest Hp _ IH | p a rest Hp _ IH];
    simpl; try done.
  by destruct a.
Qed.

Lemma flog_rotation evs : rotation_trace evs -> flog evs.
Proof.
  intros Ht. destruct (rotation_trace_counts evs Ht) as (_ & Ha & Hd & _).
  split; [by apply rotation_trace_no_login |].
  split; [by rewrite rotation_trace_no_tokens |].
  split; [done |]. rewrite (rotation_trace_no_logins evs Ht). lia.
Qed.

Lemma final_rotate_proxy_trace strict s :
  exists ok new s',
    KrogerFinal._rotate_proxy env strict s = (inr ok, s') /\
    events s' = new ++ events s /\ rotation_trace new.
Proof.
  rewrite final_rotate_proxy_same. apply _rotate_proxy_trace.
Qed.

Ltac frun_body :=
  unfold KrogerFinal._get_auth_token_body, try_except, bind, session_get,
    session_post, session_request, get_state, ret, response_json, py_get,
    raise, sleep, modify; simpl.

Ltac fcall_rotate ok rot s3 Hrot Hev Ht :=
  match goal with
  | |- context [KrogerFinal._rotate_proxy env ?b ?st] =>
      destruct (final_rotate_proxy_trace b st)
        as (ok & rot & s3 & Hrot & Hev & Ht);
      rewrite Hrot; simpl
  end.

Ltac fsolve_events :=
  simpl;
  repeat match goal with H : events _ = _ |- _ => rewrite H end;
  simpl; rewrite <- ?app_assoc; reflexivity.

Ltac fsolve_log :=
  repeat first
    [ assumption
    | apply flog_rotation; assumption
    | match goal with
      | |- final_log _ _ (_ ++ _) => apply flog_app
      | H : forall a, final_log _ _ [EvRequest _ a; _] |- _ => apply H
      | H : forall a, final_log _ _ [EvRequest _ a] |- _ => apply H
      end ].

Ltac fsolve_attempts :=
  rewrite ?attempts_app;
  repeat match goal with
         | H : rotation_trace _ |- _ =>
             rewrite (proj1 (proj2 (rotation_trace_counts _ H)))
         end;
  reflexivity.

Ltac fsolve_quiet :=
  rewrite ?existsb_app;
  repeat match goal with
         | H : rotation_trace _ |- _ =>
             rewrite (rotation_trace_no_final_success _ H)
         end;
  unfold is_final_success, has_body, has_token; simpl;
  repeat match goal with
         | H : (_ =? _)%Z = _ |- _ => rewrite H
         | H : json_body _ = _ |- _ => rewrite H
         | H : negb _ = _ |- _ => rewrite H
         | H : truthy _ = _ |- _ => rewrite H
         end;
  simpl; rewrite ?andb_false_r; reflexivity.

(** Closes a case without success signal. *)
Ltac fquiet new :=
  eexists _, new, _;
  split; [reflexivity |];
  split; [fsolve_events |];
  split; [fsolve_log |];
  split; [fsolve_attempts |];
  right; split; [fsolve_quiet | eauto].

(** One pass of the login loop of the final checker. *)
Lemma final_get_auth_token_body_spec attempt s :
  exists c new s',
    KrogerFinal._get_auth_token_body env email password attempt s
    = (inr c, s') /\
    events s' = new ++ events s /\ flog new /\ attempts new = 1 /\
    ((exists ev g v,
        new = [ev; g] /\ is_final_success ev = true /\
        is_final_success g = false /\ c = Return v /\ truthy v = true)
     \/ (existsb is_final_success new = false /\
         (c = Continue \/ exists v, c = Return v /\ truthy v = false))).
Proof.
  frun_body.
  set (g := mkRequest GET signin_url (session_proxies s) None).
  assert (Hg : forall a, flog [EvRequest g a]).
  { intros a. split; [simpl; repeat split; done |].
    split; [by constructor |]. split; [done |].
    unfold logins, attempts; simpl; lia. }
  assert (Hsleep : flog [EvSleep 2]).
  { split; [done |]. split; [by constructor |]. split; [done |].
    unfold logins, attempts; simpl; lia. }
  destruct (send env (events s) g) as [e | page] eqn:Hget; simpl.
  - (* the sign-in page could not be fetched *)
    destruct (is_RequestException e); simpl.
    + destruct (attempt <? 1)%nat; simpl.
      * fcall_rotate ok rot s3 Hrot Hev Ht.
        destruct ok; simpl.
        -- fquiet ([EvSleep 2] ++ rot ++ [EvRequest g (inl e)]).
        -- fquiet (rot ++ [EvRequest g (inl e)]).
      * fquiet [EvRequest g (inl e)].
    + fquiet [EvRequest g (inl e)].
  - destruct (KrogerFinal._extract_csrf (text page)) as [tok |] eqn:Hext;
      simpl; [| fquiet [EvRequest g (inr page)]].
    destruct (negb (String.eqb tok EmptyString)) eqn:Htok; simpl;
      [| fquiet [EvRequest g (inr page)]].
    set (p := mkRequest POST login_url (session_proxies s)
                (Some (mkPayload email password tok))).
    assert (Hp : forall a, flog [EvRequest p a; EvRequest g (inr page)]).
    { intros a. split; [| split; [| split; [done |]]].
      - simpl. split; [| by repeat split].
        intros _. exists page. split; [done |].
        unfold extracted. by rewrite Hext.
      - repeat constructor; by apply (_extract_csrf_sound (text page)).
      - unfold logins, attempts; simpl; lia. }
    destruct (send env (EvRequest g (inr page) :: events s) p)
      as [e | resp] eqn:Hpost; simpl.
    + (* the login request raised *)
      destruct (is_RequestException e); simpl.
      * destruct (attempt <? 1)%nat; simpl.
        -- fcall_rotate ok rot s3 Hrot Hev Ht.
           destruct ok; simpl.
           ++ fquiet ([EvSleep 2] ++ rot ++
                      [EvRequest p (inl e); EvRequest g (inr page)]).
           ++ fquiet (rot ++ [EvRequest p (inl e); EvRequest g (inr page)]).
        -- fquiet [EvRequest p (inl e); EvRequest g (inr page)].
      * fquiet [EvRequest p (inl e); EvRequest g (inr page)].
    + destruct (status_code resp =? 200)%Z eqn:H200; simpl.
      * (* answered 200 *)
        destruct (negb (String.eqb (KrogerFinal.py_strip (text resp))
                          EmptyString)) eqn:Hbody; simpl;
          [| fquiet [EvRequest p (inr resp); EvRequest g (inr page)]].
        destruct (json_body resp) as [[ | b | z | str | l | d] |] eqn:Hjson;
          simpl;
          try fquiet [EvRequest p (inr resp); EvRequest g (inr page)].
        destruct (truthy (dict_get d "token")) eqn:Htoken;
          [| fquiet [EvRequest p (inr resp); EvRequest g (inr page)]].
        eexists _, [EvRequest p (inr resp); EvRequest g (inr page)], _.
        split; [reflexivity |]. split; [reflexivity |].
        split; [done |]. split; [reflexivity |].
        left. eexists _, _, _. split; [reflexivity |].
        split; [fsolve_quiet |]. by repeat split.
      * destruct ((status_code resp =? 403) || (status_code resp =? 429))%Z;
          simpl.
        -- (* rate limited *)
           fcall_rotate ok rot s3 Hrot Hev Ht.
           destruct ok; simpl.
           ++ fquiet (rot ++ [EvRequest p (inr resp); EvRequest g (inr page)]).
           ++ fquiet (rot ++ [EvRequest p (inr resp); EvRequest g (inr page)]).
        -- fquiet [EvRequest p (inr resp); EvRequest g (inr page)].
Qed.

(** The login loop of the final checker over any range. *)
Lemma final_get_auth_token_loop_spec atts s :
  exists v new s',
    KrogerFinal._get_auth_token_loop env email password atts s = (inr v, s') /\
    events s' = new ++ events s /\ flog new /\
    attempts new <= List.length atts /\
    truthy v = existsb is_final_success new /\
    (truthy v = true ->
     exists ev rest,
       new = ev :: rest /\ is_final_success ev = true /\
       existsb is_final_success rest = false).
Proof.
  revert s. induction atts as [| attempt rest IH]; intros s.
  - exists PyNone, [], s. simpl.
    split; [done |]. split; [done |].
    split; [| by repeat split].
    split; [done |]. split; [by constructor |]. split; [done |].
    unfold logins, attempts; simpl; lia.
  - simpl. unfold bind.
    destruct (final_get_auth_token_body_spec attempt s)
      as (c & new1 & s1 & -> & Hev1 & Hl1 & Hn1 & Hc).
    destruct Hc as [(ev & g & v & -> & Hev & Hg & -> & Hv)
                   | (Hno & [-> | (v & -> & Hv)])].
    + exists v, [ev; g], s1. simpl.
      split; [done |]. split; [done |]. split; [done |].
      split; [rewrite Hn1; lia |].
      rewrite Hv, Hev, Hg. simpl.
      split; [done |]. intros _. exists ev, [g]. simpl. by rewrite Hg.
    + destruct (IH s1) as (v & new2 & s2 & -> & Hev2 & Hl2 & Hn2 & Hv & Hhead).
      exists v, (new2 ++ new1), s2.
      split; [done |]. split; [by rewrite Hev2, Hev1, app_assoc |].
      split; [by apply flog_app |].
      split; [rewrite attempts_app; simpl; lia |].
      rewrite existsb_app, Hno, orb_false_r.
      split; [done |].
      intros H. destruct (Hhead H) as (ev & rest2 & -> & Hev & Hrest).
      exists ev, (rest2 ++ new1). simpl.
      by rewrite existsb_app, Hrest, Hno.
    + exists v, new1, s1. simpl.
      split; [done |]. split; [done |]. split; [done |].
      split; [lia |]. rewrite Hno, Hv. by split.
Qed.

Lemma final_check_credentials_spec s :
  exists valid new s',
    KrogerFinal.check_credentials env email password s = (inr valid, s') /\
    events s' = new ++ events s /\ flog new /\
    attempts new <= 2 /\
    valid = existsb is_final_success new /\
    (valid = true ->
     exists ev rest,
       new = ev :: rest /\ is_final_success ev = true /\
       existsb is_final_success rest = false).
Proof.
  unfold KrogerFinal.check_credentials, KrogerFinal._get_auth_token, bind.
  destruct (final_get_auth_token_loop_spec (seq 0 KrogerFinal.max_retries) s)
    as (v & new & s1 & -> & Hev & Hl & Hn & Hv & Hhead).
  rewrite length_seq in Hn.
  exists (truthy v), new, s1.
  split; [by destruct (truthy v) |]. done.
Qed.

Lemma rotation_trace_no_login_200 evs :
  rotation_trace evs -> existsb is_login_200 evs = false.
Proof.
  induction 1 as [| e rest _ IH | p rest Hp _ IH | p a rest Hp _ IH];
    simpl; try done.
  by destruct a.
Qed.

Ltac fsolve_200 :=
  rewrite ?existsb_app;
  repeat match goal with
         | H : rotation_trace _ |- _ =>
             rewrite (rotation_trace_no_login_200 _ H)
         end;
  unfold is_final_success, is_login_200, has_body, has_token; simpl;
  repeat match goal with
         | H : (_ =? _)%Z = _ |- _ => rewrite H
         | H : json_body _ = _ |- _ => rewrite H
         | H : negb _ = _ |- _ => rewrite H
         | H : truthy _ = _ |- _ => rewrite H
         end;
  simpl; rewrite ?andb_false_r; reflexivity.

(** Closes a case in which no login request was answered 200. *)
Ltac fno_200 new :=
  eexists _, new, _;
  split; [reflexivity |];
  split; [fsolve_events |];
  right; split; [fsolve_200 | eauto].

(** Closes a case in which the login request was answered 200. *)
Ltac fgot_200 new :=
  eexists _, new, _;
  split; [reflexivity |];
  split; [fsolve_events |];
  left; eexists _, _, _;
  split; [reflexivity |];
  split; [fsolve_200 |];
  split; [fsolve_200 |];
  split; [reflexivity |];
  fsolve_200.

(** One pass of the login loop of the final checker, by the answer to the
    login request: an answer 200 ends the loop, whatever its body, with a
    token that is truthy exactly for the success signal; a pass without such
    an answer ends without a truthy token. *)
Lemma final_get_auth_token_body_200 attempt s :
  exists c new s',
    KrogerFinal._get_auth_token_body env email password attempt s
    = (inr c, s') /\
    events s' = new ++ events s /\
    ((exists ev g v,
        new = [ev; g] /\ is_login_200 ev = true /\ is_login_200 g = false /\
        c = Return v /\ truthy v = is_final_success ev)
     \/ (existsb is_login_200 new = false /\
         (c = Continue \/ exists v, c = Return v /\ truthy v = false))).
Proof.
  frun_body.
  set (g := mkRequest GET signin_url (session_proxies s) None).
  destruct (send env (events s) g) as [e | page] eqn:Hget; simpl.
  - (* the sign-in page could not be fetched *)
    destruct (is_RequestException e); simpl.
    + destruct (attempt <? 1)%nat; simpl.
      * fcall_rotate ok rot s3 Hrot Hev Ht.
        destruct ok; simpl.
        -- fno_200 ([EvSleep 2] ++ rot ++ [EvRequest g (inl e)]).
        -- fno_200 (rot ++ [EvRequest g (inl e)]).
      * fno_200 [EvRequest g (inl e)].
    + fno_200 [EvRequest g (inl e)].
  - destruct (KrogerFinal._extract_csrf (text page)) as [tok |] eqn:Hext;
      simpl; [| fno_200 [EvRequest g (inr page)]].
    destruct (negb (String.eqb tok EmptyString)) eqn:Htok; simpl;
      [| fno_200 [EvRequest g (inr page)]].
    set (p := mkRequest POST login_url (session_proxies s)
                (Some (mkPayload email password tok))).
    destruct (send env (EvRequest g (inr page) :: events s) p)
      as [e | resp] eqn:Hpost; simpl.
    + (* the login request raised *)
      destruct (is_RequestException e); simpl.
      * destruct (attempt <? 1)%nat; simpl.
        -- fcall_rotate ok rot s3 Hrot Hev Ht.
           destruct ok; simpl.
           ++ fno_200 ([EvSleep 2] ++ rot ++
                       [EvRequest p (inl e); EvRequest g (inr page)]).
           ++ fno_200 (rot ++ [EvRequest p (inl e); EvRequest g (inr page)]).
        -- fno_200 [EvRequest p (inl e); EvRequest g (inr page)].
      * fno_200 [EvRequest p (inl e); EvRequest g (inr page)].
    + destruct (status_code resp =? 200)%Z eqn:H200; simpl.
      * (* answered 200 *)
        destruct (negb (String.eqb (KrogerFinal.py_strip (text resp))
                          EmptyString)) eqn:Hbody; simpl;
          [| fgot_200 [EvRequest p (inr resp); EvRequest g (inr page)]].
        destruct (json_body resp) as [[ | b | z | str | l | d] |] eqn:Hjson;
          simpl;
          fgot_200 [EvRequest p (inr resp); EvRequest g (inr page)].
      * destruct ((status_code resp =? 403) || (status_code resp =? 429))%Z;
          simpl.
        -- (* rate limited *)
           fcall_rotate ok rot s3 Hrot Hev Ht.
           destruct ok; simpl.
           ++ fno_200 (rot ++ [EvRequest p (inr resp); EvRequest g (inr page)]).
           ++ fno_200 (rot ++ [EvRequest p (inr resp); EvRequest g (inr page)]).
        -- fno_200 [EvRequest p (inr resp); EvRequest g (inr page)].
Qed.

(** The login loop of the final checker: a login request answered 200, if
    any, is the newest event, and it decides the token. *)
Lemma final_get_auth_token_loop_200 atts s :
  exists v new s',
    KrogerFinal._get_auth_token_loop env email password atts s = (inr v, s') /\
    events s' = new ++ events s /\
    (existsb is_login_200 new = false -> truthy v = false) /\
    (existsb is_login_200 new = true ->
     exists ev rest,
       new = ev :: rest /\ is_login_200 ev = true /\
       existsb is_login_200 rest = false /\
       truthy v = is_final_success ev).
Proof.
  revert s. induction atts as [| attempt rest IH]; intros s.
  - exists PyNone, [], s. simpl. by repeat split.
  - simpl. unfold bind.
    destruct (final_get_auth_token_body_200 attempt s)
      as (c & new1 & s1 & -> & Hev1 & Hc).
    destruct Hc as [(ev & g & v & -> & Hev & Hg & -> & Hv)
                   | (Hno & [-> | (v & -> & Hv)])].
    + exists v, [ev; g], s1. simpl.
      split; [done |]. split; [done |].
      rewrite Hev, Hg. simpl.
      split; [done |]. intros _. exists ev, [g]. simpl. by rewrite Hg.
    + destruct (IH s1) as (v & new2 & s2 & -> & Hev2 & Hnone & Hhead).
      exists v, (new2 ++ new1), s2.
      split; [done |]. split; [by rewrite Hev2, Hev1, app_assoc |].
      rewrite existsb_app, Hno, orb_false_r.
      split; [done |].
      intros H. destruct (Hhead H) as (ev & rest2 & -> & Hev & Hrest & Hv).
      exists ev, (rest2 ++ new1). simpl.
      by rewrite existsb_app, Hrest, Hno.
    + exists v, new1, s1. simpl.
      split; [done |]. split; [done |]. rewrite Hno. by split.
Qed.

Lemma final_check_credentials_200 s :
  exists valid new s',
    KrogerFinal.check_credentials env email password s = (inr valid, s') /\
    events s' = new ++ events s /\
    (existsb is_login_200 new = false -> valid = false) /\
    (existsb is_login_200 new = true ->
     exists ev rest,
       new = ev :: rest /\ is_login_200 ev = true /\
       existsb is_login_200 rest = false /\
       valid = is_final_success ev).
Proof.
  unfold KrogerFinal.check_credentials, KrogerFinal._get_auth_token, bind.
  destruct (final_get_auth_token_loop_200 (seq 0 KrogerFinal.max_retries) s)
    as (v & new & s1 & -> & Hev & Hnone & Hhead).
  exists (truthy v), new, s1.
  split; [by destruct (truthy v) |]. done.
Qed.

(** A sign-in page in which the extractor finds nothing ends the check at
    once. *)
Lemma final_no_token_stops s page :
  send env (events s) (signin_request s) = inr page ->
  KrogerFinal._extract_csrf (text page) = None ->
  KrogerFinal.check_credentials env email password s
  = (inr false, after_signin s (inr page)).
Proof.
  intros Hpage Hnone.
  unfold KrogerFinal.check_credentials, KrogerFinal._get_auth_token, bind.
  simpl. unfold bind.
  unfold KrogerFinal._get_auth_token_body, try_except, bind, session_get,
    session_request. simpl.
  unfold signin_request in Hpage. by rewrite Hpage, Hnone.
Qed.

End FinalFlow.

(** X7. The final checker posts the credentials only right after it fetched
    the sign-in page, through the same proxies, and only with a token its
    extractor found in that very page: every token sent is longer than 10
    characters and holds no double quote.  A check makes at most 2 attempts,
    posts at most once per attempt and draws no random number. *)
Theorem final_posts_carry_extracted_token (env : Env)
    (email password : string) (s : State) :
  exists valid new s',
    KrogerFinal.check_credentials env email password s = (inr valid, s') /\
    events s' = new ++ events s /\
    login_follows_page extracted email password new /\
    Forall sound_token (carried_tokens new) /\
    logins new <= attempts new /\ attempts new <= 2 /\
    draws new = 0.
Proof.
  destruct (final_check_credentials_spec env email password s)
    as (valid & new & s' & Hrun & Hev & (Hl & Ht & Hd & Hn) & Hmax & _).
  exists valid, new, s'. by repeat split.
Qed.

(** X8. The final checker's [check_credentials] never raises, and its flag
    is true exactly when the login request was answered 200 with a body that
    is not blank and decodes to a dict whose token is truthy.  Any answer 200
    to the login request is the last thing the check did, whatever its body,
    and it alone decides the flag: after a 200 with a blank body, with JSON
    that is no dict or does not decode, or with a token that is not truthy,
    the check ends with the flag false and without another attempt.  Without
    an answer 200 the flag is false. *)
Theorem final_valid_iff_success_signal (env : Env)
    (email password : string) (s : State) :
  exists valid new s',
    KrogerFinal.check_credentials env email password s = (inr valid, s') /\
    events s' = new ++ events s /\
    valid = existsb is_final_success new /\
    (valid = true ->
     exists ev rest,
       new = ev :: rest /\ is_final_success ev = true /\
       existsb is_final_success rest = false) /\
    (existsb is_login_200 new = false -> valid = false) /\
    (existsb is_login_200 new = true ->
     exists req resp rest,
       new = EvRequest req (inr resp) :: rest /\
       is_login_200 (EvRequest req (inr resp)) = true /\
       existsb is_login_200 rest = false /\
       valid = has_body resp && has_token resp).
Proof.
  destruct (final_check_credentials_spec env email password s)
    as (valid & new & s' & Hrun & Hev & _ & _ & Hv & Hhead).
  destruct (final_check_credentials_200 env email password s)
    as (valid' & new' & s'' & Hrun' & Hev' & Hnone & H200).
  rewrite Hrun in Hrun'. injection Hrun' as <- <-.
  rewrite Hev in Hev'. apply app_inv_tail in Hev'. subst new'.
  exists valid, new, s'.
  split; [done |]. split; [done |]. split; [done |]. split; [done |].
  split; [done |].
  intros H. destruct (H200 H) as (ev & rest & -> & Hev200 & Hrest & Hval).
  destruct ev as [ | req [ | resp] | | ]; try done.
  exists req, resp, rest.
  split; [done |]. split; [done |]. split; [done |].
  rewrite Hval. unfold is_final_success.
  unfold is_login_200 in Hev200. by rewrite Hev200.
Qed.

(** One of these endings, run: the login request is answered 200 with a body
    of blanks, and the check ends with the flag false after one attempt. *)
Example final_blank_200_is_invalid :
  let run := KrogerFinal.check_credentials Stub.blank_200 "a@x.com" "p1"
               (blank false []) in
  fst run = inr false /\
  attempts (events (snd run)) = 1 /\
  existsb is_login_200 (events (snd run)) = true.
Proof. by vm_compute. Qed.

(** X9. When the final checker's extractor finds no token in the sign-in
    page, the check ends there: the flag is false, nothing is posted, no
    proxy is rotated and no second attempt is made. *)
Theorem final_no_token_no_post (env : Env) (email password : string)
    (s : State) (page : Response)
    (Hpage : send env (events s) (signin_request s) = inr page)
    (Hnone : KrogerFinal._extract_csrf (text page) = None) :
  KrogerFinal.check_credentials env email password s
  = (inr false, after_signin s (inr page)) /\
  logins (fresh s (after_signin s (inr page))) = 0 /\
  attempts (fresh s (after_signin s (inr page))) = 1 /\
  acquisitions (fresh s (after_signin s (inr page))) = 0.
Proof.
  split; [by apply final_no_token_stops |].
  unfold fresh, after_signin. simpl.
  replace (S (List.length (events s)) - List.length (events s)) with 1 by lia.
  done.
Qed.

Lemma final_no_token_no_post_witness :
  KrogerFinal.check_credentials Stub.accepts_a "b@x.com" "p2" (blank false [])
  = (inr false, after_signin (blank false []) (inr Stub.ok_page)) /\
  logins (fresh (blank false [])
            (after_signin (blank false []) (inr Stub.ok_page))) = 0 /\
  attempts (fresh (blank false [])
              (after_signin (blank false []) (inr Stub.ok_page))) = 1 /\
  acquisitions (fresh (blank false [])
                  (after_signin (blank false []) (inr Stub.ok_page))) = 0.
Proof.
  apply (final_no_token_no_post Stub.accepts_a "b@x.com" "p2"
           (blank false []) Stub.ok_page).
  - reflexivity.
  - vm_compute. reflexivity.
Defined.


(** ** The browser checker *)

Section BrowserFlow.

Import KrogerBrowser.

Variable b : Browser.

Ltac ask_start :=
  match goal with
  | |- context [start b ?h] => destruct (start b h) as [? | []] eqn:?; simpl
  end.
Ltac ask_script :=
  match goal with
  | |- context [script b ?h] => destruct (script b h) as [? | []] eqn:?; simpl
  end.
Ltac ask_step st :=
  match goal with
  | |- context [drive b ?h st] =>
      destruct (drive b h st) as [? | []] eqn:?; simpl
  end.
Ltac ask_quit :=
  match goal with
  | |- context [quit b ?h] => destruct (quit b h) as [? | []] eqn:?; simpl
  end.

Ltac name_new :=
  match goal with
  | |- ?l = ?new ++ ?h =>
      let rec go l :=
        lazymatch l with
        | h => constr:(@nil BEvent)
        | ?a :: ?t => let r := go t in constr:(a :: r)
        end in
      let n := go l in unify new n; reflexivity
  end.

Ltac decide_eq H :=
  first [ discriminate H
        | injection H; intros; subst; first [reflexivity | by eexists] ].

Ltac leaf :=
  eexists _, _, _;
  split; [reflexivity |];
  split; [simpl; name_new |];
  simpl;
  repeat match goal with H : driver _ = _ |- _ => rewrite H end;
  rewrite ?orb_true_r;
  split; [reflexivity |];
  split; [reflexivity |];
  split; [reflexivity |];
  split; [reflexivity |];
  split;
  [ let H := fresh in
    split; intros H; first [reflexivity | decide_eq H]
  | let e' := fresh in
    let body := fresh in
    let H := fresh in
    intros e'; split; [intros H | intros [body H]];
    first [reflexivity | decide_eq H] ].

Ltac finally_quit :=
  first [ ask_quit; leaf
        | match goal with
          | |- context [if driver ?s then _ else _] =>
              destruct (driver s) eqn:?; simpl; [ask_quit; leaf | leaf]
          end ].

(** [check_credentials] of the browser checker, path by path. *)
Lemma browser_check_credentials_spec email password s :
  exists x new s',
    check_credentials b email password s = (x, s') /\
    events s' = new ++ events s /\
    driver s' = driver s || started new /\
    quits new = (if driver s' then 1 else 0) /\
    match new with
    | BvQuit q :: body => quits body = 0
    | body => quits body = 0
    end /\
    List.length (List.filter is_pause new)
    = List.length (List.filter is_page_loaded new) /\
    (x = inr true <-> new = BvQuit (inr tt) :: signed_in email password) /\
    (forall e, x = inl e <-> exists body, new = BvQuit (inl e) :: body).
Proof.
  unfold check_credentials, init_browser, try_finally, try_except, bind,
    chrome, execute_script, step, driver_quit, sleep, modify, get_state, ret.
  simpl.
  ask_start; [finally_quit |].
  ask_script; [finally_quit |].
  ask_step LoadSignin; [finally_quit |].
  ask_step (FillEmail email); [finally_quit |].
  ask_step (FillPassword password); [finally_quit |].
  ask_step ClickSignin; [finally_quit |].
  ask_step WaitAccount; finally_quit.
Qed.

End BrowserFlow.

(** X10. The browser checker reports a pair as valid exactly when every step
    worked, from starting Chrome to the account page, and the browser was
    then closed without error.  The only exception a check lets out is the
    one raised by closing the browser. *)
Theorem browser_check_verdict (b : KrogerBrowser.Browser)
    (email password : string) (s : KrogerBrowser.State) :
  exists x new s',
    KrogerBrowser.check_credentials b email password s = (x, s') /\
    KrogerBrowser.events s' = new ++ KrogerBrowser.events s /\
    (x = inr true <->
     new = KrogerBrowser.BvQuit (inr tt) :: signed_in email password) /\
    (forall e,
       x = inl e <-> exists body, new = KrogerBrowser.BvQuit (inl e) :: body).
Proof.
  destruct (browser_check_credentials_spec b email password s)
    as (x & new & s' & Hrun & Hev & _ & _ & _ & _ & Hvalid & Hraise).
  by exists x, new, s'.
Qed.

(** X11. A check closes the browser at most once, as the last thing it does,
    and exactly when the checker holds a driver object: one it started in
    this check, or one left from an earlier check when Chrome does not start
    now.  It pauses once for each page load that worked. *)
Theorem browser_quit_discipline (b : KrogerBrowser.Browser)
    (email password : string) (s : KrogerBrowser.State) :
  exists x new s',
    KrogerBrowser.check_credentials b email password s = (x, s') /\
    KrogerBrowser.events s' = new ++ KrogerBrowser.events s /\
    KrogerBrowser.driver s' = KrogerBrowser.driver s || started new /\
    quits new = (if KrogerBrowser.driver s' then 1 else 0) /\
    match new with
    | KrogerBrowser.BvQuit q :: body => quits body = 0
    | body => quits body = 0
    end /\
    List.length (List.filter is_pause new)
    = List.length (List.filter is_page_loaded new).
Proof.
  destruct (browser_check_credentials_spec b email password s)
    as (x & new & s' & Hrun & Hev & Hd & Hq & Hlast & Hp & _).
  by exists x, new, s'.
Qed.

(** X12. [check_single] of the browser checker raises exactly when closing
    the browser raised, and then the pair is recorded in neither collection,
    even when the account page had been reached.  Otherwise the result
    carries the pair and the verdict of the check. *)
Theorem browser_quit_failure_loses_result (b : KrogerBrowser.Browser)
    (email password : string) (s : KrogerBrowser.State) :
  exists x new s',
    KrogerBrowser.check_single b email password s = (x, s') /\
    KrogerBrowser.events s' = new ++ KrogerBrowser.events s /\
    match x with
    | inl e =>
        (exists body, new = KrogerBrowser.BvQuit (inl e) :: body) /\
        KrogerBrowser.valid_creds s' = KrogerBrowser.valid_creds s /\
        KrogerBrowser.invalid_creds s' = KrogerBrowser.invalid_creds s
    | inr r =>
        r = KrogerBrowser.mkResult email password (KrogerBrowser.r_valid r) /\
        (forall e body, new = KrogerBrowser.BvQuit (inl e) :: body -> False) /\
        (KrogerBrowser.r_valid r = true <->
         new = KrogerBrowser.BvQuit (inr tt) :: signed_in email password)
    end /\
    exists e s'',
      KrogerBrowser.check_single quit_fails email password
        (KrogerBrowser.__init__ [])
      = (inl e, s'') /\
      KrogerBrowser.events s''
      = KrogerBrowser.BvQuit (inl e) :: signed_in email password /\
      KrogerBrowser.valid_creds s'' = [] /\
      KrogerBrowser.invalid_creds s'' = [].
Proof.
  destruct (browser_check_credentials_spec b email password s)
    as (x & new & s1 & Hrun & Hev & _ & _ & _ & _ & Hvalid & Hraise).
  destruct (check_credentials_keeps b email password _ _ _ Hrun) as [Hv Hi].
  unfold KrogerBrowser.check_single, bind. rewrite Hrun.
  destruct x as [e | valid].
  - exists (inl e), new, s1. split; [done |]. split; [done |].
    split; [| by eexists _, _].
    split; [by apply Hraise | done].
  - destruct valid; simpl.
    + eexists (inr _), new, _. split; [reflexivity |]. split; [done |].
      split; [| by eexists _, _].
      split; [done |]. split; [| simpl; split; [intros _; by apply Hvalid | done]].
      intros e body H. by assert (inr true = inl e) by (apply Hraise; eauto).
    + eexists (inr _), new, _. split; [reflexivity |]. split; [done |].
      split; [| by eexists _, _].
      split; [done |]. split.
      * intros e body H.
        by assert (inr false = inl e) by (apply Hraise; eauto).
      * simpl. split; [done |]. intros H. by apply Hvalid in H.
Qed.


(** ** The custom checks of the mailbox checker *)

Section CustomFaults.

Import EmailChecker.

Variable imap : Imap.
Variable str_of : pyval -> string.

Lemma first_fault_cons item rest :
  first_fault (item :: rest)
  = match check_fault item with
    | Some e => Some e
    | None => first_fault rest
    end.
Proof. unfold first_fault. simpl. by destruct (check_fault item). Qed.

Lemma before_fault_cons item rest :
  before_fault (item :: rest)
  = match check_fault item with
    | Some _ => []
    | None => item :: before_fault rest
    end.
Proof. reflexivity. Qed.

Lemma filter_active_cons item rest :
  List.filter is_active (item :: rest)
  = if is_active item then item :: List.filter is_active rest
    else List.filter is_active rest.
Proof. reflexivity. Qed.

Lemma custom_checks_loop_faults items :
  forall counts h,
    exists x new,
      custom_checks_loop imap str_of items counts h = (x, new ++ h) /\
      List.length new = List.length (List.filter is_active (before_fault items)) /\
      match first_fault items with
      | Some e => x = inl e
      | None =>
          exists counts',
            x = inr counts' /\
            forall name,
              is_Some (counts' !! name) <->
              is_Some (counts !! name) \/
              In name (List.map fst (List.filter is_active items))
      end.
Proof.
  induction items as [| [check_name check_info] rest IH]; intros counts h.
  - exists (inr counts), []. simpl. split; [done |]. split; [done |].
    exists counts. split; [done |]. intros name. by intuition.
  - rewrite first_fault_cons, before_fault_cons, filter_active_cons.
    destruct (is_reserved check_name) eqn:Hres.
    { assert (Hf : check_fault (check_name, check_info) = None)
        by (unfold check_fault; simpl; by rewrite Hres).
      assert (Ha : is_active (check_name, check_info) = false)
        by (unfold is_active; simpl; by rewrite Hres).
      rewrite Hf, Ha, filter_active_cons, Ha.
      simpl custom_checks_loop. rewrite Hres. apply IH. }
    simpl custom_checks_loop. rewrite Hres.
    destruct check_info as [ | b | z | str | l | d];
      try (match goal with
           | |- context [check_fault (check_name, ?v)] =>
               assert (Hf : check_fault (check_name, v) = Some AttributeError)
                 by (unfold check_fault; simpl; by rewrite Hres);
               rewrite Hf; by exists (inl AttributeError), []
           end).
    unfold bind, py_get_default, ret. fold (enabled d).
    destruct (enabled d) eqn:Hen.
    2:{ assert (Hf : check_fault (check_name, PyDict d) = None)
          by (unfold check_fault; simpl; by rewrite Hres, Hen).
        assert (Ha : is_active (check_name, PyDict d) = false)
          by (unfold is_active; simpl; by rewrite Hres, Hen).
        rewrite Hf, Ha, filter_active_cons, Ha. apply IH. }
    unfold py_subscript.
    destruct (assoc "email" d) as [address |] eqn:Hmail.
    2:{ assert (Hf : check_fault (check_name, PyDict d)
                     = Some (KeyError "email"))
          by (unfold check_fault; simpl; by rewrite Hres, Hen, Hmail).
        rewrite Hf. by exists (inl (KeyError "email")), []. }
    assert (Hf : check_fault (check_name, PyDict d) = None)
      by (unfold check_fault; simpl; by rewrite Hres, Hen, Hmail).
    assert (Ha : is_active (check_name, PyDict d) = true)
      by (unfold is_active; simpl; rewrite Hres, Hen, Hmail;
          by rewrite bool_decide_true).
    rewrite Hf, Ha, filter_active_cons, Ha.
    unfold ret, fetch_emails.
    match goal with
    | |- context [custom_checks_loop _ _ rest ?c ?h1] =>
        destruct (IH c h1) as (x & new & Hrun & Hlen & Hx)
    end.
    exists x, (new ++ [ImSearch (from_query (str_of address))
                          (uid_search imap h (from_query (str_of address)))]).
    rewrite <- app_assoc. split; [exact Hrun |].
    split; [rewrite length_app; simpl; lia |].
    destruct (first_fault rest); [done |].
    destruct Hx as (counts' & -> & Hdom). exists counts'. split; [done |].
    intros name. rewrite Hdom. simpl.
    destruct (decide (name = check_name)) as [-> | Hne].
    + rewrite lookup_insert_eq. by intuition eauto.
    + rewrite lookup_insert_ne by done. intuition congruence.
Qed.

Lemma sends_ret {A} (a : A) : sends 0 (ret a).
Proof. intros h. by exists a, []. Qed.

Lemma sends_bind {A B} n m (c : M A) (k : A -> M B) :
  sends n c -> (forall a, sends m (k a)) -> sends (n + m) (bind c k).
Proof.
  intros Hc Hk h. unfold bind.
  destruct (Hc h) as (a & new1 & -> & Hn1).
  destruct (Hk a (new1 ++ h)) as (r & new2 & -> & Hn2).
  exists r, (new2 ++ new1). rewrite <- app_assoc. split; [done |].
  rewrite length_app. lia.
Qed.

Lemma sends_weaken {A} n m (c : M A) : n <= m -> sends n c -> sends m c.
Proof.
  intros Hle Hc h. destruct (Hc h) as (a & new & -> & Hn).
  exists a, new. split; [done | lia].
Qed.

Lemma sends_fetch_emails query : sends 1 (fetch_emails imap query).
Proof. intros h. by eexists _, [_]. Qed.

Lemma sends_fetch_email_date uid : sends 1 (fetch_email_date imap uid).
Proof. intros h. by eexists _, [_]. Qed.

Lemma sends_year_of_first uids year : sends 1 (year_of_first imap uids year).
Proof.
  destruct uids as [| uid rest]; simpl.
  - apply (sends_weaken 0); [lia | apply sends_ret].
  - apply (sends_bind 1 0); [apply sends_fetch_email_date |].
    intros [y |]; apply sends_ret.
Qed.

(** The built-in checks never fail: at most 9 searches and 2 date fetches. *)
Lemma sends_default_checks cfg : sends 11 (default_checks imap cfg).
Proof.
  unfold default_checks.
  apply (sends_bind 2 9).
  { destruct (truthy _); [| apply (sends_weaken 0); [lia | apply sends_ret]].
    apply (sends_bind 1 1); [apply sends_fetch_emails | intros ?].
    apply (sends_bind 1 0); [apply sends_fetch_emails | intros ?].
    apply sends_ret. }
  intros c1. apply (sends_bind 1 8).
  { destruct (truthy _); [| apply (sends_weaken 0); [lia | apply sends_ret]].
    apply (sends_bind 1 0); [apply sends_fetch_emails | intros ?].
    apply sends_ret. }
  intros c2. apply (sends_bind 2 6).
  { destruct (truthy _); [| apply (sends_weaken 0); [lia | apply sends_ret]].
    apply (sends_bind 1 1); [apply sends_fetch_emails | intros ?].
    apply (sends_bind 1 0); [apply sends_year_of_first | intros ?].
    apply sends_ret. }
  intros cd. apply (sends_bind 3 3).
  { destruct (truthy _); [| apply (sends_weaken 0); [lia | apply sends_ret]].
    apply (sends_bind 1 2); [apply sends_fetch_emails | intros main_uids].
    apply (sends_bind 1 1); [apply sends_fetch_emails | intros mail_uids].
    apply (sends_bind 1 0); [| intros ?; apply sends_ret].
    destruct mail_uids; apply sends_year_of_first. }
  intros cr. apply (sends_bind 1 2).
  { destruct (truthy _); [| apply (sends_weaken 0); [lia | apply sends_ret]].
    apply (sends_bind 1 0); [apply sends_fetch_emails | intros ?].
    apply sends_ret. }
  intros c5. apply (sends_bind 1 1).
  { destruct (truthy _); [| apply (sends_weaken 0); [lia | apply sends_ret]].
    apply (sends_bind 1 0); [apply sends_fetch_emails | intros ?].
    apply sends_ret. }
  intros c6. apply (sends_bind 1 0).
  { destruct (truthy _); [| apply (sends_weaken 0); [lia | apply sends_ret]].
    apply (sends_bind 1 0); [apply sends_fetch_emails | intros ?].
    apply sends_ret. }
  intros c7. apply sends_ret.
Qed.

Lemma count_hits_faults cfg custom_checks h :
  exists x new,
    count_hits imap str_of cfg custom_checks h = (x, new ++ h) /\
    List.length new
    <= 11 + List.length (List.filter is_active (before_fault custom_checks)) /\
    match first_fault custom_checks with
    | Some e => x = inl e
    | None =>
        exists counts discord_year reddit_year,
          x = inr (counts, discord_year, reddit_year) /\
          forall name,
            In name (List.map fst (List.filter is_active custom_checks)) ->
            is_Some (counts !! name)
    end.
Proof.
  unfold count_hits, bind.
  destruct (sends_default_checks cfg h) as (r & new1 & -> & Hn1).
  destruct (custom_checks_loop_faults custom_checks (fst (fst r)) (new1 ++ h))
    as (x & new2 & -> & Hn2 & Hx).
  destruct (first_fault custom_checks) as [e |].
  - subst x. exists (inl e), (new2 ++ new1). rewrite <- app_assoc.
    split; [done |]. split; [rewrite length_app; lia | done].
  - destruct Hx as (counts' & -> & Hdom).
    eexists (inr _), (new2 ++ new1). rewrite <- app_assoc.
    split; [reflexivity |]. split; [rewrite length_app; lia |].
    eexists _, _, _. split; [reflexivity |].
    intros name Hname. apply Hdom. by right.
Qed.

End CustomFaults.

(** X13. The loop over the custom checks stops with an exception exactly at
    the first entry, reserved ones apart, that is not a dict or that is
    enabled and has no [email] key; an entry that is not enabled needs no
    address.  Up to there it searches the mailbox once per active entry, and
    when nothing stops it the counts gain exactly the names of the active
    entries. *)
Theorem custom_checks_stop_at_first_fault
    (imap : EmailChecker.Imap) (str_of : pyval -> string)
    (items : list (string * pyval)) (counts : gmap string nat)
    (h : list EmailChecker.ImapEvent) :
  exists x new,
    EmailChecker.custom_checks_loop imap str_of items counts h
    = (x, new ++ h) /\
    List.length new = List.length (List.filter is_active (before_fault items)) /\
    match first_fault items with
    | Some e => x = inl e
    | None =>
        exists counts',
          x = inr counts' /\
          forall name,
            is_Some (counts' !! name) <->
            is_Some (counts !! name) \/
            In name (List.map fst (List.filter is_active items))
    end.
Proof. apply custom_checks_loop_faults. Qed.

(** X14. No answer of the mailbox, errors included, makes the counting
    fail: the built-in checks always come through, with at most 11
    exchanges with the mailbox, searches and date fetches together, and the
    counting as a whole raises exactly when a custom check is ill-formed,
    with the exception of the first such entry.  Otherwise every active
    custom check has a count. *)
Theorem count_hits_fails_only_on_configuration
    (imap : EmailChecker.Imap) (str_of : pyval -> string)
    (cfg : EmailChecker.Config) (custom_checks : list (string * pyval))
    (h : list EmailChecker.ImapEvent) :
  (exists r new,
     EmailChecker.default_checks imap cfg h = (inr r, new ++ h) /\
     List.length new <= 11) /\
  exists x new,
    EmailChecker.count_hits imap str_of cfg custom_checks h = (x, new ++ h) /\
    List.length new
    <= 11 + List.length (List.filter is_active (before_fault custom_checks)) /\
    match first_fault custom_checks with
    | Some e => x = inl e
    | None =>
        exists counts discord_year reddit_year,
          x = inr (counts, discord_year, reddit_year) /\
          forall name,
            In name (List.map fst (List.filter is_active custom_checks)) ->
            is_Some (counts !! name)
    end.
Proof.
  split; [apply sends_default_checks | apply count_hits_faults].
Qed.


(** ** Reaching the mailbox *)

Section Connecting.

Import ImapConnect.

Variable host : Mailhost.
Variables server email password : string.

Local Abbreviation ours := (addressed server email password).

Lemma connects_app a b : connects (a ++ b) = connects a + connects b.
Proof. unfold connects. by rewrite List.filter_app, List.length_app. Qed.

Lemma naps_app a b : naps (a ++ b) = naps a + naps b.
Proof. unfold naps. by rewrite List.filter_app, List.length_app. Qed.

Lemma slept_app a b : (slept (a ++ b) == slept a + slept b)%Q.
Proof.
  induction a as [| e a IH]; simpl; [lra |].
  destruct e; simpl; lra.
Qed.

(** Every pause is of 3 or 5 seconds. *)
Lemma slept_bounds evs :
  Forall ours evs ->
  (3 * inject_Z (Z.of_nat (naps evs)) <= slept evs)%Q /\
  (slept evs <= 5 * inject_Z (Z.of_nat (naps evs)))%Q.
Proof.
  induction 1 as [| e evs He _ IH].
  - unfold naps. simpl. change (inject_Z (Z.of_nat 0)) with 0%Q. lra.
  - destruct e as [srv ctx a | em pw a | em pw a | q]; try exact IH.
    change (naps (CvSleep q :: evs)) with (S (naps evs)).
    change (slept (CvSleep q :: evs)) with (q + slept evs)%Q.
    rewrite Nat2Z.inj_succ, <- Z.add_1_r, inject_Z_plus.
    change (inject_Z 1) with 1%Q.
    simpl in He. destruct He as [-> | ->]; lra.
Qed.

Ltac name_log :=
  match goal with
  | |- ?l = ?new ++ ?h =>
      let rec go l :=
        lazymatch l with
        | h => constr:(@nil CEvent)
        | ?a :: ?t => let r := go t in constr:(a :: r)
        end in
      let n := go l in unify new n; reflexivity
  end.

Ltac pass :=
  eexists _, _, _;
  split; [reflexivity |];
  split; [simpl; name_log |];
  split; [reflexivity |];
  split; [repeat (apply List.Forall_cons; [simpl; auto |]); apply List.Forall_nil |].

Ltac use_status :=
  simpl;
  repeat match goal with H : (_ =? _)%string = _ |- _ => rewrite H end.

(** The pass ends in a pause. *)
Ltac stay :=
  pass; right;
  split; [reflexivity |];
  split; [use_status; reflexivity |];
  eexists _, _; split; [reflexivity |]; split; [reflexivity |];
  first [ by split | split; intros [=] ].

(** The pass returns the connection. *)
Ltac got :=
  pass; left;
  split; [reflexivity |]; split; [reflexivity |];
  eexists _, _; split; [reflexivity |];
  split; use_status; reflexivity.

(** One pass of the loop of [connect_imap]. *)
Lemma connect_imap_body_spec attempt st :
  exists c new st',
    connect_imap_body host server email password attempt st = (c, st') /\
    events st' = new ++ events st /\
    connects new = 1 /\ Forall ours new /\
    ((c = Return server /\ naps new = 0 /\
      exists ev rest,
        new = ev :: rest /\ is_logged_in ev = true /\
        existsb is_logged_in rest = false)
     \/ (c = Continue /\ existsb is_logged_in new = false /\
         exists q rest,
           new = CvSleep q :: rest /\ naps rest = 0 /\
           (q = 5%Q <->
            rest = [CvConnect server (ssl_context_for server)
                      (inl Imap4Error)]))).
Proof.
  unfold connect_imap_body, connect_imap_try, try_login. simpl.
  destruct (IMAP4_SSL host (events st) server (ssl_context_for server))
    as [f | []] eqn:Hconn; simpl.
  { destruct f; simpl; stay. }
  match goal with
  | |- context [login host ?h email password] =>
      destruct (login host h email password) as [f | [result resp]] eqn:Hlogin
  end; simpl.
  - destruct f; simpl; try stay.
    match goal with
    | |- context [authenticate_plain host ?h email password] =>
        destruct (authenticate_plain host h email password)
          as [f | [result resp]] eqn:Hauth
    end; simpl.
    + destruct (response st) as [r |] eqn:Hresp; simpl; stay.
    + destruct (String.eqb result "OK") eqn:Hok; simpl; [got | stay].
  - destruct (String.eqb result "OK") eqn:Hok; simpl; [got | stay].
Qed.

(** The loop of [connect_imap] over any range. *)
Lemma connect_imap_loop_spec atts :
  forall st,
    exists r new st',
      connect_imap_loop host server email password atts st = (r, st') /\
      events st' = new ++ events st /\
      connects new <= List.length atts /\ Forall ours new /\
      match r with
      | Some imap =>
          imap = server /\ naps new + 1 = connects new /\
          exists ev rest,
            new = ev :: rest /\ is_logged_in ev = true /\
            existsb is_logged_in rest = false
      | None =>
          connects new = List.length atts /\ naps new = List.length atts /\
          existsb is_logged_in new = false /\
          match atts with
          | [] => new = []
          | _ => exists q rest, new = CvSleep q :: rest
          end
      end.
Proof.
  induction atts as [| attempt rest IH]; intros st.
  - exists None, [], st. simpl.
    split; [done |]. split; [done |]. split; [done |].
    split; [by constructor |]. by repeat split.
  - simpl.
    destruct (connect_imap_body_spec attempt st)
      as (c & new1 & st1 & -> & Hev1 & Hn1 & Ho1 & Hc).
    destruct Hc as [(-> & Hz & ev & rest1 & -> & Hin & Hrest)
                   | (-> & Hout & q & rest1 & -> & Hz & _)].
    + exists (Some server), (ev :: rest1), st1.
      split; [done |]. split; [done |]. split; [lia |]. split; [done |].
      split; [done |]. split; [lia |]. by exists ev, rest1.
    + destruct (IH st1) as (r & new2 & st2 & -> & Hev2 & Hn2 & Ho2 & Hr).
      assert (Hnap : naps (CvSleep q :: rest1) = 1)
        by (change (naps (CvSleep q :: rest1)) with (S (naps rest1)); lia).
      exists r, (new2 ++ CvSleep q :: rest1), st2.
      split; [done |]. split; [by rewrite Hev2, Hev1, app_assoc |].
      split; [rewrite connects_app; simpl; lia |].
      split; [by apply Forall_app |].
      destruct r as [imap |].
      * destruct Hr as (-> & Hcount & ev & rest2 & -> & Hin & Hrest).
        split; [done |].
        split; [rewrite naps_app, connects_app; lia |].
        exists ev, (rest2 ++ CvSleep q :: rest1).
        split; [done |]. split; [done |].
        by rewrite existsb_app, Hrest, Hout.
      * destruct Hr as (Hc2 & Hz2 & Hout2 & Hhead).
        split; [rewrite connects_app; simpl; lia |].
        split; [rewrite naps_app; simpl; lia |].
        split; [by rewrite existsb_app, Hout2, Hout |].
        destruct rest as [| a rest].
        -- subst new2. by eauto.
        -- destruct Hhead as (q2 & rest2 & ->). by eauto.
Qed.

End Connecting.

(** X15. [connect_imap] opens at most 3 connections, all to the server it
    was given, with the SSL context set up for that server, and logs in with
    the credentials it was given.  It returns the connection right after a
    login, or the fallback after a refused login, came back with status OK.
    Every attempt that fails is followed by one pause of 3 or 5 seconds, the
    last one too: when it gives up it has made 3 attempts and slept between 9
    and 15 seconds. *)
Theorem connect_imap_three_attempts (host : ImapConnect.Mailhost)
    (server email password : string)
    (history : list ImapConnect.CEvent) :
  exists r new st',
    ImapConnect.connect_imap host server email password history = (r, st') /\
    ImapConnect.events st' = new ++ history /\
    ImapConnect.connects new <= 3 /\
    Forall (ImapConnect.addressed server email password) new /\
    match r with
    | Some imap =>
        imap = server /\
        ImapConnect.naps new + 1 = ImapConnect.connects new /\
        exists ev rest,
          new = ev :: rest /\ ImapConnect.is_logged_in ev = true /\
          existsb ImapConnect.is_logged_in rest = false
    | None =>
        ImapConnect.connects new = 3 /\ ImapConnect.naps new = 3 /\
        existsb ImapConnect.is_logged_in new = false /\
        (exists q rest, new = ImapConnect.CvSleep q :: rest) /\
        (9 <= ImapConnect.slept new)%Q /\ (ImapConnect.slept new <= 15)%Q
    end.
Proof.
  unfold ImapConnect.connect_imap.
  destruct (connect_imap_loop_spec host server email password (seq 0 3)
              (ImapConnect.mkFrame None history))
    as (r & new & st' & Hrun & Hev & Hn & Ho & Hr).
  exists r, new, st'.
  split; [done |]. split; [done |]. split; [done |]. split; [done |].
  destruct r as [imap |]; [done |].
  destruct Hr as (Hc & Hz & Hout & Hhead).
  split; [done |]. split; [done |]. split; [done |].
  split; [exact Hhead |].
  destruct (slept_bounds server email password new Ho) as [Hlo Hhi].
  rewrite Hz in Hlo, Hhi.
  change (inject_Z (Z.of_nat (List.length (seq 0 3)))) with 3%Q in Hlo, Hhi.
  split; lra.
Qed.

(** X16. When the login and the fallback both raise before any status came
    back, the line that logs the failed login reads a variable that was never
    assigned; the catch-all handler turns that into the same pause of 3
    seconds, and the attempt counts as failed. *)
Theorem connect_imap_unbound_response (host : ImapConnect.Mailhost)
    (server email password : string) (attempt : nat)
    (history : list ImapConnect.CEvent) (f : ImapConnect.Fault)
    (Hconn : ImapConnect.IMAP4_SSL host history server
               (ImapConnect.ssl_context_for server) = inr tt)
    (Hlogin : ImapConnect.login host
                (ImapConnect.CvConnect server
                   (ImapConnect.ssl_context_for server) (inr tt) :: history)
                email password
              = inl ImapConnect.Imap4Error)
    (Hauth : ImapConnect.authenticate_plain host
               (ImapConnect.CvLogin email password
                  (inl ImapConnect.Imap4Error)
                :: ImapConnect.CvConnect server
                     (ImapConnect.ssl_context_for server) (inr tt)
                :: history)
               email password
             = inl f) :
  fst (ImapConnect.connect_imap_try host server email password
         (ImapConnect.mkFrame None history))
  = inl ImapConnect.UnboundLocalError /\
  ImapConnect.connect_imap_body host server email password attempt
    (ImapConnect.mkFrame None history)
  = (Continue,
     ImapConnect.mkFrame None
       ([ImapConnect.CvSleep 3;
         ImapConnect.CvAuthenticate email password (inl f);
         ImapConnect.CvLogin email password (inl ImapConnect.Imap4Error);
         ImapConnect.CvConnect server (ImapConnect.ssl_context_for server)
           (inr tt)] ++ history)).
Proof.
  unfold ImapConnect.connect_imap_body, ImapConnect.connect_imap_try,
    ImapConnect.try_login.
  simpl. rewrite Hconn. simpl. rewrite Hlogin. simpl. by rewrite Hauth.
Qed.

Lemma connect_imap_unbound_response_witness :
  fst (ImapConnect.connect_imap_try ImapConnect.refusing "imap.aol.com"
         "a@aol.com" "p1" (ImapConnect.mkFrame None []))
  = inl ImapConnect.UnboundLocalError /\
  ImapConnect.connect_imap_body ImapConnect.refusing "imap.aol.com"
    "a@aol.com" "p1" 0 (ImapConnect.mkFrame None [])
  = (Continue,
     ImapConnect.mkFrame None
       ([ImapConnect.CvSleep 3;
         ImapConnect.CvAuthenticate "a@aol.com" "p1"
           (inl ImapConnect.Imap4Error);
         ImapConnect.CvLogin "a@aol.com" "p1" (inl ImapConnect.Imap4Error);
         ImapConnect.CvConnect "imap.aol.com"
           (ImapConnect.ssl_context_for "imap.aol.com") (inr tt)] ++ [])).
Proof.
  apply (connect_imap_unbound_response ImapConnect.refusing "imap.aol.com"
           "a@aol.com" "p1" 0 [] ImapConnect.Imap4Error);
    reflexivity.
Defined.


(** ** The server [inboxmail] turns to *)

Section ServerChoice.

Import ImapConnect.

Lemma split_on_lacks c s : lacks c s = true -> split_on c s = [s].
Proof.
  induction s as [| a s IH]; [done |]. simpl.
  intros [Hc Hs]%andb_prop. rewrite Ascii.eqb_sym in Hc.
  destruct (Ascii.eqb a c); [done |]. by rewrite IH.
Qed.

Lemma split_on_length c s : 1 <= List.length (split_on c s).
Proof.
  induction s as [| a s IH]; simpl; [lia |].
  destruct (Ascii.eqb a c); simpl; [lia |].
  destruct (split_on c s); simpl in *; lia.
Qed.

Lemma split_on_has c s :
  lacks c s = false -> 2 <= List.length (split_on c s).
Proof.
  induction s as [| a s IH]; [done |]. simpl.
  rewrite (Ascii.eqb_sym c a).
  destruct (Ascii.eqb a c); simpl.
  - intros _. pose proof (split_on_length c s). lia.
  - intros H. specialize (IH H).
    destruct (split_on c s); simpl in *; lia.
Qed.

Lemma lacks_app_cons c a b : lacks c (a +:+ String c b) = false.
Proof.
  induction a as [| x a IH].
  - change (EmptyString +:+ String c b) with (String c b). simpl.
    by rewrite Ascii.eqb_refl.
  - change (String x a +:+ String c b) with (String x (a +:+ String c b)).
    simpl. by rewrite IH, andb_false_r.
Qed.

(** The last part of a split is the text after the last separator. *)
Lemma split_on_last c domain :
  lacks c domain = true ->
  forall loc,
    List.last (split_on c (loc +:+ String c domain)) EmptyString = domain.
Proof.
  intros Hd. induction loc as [| a loc IH].
  - change (EmptyString +:+ String c domain) with (String c domain).
    simpl. by rewrite Ascii.eqb_refl, (split_on_lacks c domain Hd).
  - change (String a loc +:+ String c domain)
      with (String a (loc +:+ String c domain)).
    pose proof (split_on_has c _ (lacks_app_cons c loc domain)) as Hlen.
    simpl. destruct (Ascii.eqb a c).
    + destruct (split_on c (loc +:+ String c domain)) as [| p ps];
        [simpl in Hlen; lia | exact IH].
    + destruct (split_on c (loc +:+ String c domain)) as [| p [| p' ps]];
        [simpl in Hlen; lia | simpl in Hlen; lia | exact IH].
Qed.

End ServerChoice.

(** X17. [inboxmail] turns to no server exactly when the email or the
    password is empty or the email holds no [@].  Otherwise it tries one
    server, chosen by the lower-cased text after the last [@] of the email:
    the mapped host of a known provider, else [imap.] followed by that
    text. *)
Theorem inboxmail_server_choice (email password : string) :
  (ImapConnect.imap_servers email password = None <->
   email = EmptyString \/ password = EmptyString \/ lacks "@" email = true) /\
  (forall loc domain,
     email = loc +:+ "@" +:+ domain ->
     lacks "@" domain = true ->
     password <> EmptyString ->
     ImapConnect.imap_servers email password
     = Some [ImapConnect.mapping_get (lower domain)
               ImapConnect.server_mappings ("imap." +:+ lower domain)]) /\
  (forall servers,
     ImapConnect.imap_servers email password = Some servers ->
     List.length servers = 1).
Proof.
  unfold ImapConnect.imap_servers, truthy_str.
  split; [| split].
  - destruct (String.eqb_spec email EmptyString) as [-> | He]; simpl;
      [by intuition |].
    destruct (String.eqb_spec password EmptyString) as [-> | Hp]; simpl;
      [by intuition |].
    destruct (lacks "@" email) eqn:Hl.
    + rewrite (split_on_lacks _ _ Hl). simpl. by intuition.
    + pose proof (split_on_has _ _ Hl) as Hlen.
      destruct (Nat.ltb_spec (List.length (ImapConnect.split_on "@" email)) 2);
        [lia |].
      split; [done |]. by intros [? | [? | ?]].
  - intros loc domain -> Hd Hp.
    change (loc +:+ "@" +:+ domain) with (loc +:+ String "@" domain).
    pose proof (split_on_has "@" _ (lacks_app_cons "@" loc domain)) as Hlen.
    destruct (String.eqb_spec (loc +:+ String "@" domain) EmptyString)
      as [He | He]; [by destruct loc |].
    destruct (String.eqb_spec password EmptyString) as [-> | _]; [done |].
    simpl negb. simpl orb.
    destruct (Nat.ltb_spec
                (List.length (ImapConnect.split_on "@"
                                (loc +:+ String "@" domain))) 2); [lia |].
    by rewrite (split_on_last "@" domain Hd loc).
  - intros servers.
    destruct (_ || _); [done |].
    destruct (_ <? _)%nat; [done |]. by intros [= <-].
Qed.


(** ** The proxy a result records *)

Section ProxyInStep.

Variable env : Env.

Lemma steady_ret {A} (a : A) : steady (ret a).
Proof. by intros s x s' [= <- <-]. Qed.

Lemma steady_raise {A} e : steady (raise (A := A) e).
Proof. by intros s x s' [= <- <-]. Qed.

Lemma steady_bind {A B} (c : M A) (k : A -> M B) :
  steady c -> (forall a, steady (k a)) -> steady (bind c k).
Proof.
  intros Hc Hk s x s'. unfold bind.
  destruct (c s) as [[e | a] s1] eqn:Hcs.
  - intros [= <- <-]. by apply (Hc _ _ _ Hcs).
  - intros Hks Hs. apply (Hk a _ _ _ Hks). by apply (Hc _ _ _ Hcs).
Qed.

Lemma steady_try_except {A} (body : M A) handler :
  steady body ->
  (forall e h, handler e = Some h -> steady h) ->
  steady (try_except body handler).
Proof.
  intros Hb Hh s x s'. unfold try_except.
  destruct (body s) as [[e | a] s1] eqn:Hbs.
  - destruct (handler e) as [h |] eqn:He.
    + intros Hhs Hs. apply (Hh e h He _ _ _ Hhs). by apply (Hb _ _ _ Hbs).
    + intros [= <- <-]. by apply (Hb _ _ _ Hbs).
  - intros [= <- <-]. by apply (Hb _ _ _ Hbs).
Qed.

Lemma steady_logging {A} (c : M A) :
  (forall s, exists e, snd (c s) = log e s) -> steady c.
Proof.
  intros Hc s x s' Hrun. destruct (Hc s) as [e He].
  rewrite Hrun in He. simpl in He. by subst s'.
Qed.

Lemma steady_session_request m u body : steady (session_request env m u body).
Proof. apply steady_logging. intros s. by eexists. Qed.

Lemma steady_sleep secs : steady (sleep secs).
Proof. apply steady_logging. intros s. by eexists. Qed.

Lemma steady_random_random : steady (random_random env).
Proof. apply steady_logging. intros s. by eexists. Qed.

Lemma steady_get_state : steady get_state.
Proof. by intros s x s' [= <- <-]. Qed.

Lemma steady__rotate_proxy_body attempt : steady (_rotate_proxy_body env attempt).
Proof.
  intros s x s'.
  unfold _rotate_proxy_body, try_except, bind, FreeProxy_get, modify,
    session_get, session_request, sleep, ret.
  simpl.
  destruct (free_proxy env (events s)) as [e | p]; simpl.
  - by intros [= <- <-].
  - destruct (truthy_str p) eqn:Hp; simpl.
    + match goal with
      | |- context [send env ?h ?r] => destruct (send env h r) as [e | resp]
      end; simpl.
      * by intros [= <- <-].
      * destruct (status_code resp =? 200)%Z; by intros [= <- <-].
    + intros [= <- <-] _. unfold in_step. simpl. by rewrite Hp.
Qed.

Lemma steady__rotate_proxy_loop atts : steady (_rotate_proxy_loop env atts).
Proof.
  induction atts as [| attempt rest IH]; simpl; [apply steady_ret |].
  apply steady_bind; [apply steady__rotate_proxy_body |].
  intros [b |]; [apply steady_ret | apply IH].
Qed.

Lemma steady__rotate_proxy strict : steady (_rotate_proxy env strict).
Proof.
  unfold _rotate_proxy.
  apply steady_bind; [apply steady__rotate_proxy_loop |].
  intros [b |]; [apply steady_ret |].
  destruct strict; [apply steady_ret |].
  by intros s x s' [= <- <-].
Qed.

Lemma steady_rotate_on_failure {A} (yes no : M A) :
  steady yes -> steady no ->
  steady (s <- get_state ;;
          ok <- _rotate_proxy env (use_proxy s) ;;
          if negb ok then yes else no).
Proof.
  intros Hyes Hno.
  apply steady_bind; [apply steady_get_state | intros s0].
  apply steady_bind; [apply steady__rotate_proxy | intros ok].
  by destruct ok.
Qed.

Lemma steady__get_auth_token_body email password attempt :
  steady (_get_auth_token_body env email password attempt).
Proof.
  unfold _get_auth_token_body.
  apply steady_try_except.
  - apply steady_bind; [apply steady_session_request | intros login_page].
    apply steady_bind; [apply steady_session_request | intros response].
    destruct (status_code response =? 200)%Z.
    + apply steady_try_except.
      * apply steady_bind.
        -- unfold response_json.
           destruct (json_body response); [apply steady_ret | apply steady_raise].
        -- intros data. apply steady_bind; [| intros ?; apply steady_ret].
           unfold py_get. destruct data; try apply steady_raise.
           apply steady_ret.
      * intros e h. destruct (is_JSONDecodeError e); [| done].
        intros [= <-]. apply steady_ret.
    + destruct (_ || _)%Z; [| apply steady_ret].
      apply steady_rotate_on_failure; apply steady_ret.
  - intros e h. destruct (is_RequestException e).
    + intros [= <-]. destruct (attempt <? _)%nat; [| apply steady_ret].
      apply steady_rotate_on_failure; [apply steady_ret |].
      apply steady_bind; [apply steady_sleep | intros ?; apply steady_ret].
    + intros [= <-]. apply steady_ret.
Qed.

Lemma steady__get_auth_token_loop email password atts :
  steady (_get_auth_token_loop env email password atts).
Proof.
  induction atts as [| attempt rest IH]; simpl; [apply steady_ret |].
  apply steady_bind; [apply steady__get_auth_token_body |].
  intros [v |]; [apply steady_ret | apply IH].
Qed.

Lemma steady_check_credentials email password :
  steady (check_credentials env email password).
Proof.
  unfold check_credentials, _get_auth_token.
  apply steady_bind; [apply steady__get_auth_token_loop | intros token].
  destruct (truthy token); apply steady_ret.
Qed.

Lemma steady_check_single email password :
  steady (check_single env email password).
Proof.
  unfold check_single.
  apply steady_bind; [apply steady_check_credentials | intros is_valid].
  apply steady_bind; [apply steady_get_state | intros s0].
  apply steady_bind; [| intros ?; apply steady_ret].
  destruct is_valid; by intros s x s' [= <- <-].
Qed.

Lemma steady_check_bulk_loop credentials :
  forall results, steady (check_bulk_loop env credentials results).
Proof.
  induction credentials as [| cred rest IH]; intros results; simpl;
    [apply steady_ret |].
  apply steady_bind.
  { unfold subscript. destruct (cred !! _); [apply steady_ret | apply steady_raise]. }
  intros email. apply steady_bind.
  { unfold subscript. destruct (cred !! _); [apply steady_ret | apply steady_raise]. }
  intros password.
  apply steady_bind; [apply steady_check_single | intros result].
  apply steady_bind; [apply steady_get_state | intros s0].
  apply steady_bind.
  { destruct (use_proxy s0); [| apply steady_ret].
    apply steady_bind; [apply steady_random_random | intros r].
    destruct (negb _); [| apply steady_ret].
    apply steady_bind; [apply steady__rotate_proxy | intros ?; apply steady_ret]. }
  intros _. apply steady_bind.
  { unfold random_uniform.
    apply steady_bind; [apply steady_random_random | intros ?; apply steady_ret]. }
  intros d. apply steady_bind; [apply steady_sleep | intros _; apply IH].
Qed.

(** Every state the checker can reach is in step. *)
Lemma reachable_in_step processed s : reachable env processed s -> in_step s.
Proof.
  induction 1 as [use history
                 | processed s email password r s' _ IH Hrun
                 | processed s credentials results s' _ IH Hrun
                 | processed s strict outcome s' _ IH Hrun].
  - unfold __init__. destruct use; [| done].
    destruct (_rotate_proxy env true (blank true history)) as [x s'] eqn:Hrun.
    by apply (steady__rotate_proxy true _ _ _ Hrun).
  - by apply (steady_check_single _ _ _ _ _ Hrun).
  - by apply (steady_check_bulk_loop _ _ _ _ _ Hrun).
  - by apply (steady__rotate_proxy _ _ _ _ Hrun).
Qed.

End ProxyInStep.


Section RecordedProxy.

Variable env : Env.
Variables email password : string.

Ltac run_body :=
  unfold _get_auth_token_body, try_except, bind, session_get, session_post,
    session_request, get_state, ret, response_json, py_get, raise, sleep,
    modify; simpl.

Ltac call_rotate :=
  match goal with
  | |- context [_rotate_proxy env ?b ?st] =>
      let ok := fresh "ok" in
      let rot := fresh "rot" in
      let s3 := fresh "s" in
      let Hrot := fresh "Hrot" in
      destruct (_rotate_proxy_spec env b st) as (ok & rot & s3 & Hrot & _);
      rewrite Hrot; simpl; destruct ok; simpl
  end.

Ltac no_token := first [by intros [= <- <-] | by intros [=]].

(** A pass that returns a truthy token ends on the accepted login request. *)
Lemma body_success_on_top attempt s v s' :
  _get_auth_token_body env email password attempt s = (inr (Return v), s') ->
  truthy v = true -> success_on_top s'.
Proof.
  run_body.
  destruct (send env (events s) _) as [e | page]; simpl.
  - destruct (is_RequestException e); simpl; [| no_token].
    destruct (attempt <? 1)%nat; simpl; [| no_token].
    call_rotate; no_token.
  - match goal with
    | |- context [send env ?h ?r] =>
        destruct (send env h r) as [e | resp] eqn:Hpost
    end; simpl.
    + destruct (is_RequestException e); simpl; [| no_token].
      destruct (attempt <? 1)%nat; simpl; [| no_token].
      call_rotate; no_token.
    + destruct (status_code resp =? 200)%Z eqn:H200; simpl.
      * destruct (json_body resp) as [[ | b | z | str | l | d] |] eqn:Hjson;
          simpl; try no_token.
        intros [= <- <-] Hv. eexists _, resp, _. simpl.
        split; [reflexivity |]. split; [| reflexivity].
        unfold has_token. by rewrite H200, Hjson.
      * destruct (_ || _)%Z; simpl; [| no_token].
        call_rotate; no_token.
Qed.

Lemma loop_success_on_top atts :
  forall s v s',
    _get_auth_token_loop env email password atts s = (inr v, s') ->
    truthy v = true -> success_on_top s'.
Proof.
  induction atts as [| attempt rest IH]; intros s v s'; simpl.
  - by intros [= <- <-].
  - unfold bind.
    destruct (_get_auth_token_body env email password attempt s)
      as [[e | [v0 |]] s1] eqn:Hbody; [done | |].
    + intros [= <- <-]. by apply (body_success_on_top attempt s).
    + apply IH.
Qed.

Lemma check_single_success_on_top s r s' :
  check_single env email password s = (inr r, s') ->
  r_proxy r = proxy s' /\ (r_valid r = true -> success_on_top s').
Proof.
  unfold check_single, check_credentials, _get_auth_token, bind.
  destruct (_get_auth_token_loop env email password (seq 0 max_retries) s)
    as [[e | v] s1] eqn:Hloop; [done |].
  destruct (truthy v) eqn:Hv; simpl; intros [= <- <-]; simpl;
    (split; [done |]); [| done].
  intros _. by apply (loop_success_on_top _ _ _ _ Hloop).
Qed.

End RecordedProxy.

(** X18. In every state the strict-proxy checker can reach, a proxy held in
    [self.proxy] is the one the session sends through.  So the proxy a valid
    result records, when it records one, is the proxy through which the
    accepted login request went, and that request is the last thing the check
    did. *)
Theorem recorded_proxy_is_the_one_used (env : Env)
    (processed : list Result) (s : State) (email password : string)
    (r : Result) (s' : State)
    (Hreach : reachable env processed s)
    (Hrun : check_single env email password s = (inr r, s')) :
  in_step s /\ in_step s' /\ r_proxy r = proxy s' /\
  (r_valid r = true ->
   exists req resp rest,
     events s' = EvRequest req (inr resp) :: rest /\
     is_success (EvRequest req (inr resp)) = true /\
     via req = session_proxies s' /\
     (truthy_str (r_proxy r) = true -> via req = r_proxy r)).
Proof.
  pose proof (reachable_in_step env processed s Hreach) as Hs.
  pose proof (steady_check_single env email password _ _ _ Hrun Hs) as Hs'.
  destruct (check_single_success_on_top env email password s r s' Hrun)
    as [Hp Hv].
  split; [done |]. split; [done |]. split; [done |].
  intros Hvalid. destruct (Hv Hvalid) as (req & resp & rest & Hev & Hok & Hvia).
  exists req, resp, rest. split; [done |]. split; [done |]. split; [done |].
  intros Ht. rewrite Hvia, Hp. apply Hs'. by rewrite <- Hp.
Qed.

Lemma recorded_proxy_is_the_one_used_witness :
  in_step (__init__ Stub.accepts_a true []) /\
  in_step (snd (check_single Stub.accepts_a "a@x.com" "p1"
                  (__init__ Stub.accepts_a true []))) /\
  r_proxy (mkResult "a@x.com" "p1" true (Some "http://10.0.0.1:8080"))
  = proxy (snd (check_single Stub.accepts_a "a@x.com" "p1"
                  (__init__ Stub.accepts_a true []))) /\
  (r_valid (mkResult "a@x.com" "p1" true (Some "http://10.0.0.1:8080")) = true ->
   exists req resp rest,
     events (snd (check_single Stub.accepts_a "a@x.com" "p1"
                    (__init__ Stub.accepts_a true [])))
     = EvRequest req (inr resp) :: rest /\
     is_success (EvRequest req (inr resp)) = true /\
     via req
     = session_proxies (snd (check_single Stub.accepts_a "a@x.com" "p1"
                               (__init__ Stub.accepts_a true []))) /\
     (truthy_str
        (r_proxy (mkResult "a@x.com" "p1" true (Some "http://10.0.0.1:8080")))
      = true ->
      via req
      = r_proxy (mkResult "a@x.com" "p1" true (Some "http://10.0.0.1:8080")))).
Proof.
  apply (recorded_proxy_is_the_one_used Stub.accepts_a []
           (__init__ Stub.accepts_a true []) "a@x.com" "p1"
           (mkResult "a@x.com" "p1" true (Some "http://10.0.0.1:8080"))
           (snd (check_single Stub.accepts_a "a@x.com" "p1"
                   (__init__ Stub.accepts_a true [])))).
  - apply (reach_init Stub.accepts_a true []).
  - vm_compute. reflexivity.
Defined.

(** The premise that a proxy is recorded cannot be dropped: when the
    directory gave a proxy that failed its health check and then nothing, the
    session still sends through that proxy while the result records none. *)
Remark recorded_proxy_may_be_none :
  fst (check_single drying_up "a@x.com" "p1" (__init__ drying_up true []))
  = inr (mkResult "a@x.com" "p1" true None) /\
  session_proxies
    (snd (check_single drying_up "a@x.com" "p1" (__init__ drying_up true [])))
  = Some "http://10.0.0.1:8080".
Proof. split; vm_compute; reflexivity. Qed.


(** ** The counts in the order Python keeps them *)

Section OrderedCounts.

Import EmailChecker Inbox.

Variable imap : Imap.
Variable str_of : pyval -> string.

Lemma as_map_set k v d : as_map (odict_set k v d) = <[k := v]> (as_map d).
Proof.
  unfold as_map. induction d as [| [k' v'] rest IH]; [done |]. simpl.
  destruct (String.eqb_spec k k') as [<- | Hne]; simpl.
  - by rewrite insert_insert_eq.
  - by rewrite IH, insert_insert_ne.
Qed.

Lemma agree_ret {A B} (R : A -> B -> Prop) a b :
  R a b -> agree R (ret a) (ret b).
Proof. by intros H h. Qed.

Lemma agree_same {A} (c : EmailChecker.M A) : agree eq c c.
Proof. intros h. by destruct (c h) as [[e | a] h1]. Qed.

Lemma agree_bind {A B A' B'} (R : A -> B -> Prop) (R' : A' -> B' -> Prop)
    c1 c2 k1 k2 :
  agree R c1 c2 ->
  (forall a b, R a b -> agree R' (k1 a) (k2 b)) ->
  agree R' (bind c1 k1) (bind c2 k2).
Proof.
  intros Hc Hk h. unfold bind. specialize (Hc h).
  destruct (c1 h) as [[e1 | a] h1], (c2 h) as [[e2 | b] h2]; try done.
  destruct Hc as [Hab <-]. by apply Hk.
Qed.

Local Abbreviation counts_agree := (fun d m => as_map d = m).

Lemma agree_one_search (flag : pyval) key query d m :
  as_map d = m ->
  agree counts_agree
    (if truthy flag then
       data <- fetch_emails imap query ;;
       ret (odict_set key (List.length data) d)
     else ret d)
    (if truthy flag then
       data <- fetch_emails imap query ;;
       ret (<[key := List.length data]> m)
     else ret m).
Proof.
  intros Hd. destruct (truthy flag); [| by apply agree_ret].
  eapply agree_bind; [apply agree_same |].
  intros data ? <-. apply agree_ret. by rewrite as_map_set, Hd.
Qed.

Lemma agree_default_checks cfg :
  agree same_counts (Inbox.default_checks_items imap cfg)
    (default_checks imap cfg).
Proof.
  unfold Inbox.default_checks_items, default_checks.
  eapply (agree_bind counts_agree).
  { destruct (truthy _); [| by apply agree_ret].
    eapply agree_bind; [apply agree_same | intros a ? <-].
    eapply agree_bind; [apply agree_same | intros b ? <-].
    apply agree_ret. by rewrite as_map_set. }
  intros d1 m1 H1. eapply (agree_bind counts_agree).
  { by apply agree_one_search. }
  intros d2 m2 H2.
  eapply (agree_bind (fun r1 r2 => as_map (fst r1) = fst r2 /\ snd r1 = snd r2)).
  { destruct (truthy _); [| by apply agree_ret].
    eapply agree_bind; [apply agree_same | intros a ? <-].
    eapply agree_bind; [apply agree_same | intros y ? <-].
    apply agree_ret. simpl. by rewrite as_map_set, H2. }
  intros [d3 dy] [m3 dy'] [H3 Hdy]. simpl in H3, Hdy. subst dy'. simpl.
  eapply (agree_bind (fun r1 r2 => as_map (fst r1) = fst r2 /\ snd r1 = snd r2)).
  { destruct (truthy _); [| by apply agree_ret].
    eapply agree_bind; [apply agree_same | intros a ? <-].
    eapply agree_bind; [apply agree_same | intros b ? <-].
    eapply agree_bind; [apply agree_same | intros y ? <-].
    apply agree_ret. simpl. by rewrite as_map_set, H3. }
  intros [d4 ry] [m4 ry'] [H4 Hry]. simpl in H4, Hry. subst ry'. simpl.
  eapply (agree_bind counts_agree).
  { by apply agree_one_search. }
  intros d5 m5 H5. eapply (agree_bind counts_agree).
  { by apply agree_one_search. }
  intros d6 m6 H6. eapply (agree_bind counts_agree).
  { by apply agree_one_search. }
  intros d7 m7 H7. by apply agree_ret.
Qed.

Lemma agree_custom_checks_loop items :
  forall d m,
    as_map d = m ->
    agree counts_agree (Inbox.custom_checks_loop_items imap str_of items d)
      (custom_checks_loop imap str_of items m).
Proof.
  induction items as [| [check_name check_info] rest IH]; intros d m Hd;
    simpl; [by apply agree_ret |].
  destruct (is_reserved check_name); [by apply IH |].
  eapply agree_bind; [apply agree_same | intros enabled ? <-].
  destruct (truthy enabled); [| by apply IH].
  eapply agree_bind; [apply agree_same | intros address ? <-].
  eapply agree_bind; [apply agree_same | intros data ? <-].
  apply IH. by rewrite as_map_set, Hd.
Qed.

(** The counting over the ordered dict and the counting over the map end
    alike, with the same counts. *)
Lemma agree_count_hits cfg custom_checks :
  agree same_counts (Inbox.count_hits_items imap str_of cfg custom_checks)
    (count_hits imap str_of cfg custom_checks).
Proof.
  unfold Inbox.count_hits_items, count_hits.
  eapply agree_bind; [apply agree_default_checks |].
  intros [[d dy] ry] [[m dy'] ry'] (Hd & Hdy & Hry). simpl in *. subst.
  eapply agree_bind; [by apply agree_custom_checks_loop |].
  intros d' m' Hd'. by apply agree_ret.
Qed.

End OrderedCounts.


(** ** [inboxmail] as a whole *)

Section InboxFlow.

Import EmailChecker ImapConnect Inbox.

Variable out : Outside.
Variable cfg : Config.
Variable custom : list (string * pyval).
Variables email password : string.

Lemma count_of_app f a b : count_of f (a ++ b) = count_of f a + count_of f b.
Proof. unfold count_of. by rewrite List.filter_app, List.length_app. Qed.

(** The first loop over the counts writes one line per service with hits,
    in order, and stops at the first line that cannot be written. *)
Lemma write_hits_spec counts items :
  incl items counts ->
  forall w,
    exists x new,
      write_hits out email password items w
      = (x, mkWorld (connecting w) (counting w) (new ++ io w)) /\
      Forall (fun e => is_append e = true /\
                       well_reported email password counts e) new /\
      match x with
      | inr _ =>
          count_of is_failed new = 0 /\
          count_of is_append new = List.length (List.filter has_hits items)
      | inl _ => True
      end.
Proof.
  induction items as [| [service count] rest IH]; intros Hin w.
  - exists (inr tt), []. by destruct w.
  - assert (Hrest : incl rest counts)
      by (intros item Hitem; apply Hin; by right).
    simpl. unfold bind, has_hits. simpl.
    destruct (Nat.ltb_spec 0 count) as [Hpos | Hzero].
    + unfold append_to.
      set (e := IoAppend (hits_file service) (hits_line email password count)).
      assert (Hok : forall a,
                 is_append (e a) = true /\
                 well_reported email password counts (e a)).
      { intros a. split; [done |]. exists service, count.
        split; [apply Hin; by left | done]. }
      destruct (append_line out (io w) _ _) as [err | []] eqn:Ha.
      * exists (inl err), [e (inl err)]. split; [done |].
        split; [| done]. constructor; [apply Hok | constructor].
      * destruct (IH Hrest (io_log (e (inr tt)) w))
          as (x & new & -> & Hnew & Hx).
        exists x, (new ++ [e (inr tt)]). simpl. rewrite <- app_assoc.
        split; [done |].
        split; [apply Forall_app; split;
                  [done | constructor; [apply Hok | constructor]] |].
        destruct x as [err | u]; [done |].
        rewrite !count_of_app. destruct Hx as [-> ->].
        unfold count_of, has_hits. simpl. split; [done | lia].
    + unfold ret. destruct (IH Hrest w) as (x & new & -> & Hnew & Hx).
      by exists x, new.
Qed.

(** The end of the [try] block. *)
Lemma report_spec counts discord_year reddit_year w :
  exists x new,
    report out email password counts discord_year reddit_year w
    = (x, mkWorld (connecting w) (counting w) (new ++ io w)) /\
    Forall (fun e => is_report e = true /\
                     well_reported email password counts e) new /\
    count_of is_post new <= 1 /\
    (count_of is_post new = 1 ->
     count_of is_failed new = 0 /\
     count_of is_append new = List.length (List.filter has_hits counts) /\
     exists embed a rest, new = IoPost embed a :: rest).
Proof.
  assert (Hwrite := write_hits_spec counts counts (incl_refl counts)).
  assert (Happends : forall evs,
             Forall (fun e => is_append e = true /\
                              well_reported email password counts e) evs ->
             Forall (fun e => is_report e = true /\
                              well_reported email password counts e) evs /\
             count_of is_post evs = 0).
  { induction 1 as [| e evs [He1 He2] _ [IH1 IH2]]; [done |].
    split; [constructor; [| done] |].
    - split; [by destruct e | done].
    - by destruct e. }
  unfold report. cbv beta iota zeta delta [bind os_path_exists].
  set (seen := IoExists "Valid Mails" (path_exists out (io w) "Valid Mails")).
  assert (Hseen : is_report seen = true /\
                  well_reported email password counts seen) by done.
  (* the directory *)
  assert (Hdir : exists x dir,
             ((if negb (path_exists out (io w) "Valid Mails")
               then os_makedirs out "Valid Mails" else ret tt)
              : Exc.M World unit)
               (io_log seen w)
             = (x, mkWorld (connecting w) (counting w) (dir ++ io w)) /\
             Forall (fun e => is_report e = true /\
                              well_reported email password counts e) dir /\
             count_of is_post dir = 0 /\
             match x with
             | inr _ => count_of is_failed dir = 0 /\
                        count_of is_append dir = 0
             | inl _ => True
             end).
  { destruct (path_exists out (io w) "Valid Mails") eqn:Hthere; simpl.
    - exists (inr tt), [seen]. unfold seen; rewrite ?Hthere.
      split; [done |]. split; [by repeat constructor | done].
    - unfold os_makedirs. simpl.
      destruct (makedirs out (seen :: io w) "Valid Mails") as [err | []] eqn:Hm.
      + exists (inl err), [IoMakedirs "Valid Mails" (inl err); seen].
        unfold seen; rewrite ?Hthere.
        split; [done |]. split; [by repeat constructor | done].
      + exists (inr tt), [IoMakedirs "Valid Mails" (inr tt); seen].
        unfold seen; rewrite ?Hthere.
        split; [done |]. split; [by repeat constructor | done]. }
  destruct Hdir as (x1 & dir & -> & Hdir & Hnopost & Hx1).
  destruct x1 as [err | []]; cbv beta iota.
  { exists (inl err), dir. split; [done |]. split; [done |].
    rewrite Hnopost. split; [lia | done]. }
  destruct Hx1 as [Hfail1 Happ1].
  (* the lines *)
  destruct (Hwrite (mkWorld (connecting w) (counting w) (dir ++ io w)))
    as (x2 & lines & -> & Hlines & Hx2).
  cbv beta iota.
  destruct (Happends lines Hlines) as [Hrep Hnopost2].
  destruct x2 as [err | []]; cbv beta iota.
  { exists (inl err), (lines ++ dir). rewrite <- app_assoc.
    split; [done |]. split; [by apply Forall_app |].
    rewrite count_of_app, Hnopost, Hnopost2. split; [lia | done]. }
  destruct Hx2 as [Hfail2 Happ2].
  (* the webhook *)
  destruct (any_hit counts) eqn:Hany.
  - unfold try_except, post, io_log. cbn [io connecting counting].
    set (embed := mkEmbed "Valid Mail" (email +:+ ":" +:+ password)
                    (embed_fields counts discord_year reddit_year)).
    assert (Hembed : forall a,
               is_report (IoPost embed a) = true /\
               well_reported email password counts (IoPost embed a)).
    { intros a. split; [done |]. split; [done |]. split; [done |].
      simpl. clear. induction counts as [| [service count] rest IH];
        [done |].
      simpl. destruct (0 <? count)%nat; simpl; by rewrite IH. }
    exists (inr tt),
      (IoPost embed (requests_post out (lines ++ dir ++ io w) embed)
       :: lines ++ dir).
    split.
    { rewrite <- app_comm_cons, <- app_assoc.
      by destruct (requests_post out (lines ++ dir ++ io w) embed). }
    split; [constructor; [by apply Hembed | by apply Forall_app] |].
    change (count_of is_post (IoPost embed _ :: lines ++ dir))
      with (S (count_of is_post (lines ++ dir))).
    rewrite count_of_app, Hnopost, Hnopost2.
    split; [lia |]. intros _.
    change (count_of is_failed (IoPost embed _ :: lines ++ dir))
      with (count_of is_failed (lines ++ dir)).
    change (count_of is_append (IoPost embed _ :: lines ++ dir))
      with (count_of is_append (lines ++ dir)).
    rewrite !count_of_app, Hfail1, Hfail2, Happ1, Happ2.
    split; [done |]. split; [lia |]. by eexists _, _, _.
  - exists (inr tt), (lines ++ dir). rewrite <- app_assoc.
    split; [done |]. split; [by apply Forall_app |].
    rewrite count_of_app, Hnopost, Hnopost2. split; [lia | done].
Qed.

(** The counting over the ordered dict extends the log, and fails exactly
    on an ill-formed custom check. *)
Lemma count_hits_items_faults h :
  exists x new,
    count_hits_items (mailbox out) (str out) cfg custom h = (x, new ++ h) /\
    match first_fault custom with
    | Some e => x = inl e
    | None => exists counts discord_year reddit_year,
                x = inr (counts, discord_year, reddit_year)
    end.
Proof.
  pose proof (agree_count_hits (mailbox out) (str out) cfg custom h) as Hagree.
  destruct (count_hits_faults (mailbox out) (str out) cfg custom h)
    as (x & new & Hrun & _ & Hx).
  rewrite Hrun in Hagree.
  destruct (count_hits_items (mailbox out) (str out) cfg custom h)
    as [[e | [[counts dy] ry]] h'].
  - destruct x as [e' | r]; [| done]. destruct Hagree as [-> ->].
    exists (inl e'), new. split; [done |].
    destruct (first_fault custom); [by injection Hx as -> |].
    by destruct Hx as (? & ? & ? & ? & _).
  - destruct x as [e' | r]; [done |]. destruct Hagree as [_ ->].
    exists (inr (counts, dy, ry)), new. split; [done |].
    destruct (first_fault custom); [done | by eauto].
Qed.

(** The [finally] block. *)
Lemma closing_spec w :
  exists closing,
    try_except (close out ;;; logout out) (fun _ => Some (ret tt)) w
    = (inr tt, mkWorld (connecting w) (counting w) (closing ++ io w)) /\
    ((exists e, closing = [IoClose (inl e)]) \/
     (exists l, closing = [IoLogout l; IoClose (inr tt)])).
Proof.
  unfold try_except, bind, close, logout, io_log. cbn [io connecting counting].
  destruct (imap_close out (io w)) as [e | []] eqn:Hc.
  - exists [IoClose (inl e)]. split; [done |]. by eauto.
  - exists [IoLogout (imap_logout out (IoClose (inr tt) :: io w));
            IoClose (inr tt)].
    split; [| by eauto].
    by destruct (imap_logout out (IoClose (inr tt) :: io w)) as [? | []].
Qed.

(** The [try] block under its handler. *)
Lemma inspect_spec w :
  exists mnew body,
    try_except (inspect out cfg custom email password)
      (fun _ => Some (ret tt)) w
    = (inr tt,
       mkWorld (connecting w) (mnew ++ counting w)
         ((body ++ [IoSelect "inbox" (imap_select out (io w) "inbox")])
          ++ io w)) /\
    Forall (fun e => is_report e = true) body /\
    count_of is_post body <= 1 /\
    if selected_ok (imap_select out (io w) "inbox") then
      snd (count_hits_items (mailbox out) (str out) cfg custom (counting w))
      = mnew ++ counting w /\
      match fst (count_hits_items (mailbox out) (str out) cfg custom
                   (counting w)) with
      | inl _ => body = []
      | inr (counts, _, _) =>
          Forall (well_reported email password counts) body /\
          (count_of is_post body = 1 ->
           count_of is_failed body = 0 /\
           count_of is_append body = List.length (List.filter has_hits counts))
      end
    else mnew = [] /\ body = [].
Proof.
  unfold try_except, inspect. cbv beta iota zeta delta [bind select].
  set (a := imap_select out (io w) "inbox").
  destruct a as [e | [status messages]] eqn:Ha; cbv beta iota.
  { exists [], []. split; [done |]. split; [by constructor |].
    split; [unfold count_of; simpl; lia | done]. }
  cbn [fst selected_ok].
  destruct (String.eqb status "OK") eqn:Hok; cbn [negb]; cbv beta iota.
  2:{ exists [], []. split; [done |]. split; [by constructor |].
      split; [unfold count_of; simpl; lia | done]. }
  unfold count. cbv beta iota zeta. unfold io_log. cbn [io connecting counting].
  destruct (count_hits_items_faults (counting w)) as (x & mnew & Hcount & _).
  rewrite Hcount. cbn [fst snd].
  destruct x as [e | [[counts dy] ry]]; cbv beta iota.
  { exists mnew, []. split; [done |]. split; [by constructor |].
    split; [unfold count_of; simpl; lia | done]. }
  cbn [fst snd].
  destruct (report_spec counts dy ry
              (mkWorld (connecting w) (mnew ++ counting w)
                 (IoSelect "inbox" (inr (status, messages)) :: io w)))
    as (x & body & -> & Hbody & Hpost & Hsent).
  cbn [io connecting counting].
  exists mnew, body. rewrite <- app_assoc. split.
  { by destruct x as [? | []]. }
  split; [eapply Forall_impl; [exact Hbody | by intros e [He _]] |].
  split; [done |]. split; [done |].
  split; [eapply Forall_impl; [exact Hbody | by intros e [_ He]] |].
  intros H. by destruct (Hsent H) as (? & ? & _).
Qed.

(** The body of the loop over the servers. *)
Lemma visit_spec imap_server w :
  exists cnew mnew inew,
    visit out cfg custom imap_server email password w
    = (inr tt,
       mkWorld (cnew ++ connecting w) (mnew ++ counting w) (inew ++ io w)) /\
    connects cnew <= 3 /\
    if existsb is_logged_in cnew then
      exists closing body,
        inew = closing
               ++ body ++ [IoSelect "inbox" (imap_select out (io w) "inbox")] /\
        ((exists e, closing = [IoClose (inl e)]) \/
         (exists l, closing = [IoLogout l; IoClose (inr tt)])) /\
        Forall (fun e => is_report e = true) body /\
        count_of is_post body <= 1 /\
        if selected_ok (imap_select out (io w) "inbox") then
          snd (count_hits_items (mailbox out) (str out) cfg custom
                 (counting w))
          = mnew ++ counting w /\
          match fst (count_hits_items (mailbox out) (str out) cfg custom
                       (counting w)) with
          | inl _ => body = []
          | inr (counts, _, _) =>
              Forall (well_reported email password counts) body /\
              (count_of is_post body = 1 ->
               count_of is_failed body = 0 /\
               count_of is_append body
               = List.length (List.filter has_hits counts))
          end
        else mnew = [] /\ body = []
    else mnew = [] /\ inew = [].
Proof.
  unfold visit. unfold bind at 1. unfold connect, connect_imap.
  destruct (connect_imap_loop_spec (mailhost out) imap_server email password
              (seq 0 3) (mkFrame None (connecting w)))
    as (r & cnew & st & Hrun & Hev & Hn & _ & Hr).
  rewrite Hrun. cbn [fst snd]. simpl in Hev, Hn. rewrite Hev.
  destruct r as [imap |].
  - destruct Hr as (_ & _ & ev & rest & -> & Hin & _).
    unfold try_finally.
    destruct (inspect_spec (mkWorld ((ev :: rest) ++ connecting w)
                              (counting w) (io w)))
      as (mnew & body & -> & Hbody & Hpost & Hsel).
    cbn [io connecting counting] in *.
    destruct (closing_spec
                (mkWorld ((ev :: rest) ++ connecting w) (mnew ++ counting w)
                   ((body ++ [IoSelect "inbox"
                                (imap_select out (io w) "inbox")]) ++ io w)))
      as (closing & -> & Hclosing).
    cbn [io connecting counting].
    exists (ev :: rest), mnew,
      (closing ++ body ++ [IoSelect "inbox" (imap_select out (io w) "inbox")]).
    rewrite <- !app_assoc. split; [done |]. split; [done |].
    cbn [existsb]. rewrite Hin. cbn [orb].
    by exists closing, body.
  - destruct Hr as (_ & _ & Hout & _).
    exists cnew, [], []. rewrite Hout. by destruct w.
Qed.

(** [inboxmail] never raises; it visits at most one server. *)
Lemma inboxmail_spec w :
  exists cnew mnew inew,
    inboxmail out cfg custom email password w
    = (inr tt,
       mkWorld (cnew ++ connecting w) (mnew ++ counting w) (inew ++ io w)) /\
    connects cnew <= 3 /\
    if existsb is_logged_in cnew then
      exists closing body,
        inew = closing
               ++ body ++ [IoSelect "inbox" (imap_select out (io w) "inbox")] /\
        ((exists e, closing = [IoClose (inl e)]) \/
         (exists l, closing = [IoLogout l; IoClose (inr tt)])) /\
        Forall (fun e => is_report e = true) body /\
        count_of is_post body <= 1 /\
        if selected_ok (imap_select out (io w) "inbox") then
          snd (count_hits_items (mailbox out) (str out) cfg custom
                 (counting w))
          = mnew ++ counting w /\
          match fst (count_hits_items (mailbox out) (str out) cfg custom
                       (counting w)) with
          | inl _ => body = []
          | inr (counts, _, _) =>
              Forall (well_reported email password counts) body /\
              (count_of is_post body = 1 ->
               count_of is_failed body = 0 /\
               count_of is_append body
               = List.length (List.filter has_hits counts))
          end
        else mnew = [] /\ body = []
    else mnew = [] /\ inew = [].
Proof.
  unfold inboxmail, imap_servers.
  assert (Hnone : exists cnew mnew inew,
             ret tt w
             = (inr tt,
                mkWorld (cnew ++ connecting w) (mnew ++ counting w)
                  (inew ++ io w)) /\
             connects cnew <= 3 /\
             existsb is_logged_in cnew = false /\ mnew = [] /\ inew = []).
  { exists [], [], []. split; [by destruct w |].
    split; [unfold connects; simpl; lia | done]. }
  destruct (_ || _).
  { destruct Hnone as (cnew & mnew & inew & Hrun & Hn & Hout & Hm & Hi).
    exists cnew, mnew, inew. by rewrite Hout. }
  destruct (_ <? _)%nat.
  { destruct Hnone as (cnew & mnew & inew & Hrun & Hn & Hout & Hm & Hi).
    exists cnew, mnew, inew. by rewrite Hout. }
  cbn [inboxmail_loop]. unfold bind.
  match goal with
  | |- context [visit out cfg custom ?srv email password w] =>
      destruct (visit_spec srv w) as (cnew & mnew & inew & -> & H)
  end.
  by exists cnew, mnew, inew.
Qed.

Lemma report_counts body :
  Forall (fun e => is_report e = true) body ->
  count_of is_select body = 0 /\ count_of is_close body = 0 /\
  count_of is_logout body = 0 /\
  count_of is_report body = List.length body.
Proof.
  unfold count_of.
  induction 1 as [| e body He _ (IH1 & IH2 & IH3 & IH4)]; [done |].
  destruct e; try done; simpl; by rewrite IH4.
Qed.

Lemma closing_counts closing :
  (exists e, closing = [IoClose (inl e)]) \/
  (exists l, closing = [IoLogout l; IoClose (inr tt)]) ->
  count_of is_select closing = 0 /\ count_of is_close closing = 1 /\
  count_of is_logout closing <= 1 /\ count_of is_report closing = 0 /\
  count_of is_post closing = 0 /\ count_of is_failed closing = 0 /\
  count_of is_append closing = 0 /\
  Forall (fun e => is_report e = false) closing /\
  forall rest, closed_at_the_end (closing ++ rest).
Proof.
  unfold count_of.
  intros [[e ->] | [l ->]]; simpl; repeat split; auto; by repeat constructor.
Qed.

End InboxFlow.

(** X19. [inboxmail] never raises.  When [connect_imap] gave no connection
    it touches neither the mailbox nor the file system.  When it gave one,
    the inbox is selected once, first of all, and the visit ends with the one
    call of [close] and, only when that worked, the one call of [logout]. *)
Theorem inboxmail_closes_what_it_opens (out : Inbox.Outside)
    (cfg : EmailChecker.Config) (custom : list (string * pyval))
    (email password : string) (w : Inbox.World) :
  exists cnew mnew inew,
    Inbox.inboxmail out cfg custom email password w
    = (inr tt,
       Inbox.mkWorld (cnew ++ Inbox.connecting w) (mnew ++ Inbox.counting w)
         (inew ++ Inbox.io w)) /\
    ImapConnect.connects cnew <= 3 /\
    if existsb ImapConnect.is_logged_in cnew then
      Inbox.count_of Inbox.is_select inew = 1 /\
      Inbox.count_of Inbox.is_close inew = 1 /\
      Inbox.count_of Inbox.is_logout inew <= 1 /\
      Inbox.closed_at_the_end inew /\
      exists rest,
        inew = rest ++ [Inbox.IoSelect "inbox"
                          (Inbox.imap_select out (Inbox.io w) "inbox")]
    else mnew = [] /\ inew = [].
Proof.
  destruct (inboxmail_spec out cfg custom email password w)
    as (cnew & mnew & inew & Hrun & Hn & H).
  exists cnew, mnew, inew. split; [done |]. split; [done |].
  destruct (existsb ImapConnect.is_logged_in cnew); [| done].
  destruct H as (closing & body & -> & Hclosing & Hbody & _).
  destruct (closing_counts closing Hclosing)
    as (Hc1 & Hc2 & Hc3 & _ & _ & _ & _ & _ & Hend).
  destruct (report_counts body Hbody) as (Hb1 & Hb2 & Hb3 & _).
  rewrite !count_of_app, Hc1, Hc2, Hb1, Hb2, Hb3.
  split; [done |]. split; [done |].
  split; [unfold Inbox.count_of at 2; simpl; lia |].
  split; [by apply Hend |].
  exists (closing ++ body). by rewrite <- app_assoc.
Qed.

(** X20. [inboxmail] writes files and posts to the webhook only after the
    inbox was selected with status OK and the counting came through: with an
    ill-formed custom check nothing is reported, whatever the built-in checks
    found.  Every line goes to the file of a service that has hits and states
    their number; the webhook is posted to at most once, with one field per
    service that has hits, and only after the directory was there and one
    line per such service was written. *)
Theorem inboxmail_reports_what_it_counted (out : Inbox.Outside)
    (cfg : EmailChecker.Config) (custom : list (string * pyval))
    (email password : string) (w : Inbox.World) :
  exists cnew mnew inew,
    Inbox.inboxmail out cfg custom email password w
    = (inr tt,
       Inbox.mkWorld (cnew ++ Inbox.connecting w) (mnew ++ Inbox.counting w)
         (inew ++ Inbox.io w)) /\
    Inbox.count_of Inbox.is_post inew <= 1 /\
    (Inbox.selected_ok (Inbox.imap_select out (Inbox.io w) "inbox") = false ->
     mnew = [] /\ Inbox.count_of Inbox.is_report inew = 0) /\
    (forall e,
       first_fault custom = Some e ->
       Inbox.count_of Inbox.is_report inew = 0) /\
    (forall counts discord_year reddit_year h',
       Inbox.count_hits_items (Inbox.mailbox out) (Inbox.str out) cfg custom
         (Inbox.counting w)
       = (inr (counts, discord_year, reddit_year), h') ->
       Forall (fun e => Inbox.is_report e = true ->
                        Inbox.well_reported email password counts e) inew /\
       (Inbox.count_of Inbox.is_post inew = 1 ->
        Inbox.count_of Inbox.is_failed inew = 0 /\
        Inbox.count_of Inbox.is_append inew
        = List.length (List.filter Inbox.has_hits counts))).
Proof.
  destruct (inboxmail_spec out cfg custom email password w)
    as (cnew & mnew & inew & Hrun & Hn & H).
  exists cnew, mnew, inew. split; [done |].
  destruct (existsb ImapConnect.is_logged_in cnew).
  2:{ destruct H as [-> ->]. unfold Inbox.count_of. simpl.
      split; [lia |]. split; [done |]. split; [done |].
      intros counts dy ry h' _. split; [by constructor | done]. }
  destruct H as (closing & body & -> & Hclosing & Hbody & Hpost & Hsel).
  destruct (closing_counts closing Hclosing)
    as (_ & _ & _ & Hc4 & Hc5 & Hc6 & Hc7 & Hquiet & _).
  destruct (report_counts body Hbody) as (_ & _ & _ & Hb4).
  set (sel := Inbox.IoSelect "inbox"
                (Inbox.imap_select out (Inbox.io w) "inbox")) in *.
  assert (Hs : forall f,
             f sel = false ->
             Inbox.count_of f (closing ++ body ++ [sel])
             = Inbox.count_of f closing + Inbox.count_of f body).
  { intros f Hf. rewrite !count_of_app.
    unfold Inbox.count_of at 3. simpl. rewrite Hf. simpl. lia. }
  rewrite !Hs by done. rewrite Hc4, Hc5, Hc6, Hc7, Hb4.
  split; [lia |].
  destruct (count_hits_items_faults out cfg custom (Inbox.counting w))
    as (x & new & Hcount & Hx).
  rewrite Hcount in Hsel. simpl in Hsel.
  destruct (Inbox.selected_ok _).
  - destruct Hsel as [Hm Hr].
    split; [done |]. split.
    + intros e He. rewrite He in Hx. subst x. by subst body.
    + intros counts dy ry h' Hc. rewrite Hcount in Hc.
      injection Hc as -> <-.
      destruct Hr as [Hr Hsent]. split; [| done].
      apply Forall_app. split; [| apply Forall_app; split].
      * eapply Forall_impl; [exact Hquiet |]. intros e He He'. congruence.
      * eapply Forall_impl; [exact Hr |]. by intros e He _.
      * by repeat constructor.
  - destruct Hsel as [-> ->]. simpl.
    split; [done |]. split; [done |].
    intros counts dy ry h' _. split; [| done].
    apply Forall_app. split; [| by repeat constructor].
    eapply Forall_impl; [exact Hquiet |]. intros e He He'. congruence.
Qed.

(** A run in which everything works: the two messages from Steam give one
    line in the file of Steam and one post, between the selection of the
    inbox and the logout. *)
Example inboxmail_reports_steam :
  Inbox.io (snd (Inbox.inboxmail Inbox.obliging Inbox.steam_only []
                   "a@aol.com" "p1" (Inbox.mkWorld [] [] [])))
  = [Inbox.IoLogout (inr tt); Inbox.IoClose (inr tt);
     Inbox.IoPost
       (Inbox.mkEmbed "Valid Mail" "a@aol.com:p1" [("Steam", "``2 Hits``")])
       (inr 204%Z);
     Inbox.IoAppend "Valid Mails/Steam.txt"
       ("a@aol.com:p1 | 2 hits" +:+ Inbox.newline) (inr tt);
     Inbox.IoMakedirs "Valid Mails" (inr tt);
     Inbox.IoExists "Valid Mails" false;
     Inbox.IoSelect "inbox" (inr ("OK", "3"))].
Proof. vm_compute. reflexivity. Qed.


(** ** A batch with a malformed entry *)

Section BrokenBatch.

Variable env : Env.

(** One turn of the loop of [check_bulk] on a dict that has both keys. *)
Lemma check_bulk_loop_head cred s :
  missing_key cred = None ->
  exists r s3,
    forall rest results,
      check_bulk_loop env (cred :: rest) results s
      = check_bulk_loop env rest (results ++ [r]) s3.
Proof.
  unfold missing_key.
  destruct (cred !! "email") as [em |] eqn:He; [| done].
  destruct (cred !! "password") as [pw |] eqn:Hpw; [| done].
  intros _.
  destruct (check_single_spec env em pw s) as (valid & new & s1 & Hrun & _).
  assert (Hpace : exists s2,
             (if use_proxy s1
              then bind (random_random env)
                     (fun q => if negb (Qle_bool q (binary64 (7 # 10)))
                               then bind (_rotate_proxy env true)
                                      (fun _ => ret tt)
                               else ret tt)
              else ret tt) s1 = (inr tt, s2)).
  { destruct (use_proxy s1); [| by exists s1].
    unfold bind, random_random. simpl.
    destruct (negb _).
    - match goal with |- context [_rotate_proxy env true ?st] =>
        destruct (_rotate_proxy_spec env true st)
          as (ok & rot & s2 & -> & _) end.
      by exists s2.
    - by eexists. }
  destruct Hpace as (s2 & Hpace).
  eexists _, _. intros rest results.
  cbn [check_bulk_loop].
  unfold bind at 1. unfold subscript at 1. rewrite He.
  unfold ret at 1. unfold bind at 1. unfold subscript at 1. rewrite Hpw.
  unfold ret at 1. unfold bind at 1. rewrite Hrun.
  unfold bind at 1. unfold get_state at 1.
  unfold bind at 1. rewrite Hpace.
  unfold bind at 1. unfold random_uniform, random_random, bind at 1. simpl.
  unfold bind at 1. unfold sleep at 1. reflexivity.
Qed.

Lemma check_bulk_loop_stops credentials :
  forall results s,
    exists done s',
      check_bulk_loop env (pairs_before credentials) results s
      = (inr done, s') /\
      List.length done
      = List.length results + List.length (pairs_before credentials) /\
      check_bulk_loop env credentials results s
      = (match first_gap credentials with
         | None => inr done
         | Some key => inl (KeyError key)
         end, s').
Proof.
  induction credentials as [| cred rest IH]; intros results s.
  - exists results, s. simpl. split; [done |]. split; [lia | done].
  - cbn [pairs_before first_gap].
    destruct (missing_key cred) as [key |] eqn:Hkey.
    + exists results, s. split; [done |]. split; [simpl; lia |].
      cbn [check_bulk_loop]. unfold missing_key in Hkey.
      unfold bind at 1. unfold subscript at 1.
      destruct (cred !! "email") as [em |]; [| by injection Hkey as <-].
      unfold ret at 1. unfold bind at 1. unfold subscript at 1.
      destruct (cred !! "password") as [pw |]; [done |].
      by injection Hkey as <-.
    + destruct (check_bulk_loop_head cred s Hkey) as (r & s3 & Hstep).
      destruct (IH (results ++ [r]) s3) as (done & s' & Hrun & Hlen & Hall).
      exists done, s'. rewrite !Hstep.
      split; [done |]. split; [| done].
      rewrite Hlen, length_app. simpl. lia.
Qed.

Lemma first_gap_none credentials :
  first_gap credentials = None <-> Forall is_pair credentials.
Proof.
  split.
  - induction credentials as [| cred rest IH]; [by constructor |].
    cbn [first_gap]. unfold missing_key.
    destruct (cred !! "email") as [em |] eqn:He; [| done].
    destruct (cred !! "password") as [pw |] eqn:Hpw; [| done].
    intros H. constructor; [| by apply IH].
    split; [by rewrite He | by rewrite Hpw].
  - induction 1 as [| cred rest [[em He] [pw Hpw]] _ IH]; [done |].
    cbn [first_gap]. unfold missing_key. by rewrite He, Hpw.
Qed.

Lemma pairs_before_all credentials :
  Forall is_pair credentials -> pairs_before credentials = credentials.
Proof.
  induction 1 as [| cred rest [[em He] [pw Hpw]] _ IH]; [done |].
  cbn [pairs_before]. unfold missing_key. by rewrite He, Hpw, IH.
Qed.

End BrokenBatch.

(** X21. [check_bulk] raises nothing but the [KeyError] of the first dict
    that lacks [email] or [password].  It then leaves the checker as a batch
    over the dicts before that one does: those pairs are checked and
    recorded, one result each, nothing after them is touched, and the list
    of results is not returned. *)
Theorem check_bulk_stops_at_malformed_pair (env : Env)
    (credentials : list (gmap string string)) (s : State) :
  exists done s',
    check_bulk env (pairs_before credentials) s = (inr done, s') /\
    List.length done = List.length (pairs_before credentials) /\
    check_bulk env credentials s
    = (match first_gap credentials with
       | None => inr done
       | Some key => inl (KeyError key)
       end, s') /\
    (first_gap credentials = None <-> Forall is_pair credentials) /\
    (Forall is_pair credentials -> pairs_before credentials = credentials).
Proof.
  unfold check_bulk.
  destruct (check_bulk_loop_stops env credentials [] s)
    as (done & s' & Hrun & Hlen & Hall).
  exists done, s'. split; [done |]. split; [done |]. split; [done |].
  split; [apply first_gap_none | apply pairs_before_all].
Qed.

(** The second dict has no password: the first pair is checked and recorded,
    the third is never looked at. *)
Example check_bulk_broken_batch :
  fst (check_bulk Stub.accepts_a broken_batch (blank false []))
  = inl (KeyError "password") /\
  valid_creds (snd (check_bulk Stub.accepts_a broken_batch (blank false [])))
  = [mkResult "a@x.com" "p1" true None] /\
  invalid_creds (snd (check_bulk Stub.accepts_a broken_batch (blank false [])))
  = [].
Proof. repeat split; vm_compute; reflexivity. Qed.


(** ** The cost of a check *)

Section CheckBudget.

Variable env : Env.
Variables email password : string.

Lemma requests_app a b : requests (a ++ b) = requests a + requests b.
Proof. unfold requests. by rewrite List.filter_app, List.length_app. Qed.

Lemma time_slept_app a b :
  (time_slept (a ++ b) == time_slept a + time_slept b)%Q.
Proof.
  induction a as [| e a IH]; simpl; [lra |].
  destruct e; simpl; lra.
Qed.

Lemma seconds_succ n : (seconds (S n) == seconds n + 1)%Q.
Proof.
  unfold seconds. rewrite Nat2Z.inj_succ, <- Z.add_1_r, inject_Z_plus.
  change (inject_Z 1) with 1%Q. lra.
Qed.

Lemma seconds_add n m : (seconds (n + m) == seconds n + seconds m)%Q.
Proof.
  unfold seconds. rewrite Nat2Z.inj_add, inject_Z_plus. lra.
Qed.

(** A rotation sends at most one request and sleeps at most one second for
    each call of the directory. *)
Lemma rotation_trace_budget evs :
  rotation_trace evs ->
  requests evs <= acquisitions evs /\
  (time_slept evs <= seconds (acquisitions evs))%Q.
Proof.
  induction 1 as [| e rest _ [IH1 IH2] | p rest Hp _ [IH1 IH2]
                    | p a rest Hp _ [IH1 IH2]].
  - split; [done |]. unfold seconds, acquisitions. simpl.
    change (inject_Z (Z.of_nat 0)) with 0%Q. lra.
  - change (requests (EvSleep 1 :: EvFreeProxy (inl e) :: rest))
      with (requests rest).
    change (acquisitions (EvSleep 1 :: EvFreeProxy (inl e) :: rest))
      with (S (acquisitions rest)).
    change (time_slept (EvSleep 1 :: EvFreeProxy (inl e) :: rest))
      with (1 + time_slept rest)%Q.
    split; [lia |]. pose proof (seconds_succ (acquisitions rest)). lra.
  - change (requests (EvFreeProxy (inr p) :: rest)) with (requests rest).
    change (acquisitions (EvFreeProxy (inr p) :: rest))
      with (S (acquisitions rest)).
    change (time_slept (EvFreeProxy (inr p) :: rest)) with (time_slept rest).
    split; [lia |]. pose proof (seconds_succ (acquisitions rest)). lra.
  - change (requests (EvRequest (mkRequest GET home_url p None) a
                      :: EvFreeProxy (inr p) :: rest))
      with (S (requests rest)).
    change (acquisitions (EvRequest (mkRequest GET home_url p None) a
                          :: EvFreeProxy (inr p) :: rest))
      with (S (acquisitions rest)).
    change (time_slept (EvRequest (mkRequest GET home_url p None) a
                        :: EvFreeProxy (inr p) :: rest))
      with (time_slept rest).
    split; [lia |]. pose proof (seconds_succ (acquisitions rest)). lra.
Qed.

Lemma rotation_budget strict s :
  exists ok rot s',
    _rotate_proxy env strict s = (inr ok, s') /\
    events s' = rot ++ events s /\
    use_proxy s' = use_proxy s /\
    within 0 0 (rotate_max_retries strict) rot.
Proof.
  destruct (_rotate_proxy_spec env strict s)
    as (ok & rot & s' & Hrun & Hev & (Hu & _) & _ & Hmax & _).
  destruct (_rotate_proxy_trace env strict s)
    as (ok' & rot' & s'' & Hrun' & Hev' & Ht).
  rewrite Hrun in Hrun'. injection Hrun' as <- <-.
  rewrite Hev in Hev'. apply app_inv_tail in Hev'. subst rot'.
  destruct (rotation_trace_budget rot Ht) as [Hr Hs].
  exists ok, rot, s'. split; [done |]. split; [done |]. split; [done |].
  split; [done |]. split; [lia | lra].
Qed.

(** The cost of events put around a stretch of the log. *)
Lemma within_around extra most cap pre rot post :
  within 0 0 cap rot ->
  acquisitions pre = 0 -> acquisitions post = 0 ->
  requests pre + requests post <= most ->
  (time_slept pre + time_slept post <= extra)%Q ->
  within extra most cap (pre ++ rot ++ post).
Proof.
  intros (Ha & Hr & Ht) Hpre Hpost Hreq Htime. unfold within.
  rewrite !acquisitions_app, !requests_app, Hpre, Hpost.
  pose proof (time_slept_app pre (rot ++ post)) as H1.
  pose proof (time_slept_app rot post) as H2.
  replace (0 + (acquisitions rot + 0)) with (acquisitions rot) by lia.
  split; [lia |]. split; [lia | lra].
Qed.

Lemma within_nothing cap : within 0 0 cap [].
Proof.
  unfold within, acquisitions, requests, seconds. simpl.
  change (inject_Z (Z.of_nat 0)) with 0%Q. split; [lia |]. split; [lia | lra].
Qed.

Ltac run_body :=
  unfold _get_auth_token_body, try_except, bind, session_get, session_post,
    session_request, get_state, ret, response_json, py_get, raise, sleep,
    modify; simpl.

Ltac call_rotate ok rot s3 Hrot Hev Hu Hw :=
  match goal with
  | |- context [_rotate_proxy env ?b ?st] =>
      destruct (rotation_budget b st) as (ok & rot & s3 & Hrot & Hev & Hu & Hw);
      rewrite Hrot; simpl
  end.

Ltac solve_events :=
  simpl;
  repeat match goal with H : events _ = _ |- _ => rewrite H end;
  simpl; rewrite <- ?app_assoc; reflexivity.

Ltac costs pre rot post :=
  eexists _, (pre ++ rot ++ post), _;
  split; [reflexivity |];
  split; [solve_events |];
  split; [first [assumption | reflexivity] |];
  apply within_around;
  [ first [assumption | apply within_nothing]
  | reflexivity | reflexivity
  | unfold requests; simpl; lia
  | simpl;
    first [ lra
          | match goal with
            | |- context [if ?b then _ else _] => destruct b
            end; lra ] ].

(** One pass of the login loop costs at most two requests of the login flow
    and one rotation, and sleeps 2 seconds more only when it is not the last
    pass. *)
Lemma _get_auth_token_body_budget attempt s :
  exists c new s',
    _get_auth_token_body env email password attempt s = (inr c, s') /\
    events s' = new ++ events s /\
    use_proxy s' = use_proxy s /\
    within (if (attempt <? 1)%nat then 2 else 0) 2
      (rotate_max_retries (use_proxy s)) new.
Proof.
  run_body.
  set (g := mkRequest GET signin_url (session_proxies s) None).
  destruct (send env (events s) g) as [e | page] eqn:Hget; simpl.
  - destruct (is_RequestException e); simpl.
    + destruct (attempt <? 1)%nat; simpl.
      * call_rotate ok rot s3 Hrot Hev Hu Hw.
        destruct ok; simpl.
        -- costs [EvSleep 2] rot [EvRequest g (inl e)].
        -- costs (@nil Event) rot [EvRequest g (inl e)].
      * costs (@nil Event) (@nil Event) [EvRequest g (inl e)].
    + costs (@nil Event) (@nil Event) [EvRequest g (inl e)].
  - set (p := mkRequest POST login_url (session_proxies s)
                (Some (mkPayload email password (_extract_csrf (text page))))).
    destruct (send env (EvRequest g (inr page) :: events s) p)
      as [e | resp] eqn:Hpost; simpl.
    + destruct (is_RequestException e); simpl.
      * destruct (attempt <? 1)%nat; simpl.
        -- call_rotate ok rot s3 Hrot Hev Hu Hw.
           destruct ok; simpl.
           ++ costs [EvSleep 2] rot
                [EvRequest p (inl e); EvRequest g (inr page)].
           ++ costs (@nil Event) rot
                [EvRequest p (inl e); EvRequest g (inr page)].
        -- costs (@nil Event) (@nil Event)
             [EvRequest p (inl e); EvRequest g (inr page)].
      * costs (@nil Event) (@nil Event)
          [EvRequest p (inl e); EvRequest g (inr page)].
    + destruct (status_code resp =? 200)%Z eqn:H200; simpl.
      * destruct (json_body resp) as [[ | b | z | str | l | d] |] eqn:Hjson;
          simpl;
          costs (@nil Event) (@nil Event)
            [EvRequest p (inr resp); EvRequest g (inr page)].
      * destruct ((status_code resp =? 403) || (status_code resp =? 429))%Z;
          simpl.
        -- call_rotate ok rot s3 Hrot Hev Hu Hw.
           destruct ok; simpl;
             costs (@nil Event) rot
               [EvRequest p (inr resp); EvRequest g (inr page)].
        -- costs (@nil Event) (@nil Event)
             [EvRequest p (inr resp); EvRequest g (inr page)].
Qed.

Lemma within_app e1 m1 c1 a e2 m2 c2 b :
  within e1 m1 c1 a -> within e2 m2 c2 b ->
  within (e1 + e2) (m1 + m2) (c1 + c2) (a ++ b).
Proof.
  intros (Ha1 & Ha2 & Ha3) (Hb1 & Hb2 & Hb3). unfold within.
  rewrite acquisitions_app, requests_app.
  pose proof (time_slept_app a b).
  pose proof (seconds_add (acquisitions a) (acquisitions b)).
  split; [lia |]. split; [lia | lra].
Qed.

Lemma seconds_le n m : n <= m -> (seconds n <= seconds m)%Q.
Proof. intros H. unfold seconds. rewrite <- Zle_Qle. lia. Qed.

Lemma check_credentials_budget s :
  exists valid new s',
    check_credentials env email password s = (inr valid, s') /\
    events s' = new ++ events s /\
    within 2 4 (2 * rotate_max_retries (use_proxy s)) new.
Proof.
  unfold check_credentials, _get_auth_token, bind.
  change (seq 0 max_retries) with [0; 1]. cbn [_get_auth_token_loop].
  unfold bind.
  destruct (_get_auth_token_body_budget 0 s)
    as (c1 & new1 & s1 & -> & Hev1 & Hu1 & Hw1).
  change (if (0 <? 1)%nat then 2%Q else 0%Q) with 2%Q in Hw1.
  assert (Hone : within 2 4 (2 * rotate_max_retries (use_proxy s)) new1).
  { destruct Hw1 as (H1 & H2 & H3). split; [lia |]. split; [lia | done]. }
  destruct c1 as [v |].
  { exists (truthy v), new1, s1.
    split; [unfold ret; by destruct (truthy v) |]. done. }
  destruct (_get_auth_token_body_budget 1 s1)
    as (c2 & new2 & s2 & -> & Hev2 & Hu2 & Hw2).
  change (if (1 <? 1)%nat then 2%Q else 0%Q) with 0%Q in Hw2.
  rewrite Hu1 in Hw2.
  assert (Htwo : within 2 4 (2 * rotate_max_retries (use_proxy s))
                   (new2 ++ new1)).
  { pose proof (within_app _ _ _ _ _ _ _ _ Hw2 Hw1) as (H1 & H2 & H3).
    split; [lia |]. split; [lia | lra]. }
  assert (Hev : events s2 = (new2 ++ new1) ++ events s)
    by (by rewrite Hev2, Hev1, app_assoc).
  destruct c2 as [v |].
  - exists (truthy v), (new2 ++ new1), s2.
    split; [unfold ret; by destruct (truthy v) |]. done.
  - by exists false, (new2 ++ new1), s2.
Qed.

End CheckBudget.

(** X22. A check costs a bounded amount of work: besides at most 4 requests
    of the login flow it sends at most one health check per call of the proxy
    directory, it calls the directory at most 10 times with proxies on and 6
    times with proxies off (two rotations), and it sleeps at most 2 seconds
    plus one second per directory call, so never more than 12 seconds. *)
Theorem check_credentials_bounded_cost (env : Env) (email password : string)
    (s : State) :
  exists valid new s',
    check_credentials env email password s = (inr valid, s') /\
    events s' = new ++ events s /\
    acquisitions new <= (if use_proxy s then 10 else 6) /\
    requests new <= 4 + acquisitions new /\
    (time_slept new <= 2 + seconds (acquisitions new))%Q /\
    (time_slept new <= 12)%Q.
Proof.
  destruct (check_credentials_budget env email password s)
    as (valid & new & s' & Hrun & Hev & Ha & Hr & Ht).
  exists valid, new, s'. split; [done |]. split; [done |].
  assert (Hcap : acquisitions new <= (if use_proxy s then 10 else 6))
    by (destruct (use_proxy s); simpl in Ha; lia).
  split; [done |]. split; [done |]. split; [done |].
  assert (Hten : acquisitions new <= 10) by (destruct (use_proxy s); lia).
  pose proof (seconds_le _ _ Hten) as Hs.
  change (seconds 10) with 10%Q in Hs. lra.
Qed.
